(** * Fix My Barangay: the offline submission pipeline and the duplicate detector

    A shallow embedding of
    - [frontend/src/lib/db.ts] (the IndexedDB wrapper, object store
      [offlineQueue]),
    - [frontend/src/lib/offlineQueue.ts] (class [OfflineQueueManager]),
    - [backend/src/services/duplicateDetector.ts],
    - the routes [POST /reports] (with [reportRateLimit] of
      [backend/src/middleware/rateLimiter.ts]) and [GET /reports] of
      [backend/src/routes/reports.ts], and the queries of
      [ReportModel.findMany] ([backend/src/models/Report.ts]),
    - the location checks and distances of [backend/src/models/Report.ts],
      [backend/src/models/Location.ts] and [backend/src/routes/locations.ts],
    - the sync operation of [frontend/src/lib/syncManager.ts] (class
      [SyncManager]),
    followed by the properties the specification states about them and by
    further properties of the same code.

    Asynchronous code is written in a state-and-exception monad over a
    [World]; everything the code reads from its environment ([Date.now],
    [Math.random], the remote API, storage faults) is an oracle indexed by
    the number of environment interactions made so far. *)

From Stdlib Require Import ZArith List String Bool Arith Lia.
From Stdlib Require Import Permutation Sorted DecimalString.
From Stdlib Require Reals Lra.
Import ListNotations.

Local Open Scope string_scope.
Local Open Scope Z_scope.

Set Implicit Arguments.

(* ===================================================================== *)
(** ** JavaScript exceptions and the effect monad                         *)
(* ===================================================================== *)

(** A thrown value: an [Error] object with its [message], or anything else
    ([error instanceof Error] is false). *)
Inductive JsError : Type :=
| ErrorObj (message : string)
| Thrown.

Inductive Res (A : Type) : Type :=
| Ok (a : A)
| Err (e : JsError).
Arguments Ok {A} a.
Arguments Err {A} e.

(** [error instanceof Error ? error.message : fallback] *)
Definition messageOr (fallback : string) (e : JsError) : string :=
  match e with
  | ErrorObj m => m
  | Thrown => fallback
  end.

Module Monad.
Section Monad.
Variable W : Type.

Definition M (A : Type) : Type := W -> Res A * W.

Definition ret {A} (a : A) : M A := fun w => (Ok a, w).

Definition bind {A B} (m : M A) (k : A -> M B) : M B :=
  fun w => match m w with
           | (Ok a, w') => k a w'
           | (Err e, w') => (Err e, w')
           end.

Definition throw {A} (e : JsError) : M A := fun w => (Err e, w).

(** [try { m } catch (error) { h error }]: the effects of [m] up to the
    throw are kept. *)
Definition tryCatch {A} (m : M A) (h : JsError -> M A) : M A :=
  fun w => match m w with
           | (Ok a, w') => (Ok a, w')
           | (Err e, w') => h e w'
           end.

(** [try { m } finally { f }] for a clean-up [f] that cannot throw. *)
Definition tryFinally {A} (m : M A) (f : W -> W) : M A :=
  fun w => let (r, w') := m w in (r, f w').

Definition modify (f : W -> W) : M unit := fun w => (Ok tt, f w).

Definition gets {A} (f : W -> A) : M A := fun w => (Ok (f w), w).
End Monad.
End Monad.
Import Monad.

Declare Scope js_scope.
Delimit Scope js_scope with js.
Notation "x <- m ;; k" := (bind m (fun x => k))
  (at level 61, m at next level, right associativity) : js_scope.
Notation "m ;;; k" := (bind m (fun _ => k))
  (at level 61, right associativity) : js_scope.
Local Open Scope js_scope.

(* ===================================================================== *)
(** ** Generic list helpers: the stable sort behind [Array.prototype.sort] *)
(* ===================================================================== *)

Section StableSort.
Variable A : Type.
Variable key : A -> Z.

(** [insertSorted a l] puts [a] in front of the first element whose key
    is not smaller: elements equal to [a] stay behind it. *)
Fixpoint insertSorted (a : A) (l : list A) : list A :=
  match l with
  | [] => [a]
  | b :: l' => if key a <=? key b then a :: b :: l'
               else b :: insertSorted a l'
  end.

(** [xs.sort((a, b) => key(a) - key(b))]: ascending and stable. *)
Fixpoint sortBy (l : list A) : list A :=
  match l with
  | [] => []
  | a :: l' => insertSorted a (sortBy l')
  end.
End StableSort.


(* ===================================================================== *)
(** ** Data model of the client ([db.ts], [offlineQueue.ts])              *)
(* ===================================================================== *)

Inductive QueueItemType : Type :=
| CREATE_REPORT
| UPDATE_REPORT.

Definition typeName (t : QueueItemType) : string :=
  match t with
  | CREATE_REPORT => "CREATE_REPORT"
  | UPDATE_REPORT => "UPDATE_REPORT"
  end.

(** [interface OfflineQueueItem]; the payload type [ReportFormData] is
    carried, never inspected, by the queue. *)
Record OfflineQueueItem (ReportFormData : Type) : Type := mkItem {
  id : string;
  type : QueueItemType;
  data : ReportFormData;
  timestamp : Z;
  retryCount : Z;
  lastError : option string
}.

(** [interface SyncStatus] (its [id] is the constant ["last_sync"]). *)
Record SyncStatus : Type := mkSyncStatus {
  ss_timestamp : Z;
  ss_success : bool;
  ss_pending_count : nat
}.

(** [interface QueueStatus] *)
Record QueueStatus : Type := mkQueueStatus {
  pending : nat;
  processing : bool;
  lastSync : option Z;
  errors : list string
}.

(** Outcome of [reportsApi.submitReport]: the promise resolves with the
    created report, or rejects. *)
Inductive SubmitOutcome : Type :=
| Submitted (reportId : string)
| Rejected (e : JsError).

(** Payloads of the events the manager emits. *)
Inductive QueueEvent : Type :=
| QueueUpdatedAdded (queueId : string) (total : nat)
| QueueUpdatedRemoved (queueId : string) (total : nat)
| QueueUpdatedCleared
| SyncStarted
| SyncCompleted (successCount : nat)
| SyncFailedItems (successCount failureCount : nat) (errs : list string)
| SyncFailedError (error : string)
| ItemSynced (queueId : string)
| ItemFailed (queueId : string) (error : string).

(** What an observer of the manager can see: the events it emits and the
    calls it makes to the remote API. *)
Inductive Effect : Type :=
| Emit (e : QueueEvent)
| CallSubmit (queueId : string).

(** [QUEUE_CONFIG] *)
Definition MAX_RETRIES : Z := 3.
Definition RETRY_DELAYS : list Z := [1000; 5000; 15000].
Definition MAX_QUEUE_SIZE : nat := 100.

Section Client.
Variable ReportFormData : Type.

Local Abbreviation Item := (OfflineQueueItem ReportFormData).

(** The environment of the client. Each oracle is indexed by the number of
    environment interactions made before the call. *)
Record Env : Type := mkEnv {
  dateNow : nat -> Z;                                  (* Date.now() *)
  randomSuffix : nat -> string;    (* Math.random().toString(36).substr(2, 9) *)
  submitReport : nat -> ReportFormData -> SubmitOutcome;
  dbFault : nat -> option string   (* Some m: the storage request fails *)
}.

(** The client state: the two object stores, the manager's fields, the
    browser's [navigator.onLine], and the observable log (newest first). *)
Record World : Type := mkWorld {
  tick : nat;
  offlineQueue : list Item;          (* object store, in key order *)
  syncStatus : option SyncStatus;    (* record "last_sync" *)
  isProcessing : bool;
  onLine : bool;
  timerArmed : bool;                 (* syncTimeoutId holds a live timer *)
  log : list Effect
}.

Definition setTick (n : nat) (w : World) : World :=
  mkWorld n (offlineQueue w) (syncStatus w) (isProcessing w) (onLine w)
          (timerArmed w) (log w).
Definition setQueue (q : list Item) (w : World) : World :=
  mkWorld (tick w) q (syncStatus w) (isProcessing w) (onLine w)
          (timerArmed w) (log w).
Definition setSyncStatus (s : option SyncStatus) (w : World) : World :=
  mkWorld (tick w) (offlineQueue w) s (isProcessing w) (onLine w)
          (timerArmed w) (log w).
Definition setProcessing (b : bool) (w : World) : World :=
  mkWorld (tick w) (offlineQueue w) (syncStatus w) b (onLine w)
          (timerArmed w) (log w).
Definition setOnLine (b : bool) (w : World) : World :=
  mkWorld (tick w) (offlineQueue w) (syncStatus w) (isProcessing w) b
          (timerArmed w) (log w).
Definition setTimer (b : bool) (w : World) : World :=
  mkWorld (tick w) (offlineQueue w) (syncStatus w) (isProcessing w) (onLine w)
          b (log w).
Definition record (e : Effect) (w : World) : World :=
  mkWorld (tick w) (offlineQueue w) (syncStatus w) (isProcessing w) (onLine w)
          (timerArmed w) (e :: log w).

Variable env : Env.

Local Abbreviation M := (Monad.M World).

(** One interaction with the environment. *)
Definition ask {A} (oracle : nat -> A) : M A :=
  fun w => (Ok (oracle (tick w)), setTick (S (tick w)) w).

Definition DateNow : M Z := ask (dateNow env).
Definition MathRandom : M string := ask (randomSuffix env).

(* --------------------------------------------------------------------- *)
(** *** [db.ts]: object store [offlineQueue]                              *)
(* --------------------------------------------------------------------- *)

(** [withDB] and [withTransaction]: the request either fails with the
    storage error, or the operation runs on the store. *)
Definition withDB {A} (operation : M A) : M A :=
  f <- ask (dbFault env) ;;
  match f with
  | Some m => throw (ErrorObj m)
  | None => operation
  end.

Definition timestampOf (it : Item) : Z := timestamp it.

(** [objectStore.get(id)] *)
Definition storeGet (k : string) (q : list Item) : option Item :=
  find (fun it => String.eqb (id it) k) q.

(** [objectStore.delete(id)] *)
Definition storeDelete (k : string) (q : list Item) : list Item :=
  filter (fun it => negb (String.eqb (id it) k)) q.

(** Insertion at the place of the key: [getAll] lists records by key. *)
Fixpoint storeInsert (x : Item) (q : list Item) : list Item :=
  match q with
  | [] => [x]
  | y :: q' => if String.ltb (id x) (id y) then x :: y :: q'
               else y :: storeInsert x q'
  end.

(** [objectStore.put(item)]: overwrite the record with the same key, or
    insert. *)
Definition storePut (x : Item) (q : list Item) : list Item :=
  match storeGet (id x) q with
  | Some _ => map (fun it => if String.eqb (id it) (id x) then x else it) q
  | None => storeInsert x q
  end.

Definition decimal (z : Z) : string := NilZero.string_of_int (Z.to_int z).

(** [offlineQueueDB.addToQueue]; [objectStore.add] fails on a key that is
    already present. *)
Definition db_addToQueue (ty : QueueItemType) (d : ReportFormData) : M string :=
  t1 <- DateNow ;;
  r <- MathRandom ;;
  t2 <- DateNow ;;
  let queueItem :=
    mkItem ("queue_" ++ decimal t1 ++ "_" ++ r) ty d t2 0 None in
  withDB (fun w =>
    match storeGet (id queueItem) (offlineQueue w) with
    | Some _ => (Err (ErrorObj "ConstraintError"), w)
    | None => (Ok (id queueItem),
               setQueue (storeInsert queueItem (offlineQueue w)) w)
    end).

(** [offlineQueueDB.getQueueItems]: [getAll], then
    [items.sort((a, b) => a.timestamp - b.timestamp)]. *)
Definition db_getQueueItems : M (list Item) :=
  withDB (gets (fun w => sortBy timestampOf (offlineQueue w))).

(** [offlineQueueDB.removeFromQueue] *)
Definition db_removeFromQueue (k : string) : M unit :=
  withDB (modify (fun w => setQueue (storeDelete k (offlineQueue w)) w)).

(** [if (lastError) { item.lastError = lastError }]: [undefined] and the
    empty string are falsy. *)
Definition truthy (s : option string) : bool :=
  match s with
  | Some m => negb (String.eqb m "")
  | None => false
  end.

(** [offlineQueueDB.updateQueueItem] *)
Definition db_updateQueueItem (k : string) (rc : Z) (le : option string)
  : M unit :=
  withDB (fun w =>
    match storeGet k (offlineQueue w) with
    | Some item =>
        let item1 := mkItem (id item) (type item) (data item)
                            (timestamp item) rc (lastError item) in
        let item2 := if truthy le
                     then mkItem (id item1) (type item1) (data item1)
                                 (timestamp item1) (retryCount item1) le
                     else item1 in
        (Ok tt, setQueue (storePut item2 (offlineQueue w)) w)
    | None =>
        (Err (ErrorObj ("Queue item " ++ k ++ " not found")), w)
    end).

(** [offlineQueueDB.clearQueue] *)
Definition db_clearQueue : M unit :=
  withDB (modify (setQueue [])).

(** [syncStatusDB.updateSyncStatus] and [syncStatusDB.getSyncStatus] *)
Definition db_updateSyncStatus (s : SyncStatus) : M unit :=
  withDB (modify (setSyncStatus (Some s))).

Definition db_getSyncStatus : M (option SyncStatus) :=
  withDB (gets syncStatus).

(* --------------------------------------------------------------------- *)
(** *** [offlineQueue.ts]: class [OfflineQueueManager]                    *)
(* --------------------------------------------------------------------- *)

(** [this.emit(event, data)]; listeners are observers: each runs inside its
    own try/catch and does not call back into the manager. *)
Definition emit (e : QueueEvent) : M unit := modify (record (Emit e)).

Definition isOnline : M bool := gets onLine.

(** [updateSyncStatus]: failures are logged and swallowed. *)
Definition updateSyncStatus : M unit :=
  tryCatch
    (queueItems <- db_getQueueItems ;;
     now <- DateNow ;;
     db_updateSyncStatus
       (mkSyncStatus now (Nat.eqb (List.length queueItems) 0) (List.length queueItems)))
    (fun _ => ret tt).

(** [scheduleProcessing]: (re)arms the one-shot timer that will call
    [processQueue]. *)
Definition scheduleProcessing : M unit := modify (setTimer true).

(** [addToQueue(reportData)] *)
Definition addToQueue (reportData : ReportFormData) : M string :=
  tryCatch
    (currentItems <- db_getQueueItems ;;
     if (MAX_QUEUE_SIZE <=? List.length currentItems)%nat
     then throw (ErrorObj ("Queue is full (max "
                           ++ decimal (Z.of_nat MAX_QUEUE_SIZE) ++ " items)"))
     else
       queueId <- db_addToQueue CREATE_REPORT reportData ;;
       updateSyncStatus ;;;
       emit (QueueUpdatedAdded queueId (List.length currentItems + 1)) ;;;
       online <- isOnline ;;
       (if online then scheduleProcessing else ret tt) ;;;
       ret queueId)
    (fun error => throw error).

(** The [errors] field of [getQueueStatus]:
    [filter(item => item.lastError).map(item => item.lastError!).slice(0, 5)] *)
Definition statusErrors (queueItems : list Item) : list string :=
  firstn 5
    (map (fun item => match lastError item with Some m => m | None => "" end)
         (filter (fun item => truthy (lastError item)) queueItems)).

(** [getQueueStatus()] *)
Definition getQueueStatus : M QueueStatus :=
  tryCatch
    (queueItems <- db_getQueueItems ;;
     status <- db_getSyncStatus ;;
     busy <- gets isProcessing ;;
     ret (mkQueueStatus (List.length queueItems) busy
                        (option_map ss_timestamp status)
                        (statusErrors queueItems)))
    (fun _ => ret (mkQueueStatus 0 false None ["Failed to get queue status"])).

(** [getPendingItems()] *)
Definition getPendingItems : M (list Item) :=
  tryCatch db_getQueueItems (fun _ => ret []).

(** [removeFromQueue(queueId)] *)
Definition removeFromQueue (queueId : string) : M unit :=
  tryCatch
    (db_removeFromQueue queueId ;;;
     updateSyncStatus ;;;
     status <- getQueueStatus ;;
     emit (QueueUpdatedRemoved queueId (pending status)))
    (fun error => throw error).

(** [clearQueue()] *)
Definition clearQueue : M unit :=
  tryCatch
    (db_clearQueue ;;;
     updateSyncStatus ;;;
     emit QueueUpdatedCleared)
    (fun error => throw error).

(** [processQueueItem(item)] *)
Definition processQueueItem (item : Item) : M unit :=
  if MAX_RETRIES <=? retryCount item
  then
    db_removeFromQueue (id item) ;;;
    throw (ErrorObj "Max retries exceeded")
  else
    tryCatch
      (match type item with
       | CREATE_REPORT =>
           modify (record (CallSubmit (id item))) ;;;
           outcome <- ask (fun n => submitReport env n (data item)) ;;
           match outcome with
           | Submitted _ => db_removeFromQueue (id item)
           | Rejected e => throw e
           end
       | other =>
           throw (ErrorObj ("Unsupported queue item type: " ++ typeName other))
       end)
      (fun error => throw error).

(** The counters of one cycle: [successCount], [failureCount], [errors]. *)
Record Tally : Type := mkTally {
  successCount : nat;
  failureCount : nat;
  cycleErrors : list string
}.

(** The body of [for (const item of queueItems)]. *)
Definition processOne (item : Item) (t : Tally) : M Tally :=
  tryCatch
    (processQueueItem item ;;;
     emit (ItemSynced (id item)) ;;;
     ret (mkTally (S (successCount t)) (failureCount t) (cycleErrors t)))
    (fun error =>
       let errorMessage := messageOr "Unknown error" error in
       emit (ItemFailed (id item) errorMessage) ;;;
       db_updateQueueItem (id item) (retryCount item + 1) (Some errorMessage) ;;;
       ret (mkTally (successCount t) (S (failureCount t))
                    (cycleErrors t ++ [id item ++ ": " ++ errorMessage]))).

Fixpoint processItems (queueItems : list Item) (t : Tally) : M Tally :=
  match queueItems with
  | [] => ret t
  | item :: rest => t' <- processOne item t ;; processItems rest t'
  end.

(** What follows the loop inside the [try] of [processQueue]. *)
Definition finishCycle (t : Tally) : M unit :=
  updateSyncStatus ;;;
  match cycleErrors t with
  | [] => emit (SyncCompleted (successCount t))
  | errs => emit (SyncFailedItems (successCount t) (failureCount t) errs)
  end.

(** The [catch] of [processQueue]: the error becomes a [sync-failed] event
    and is not rethrown. *)
Definition cycleFailed (error : JsError) : M unit :=
  emit (SyncFailedError (messageOr "Processing failed" error)).

(** [processQueue()] *)
Definition processQueue : M unit :=
  busy <- gets isProcessing ;;
  online <- isOnline ;;
  if busy || negb online then ret tt
  else
    tryFinally
      (tryCatch
         (modify (setProcessing true) ;;;
          emit SyncStarted ;;;
          queueItems <- db_getQueueItems ;;
          match queueItems with
          | [] => modify (setProcessing false)
          | _ =>
              t <- processItems queueItems (mkTally 0 0 []) ;;
              finishCycle t
          end)
         cycleFailed)
      (setProcessing false).

(** [forceSync()] *)
Definition forceSync : M unit :=
  online <- isOnline ;;
  if negb online then throw (ErrorObj "Cannot sync while offline")
  else
    busy <- gets isProcessing ;;
    if busy then throw (ErrorObj "Sync already in progress")
    else processQueue.

(** The loop of [retryFailedItems]:
    [updateQueueItem(item.id, item.retryCount, undefined)] for each. *)
Fixpoint resetErrors (failedItems : list Item) : M unit :=
  match failedItems with
  | [] => ret tt
  | item :: rest =>
      db_updateQueueItem (id item) (retryCount item) None ;;;
      resetErrors rest
  end.

Definition isFailedItem (item : Item) : bool :=
  truthy (lastError item) && (retryCount item <? MAX_RETRIES).

(** [retryFailedItems()] *)
Definition retryFailedItems : M unit :=
  tryCatch
    (queueItems <- db_getQueueItems ;;
     let failedItems := filter isFailedItem queueItems in
     match failedItems with
     | [] => ret tt
     | _ => resetErrors failedItems ;;; processQueue
     end)
    (fun error => throw error).

(** [getRetryDelay(retryCount)] (defined by the class, called nowhere):
    [RETRY_DELAYS[Math.min(retryCount, RETRY_DELAYS.length - 1)]]; an index
    below zero reads [undefined]. *)
Definition getRetryDelay (rc : Z) : option Z :=
  let index := Z.min rc (Z.of_nat (List.length RETRY_DELAYS) - 1) in
  if index <? 0 then None else nth_error RETRY_DELAYS (Z.to_nat index).

(* --------------------------------------------------------------------- *)
(** *** Overlapping triggers: [processQueue] between its suspension points *)
(* --------------------------------------------------------------------- *)

(** An item is submitted when it is below the retry limit and is a
    [CREATE_REPORT]. *)
Definition willSubmit (item : Item) : bool :=
  negb (MAX_RETRIES <=? retryCount item)
  && match type item with CREATE_REPORT => true | UPDATE_REPORT => false end.

(** The body of the loop from the moment the call to the API is pending:
    the response, then the bookkeeping of [processQueueItem] and of the
    [try]/[catch] around it. *)
Definition completeSubmission (item : Item) (t : Tally) : M Tally :=
  tryCatch
    (tryCatch
       (outcome <- ask (fun n => submitReport env n (data item)) ;;
        match outcome with
        | Submitted _ => db_removeFromQueue (id item)
        | Rejected e => throw e
        end)
       (fun error => throw error) ;;;
     emit (ItemSynced (id item)) ;;;
     ret (mkTally (S (successCount t)) (failureCount t) (cycleErrors t)))
    (fun error =>
       let errorMessage := messageOr "Unknown error" error in
       emit (ItemFailed (id item) errorMessage) ;;;
       db_updateQueueItem (id item) (retryCount item + 1) (Some errorMessage) ;;;
       ret (mkTally (successCount t) (S (failureCount t))
                    (cycleErrors t ++ [id item ++ ": " ++ errorMessage]))).

(** An invocation of [processQueue] that got past its guard and is
    suspended at an [await]: on [getQueueItems()], at the top of the loop
    with [rest] still to process, or on the response of the API for [item]. *)
Inductive Cycle : Type :=
| AwaitItems
| InLoop (rest : list Item) (t : Tally)
| AwaitResponse (item : Item) (rest : list Item) (t : Tally).

(** The synchronous prefix of [processQueue]: the guard, and when it lets
    the call through, [isProcessing = true] and [sync-started], both before
    the first [await]. *)
Definition enterCycle (w : World) : option Cycle * World :=
  if isProcessing w || negb (onLine w) then (None, w)
  else (Some AwaitItems, record (Emit SyncStarted) (setProcessing true w)).

(** The [catch] and [finally] of [processQueue] after a throw. *)
Definition abortCycle (error : JsError) (w : World) : World :=
  setProcessing false (snd (cycleFailed error w)).

(** One resumption of a suspended cycle, up to its next suspension or to
    its return ([None]). An item that is submitted suspends the cycle while
    the call is pending; the storage requests of one item run within one
    resumption: the guard of [processQueue] reads only [isProcessing] and
    [navigator.onLine], which they do not write. *)
Definition resumeCycle (c : Cycle) (w : World) : option Cycle * World :=
  match c with
  | AwaitItems =>
      match db_getQueueItems w with
      | (Ok [], w') => (None, setProcessing false (setProcessing false w'))
      | (Ok queueItems, w') => (Some (InLoop queueItems (mkTally 0 0 [])), w')
      | (Err e, w') => (None, abortCycle e w')
      end
  | InLoop (item :: rest) t =>
      if willSubmit item
      then (Some (AwaitResponse item rest t), record (CallSubmit (id item)) w)
      else
        match processOne item t w with
        | (Ok t', w') => (Some (InLoop rest t'), w')
        | (Err e, w') => (None, abortCycle e w')
        end
  | InLoop [] t =>
      match finishCycle t w with
      | (Ok _, w') => (None, setProcessing false w')
      | (Err e, w') => (None, abortCycle e w')
      end
  | AwaitResponse item rest t =>
      match completeSubmission item t w with
      | (Ok t', w') => (Some (InLoop rest t'), w')
      | (Err e, w') => (None, abortCycle e w')
      end
  end.

(** Who calls [processQueue]. *)
Inductive Trigger : Type :=
| TimerTick          (* scheduleProcessing, SyncManager's periodic sync *)
| Reconnect          (* the window's "online" event *)
| ExplicitForceSync  (* forceSync(), retryFailedItems() *)
| BackgroundSync.    (* the service worker's SYNC_REPORTS message *)

(** What the event loop may run next: a call of [processQueue], the
    resumption of a suspended one, a change of [navigator.onLine], or
    another operation of the manager. *)
Inductive Action : Type :=
| Fire (source : Trigger)
| Resume (index : nat)
| Network (up : bool)
| Enqueue (reportData : ReportFormData)     (* addToQueue *)
| Remove (queueId : string)                 (* removeFromQueue *)
| Clear                                     (* clearQueue *)
| Status.                                   (* getQueueStatus *)

(** The client together with its suspended [processQueue] calls. *)
Record Machine : Type := mkMachine {
  world : World;
  cycles : list Cycle
}.

Definition replaceNth (i : nat) (c : option Cycle) (l : list Cycle)
  : list Cycle :=
  firstn i l ++ match c with Some c' => [c'] | None => [] end ++ skipn (S i) l.

Definition machineStep (a : Action) (m : Machine) : Machine :=
  match a with
  | Fire _ =>
      match enterCycle (world m) with
      | (Some c, w') => mkMachine w' (cycles m ++ [c])
      | (None, w') => mkMachine w' (cycles m)
      end
  | Resume i =>
      match nth_error (cycles m) i with
      | Some c =>
          let (c', w') := resumeCycle c (world m) in
          mkMachine w' (replaceNth i c' (cycles m))
      | None => m
      end
  | Network up => mkMachine (setOnLine up (world m)) (cycles m)
  | Enqueue reportData =>
      mkMachine (snd (addToQueue reportData (world m))) (cycles m)
  | Remove queueId =>
      mkMachine (snd (removeFromQueue queueId (world m))) (cycles m)
  | Clear => mkMachine (snd (clearQueue (world m))) (cycles m)
  | Status => mkMachine (snd (getQueueStatus (world m))) (cycles m)
  end.

Definition runMachine (actions : list Action) (m : Machine) : Machine :=
  fold_left (fun m a => machineStep a m) actions m.

(** A suspended cycle resumed until it returns. *)
Fixpoint drive (fuel : nat) (c : option Cycle) (w : World) : World :=
  match c, fuel with
  | None, _ => w
  | Some _, O => w
  | Some c', S fuel' => let (c'', w') := resumeCycle c' w in drive fuel' c'' w'
  end.

(** The submission attempts in a log (newest first), split at each
    [sync-started]: the newest cycle first, and within a cycle the newest
    attempt first. *)
Fixpoint cyclesOf (l : list Effect) : list (list string) :=
  match l with
  | [] => [[]]
  | Emit SyncStarted :: l' => [] :: cyclesOf l'
  | CallSubmit i :: l' =>
      match cyclesOf l' with
      | c :: cs => (i :: c) :: cs
      | [] => [[i]]
      end
  | _ :: l' => cyclesOf l'
  end.

(** The items submitted, oldest first. *)
Definition submissions (l : list Effect) : list string :=
  rev (flat_map (fun e => match e with CallSubmit i => [i] | _ => [] end) l).

(** [n] cycles in a row. *)
Fixpoint repeatCycles (n : nat) (w : World) : World :=
  match n with
  | O => w
  | S n' => repeatCycles n' (snd (processQueue w))
  end.

End Client.

Arguments AwaitItems {ReportFormData}.
Arguments Fire {ReportFormData} source.
Arguments Resume {ReportFormData} index.
Arguments Network {ReportFormData} up.
Arguments Clear {ReportFormData}.
Arguments Status {ReportFormData}.

(* ===================================================================== *)
(** ** The server: [duplicateDetector.ts] and [POST /reports]             *)
(* ===================================================================== *)

(** The JavaScript numbers and the part of [Math] the server uses. The
    development is generic in this interface: nothing is assumed about
    rounding errors. [nround] is [Math.round] on a finite number. *)
Class JsNumber (num : Type) : Type := {
  ndec : Z -> Z -> num;            (* the literal m * 10^e *)
  nsub : num -> num -> num;
  nadd : num -> num -> num;
  nmul : num -> num -> num;
  ndiv : num -> num -> num;
  nPI : num;
  nsin : num -> num;
  ncos : num -> num;
  nsqrt : num -> num;
  natan2 : num -> num -> num;
  nle : num -> num -> bool;        (* a <= b, false when either is NaN *)
  nlt : num -> num -> bool;        (* a < b *)
  nisNaN : num -> bool;
  nround : num -> Z
}.

Module Server.
Section Server.
Context {num : Type} `{JsNumber num}.

Definition lit (z : Z) : num := ndec z 0.

(** [interface Location] *)
Record Location : Type := mkLocation {
  latitude : num;
  longitude : num
}.

(** A row of the recency query. *)
Record Row : Type := mkRow {
  row_id : string;
  row_description : string;
  row_latitude : num;
  row_longitude : num;
  row_created_at : string
}.

(** [interface PotentialDuplicate] *)
Record PotentialDuplicate : Type := mkDuplicate {
  dup_id : string;
  description : string;
  distance_m : Z;
  created_at : string
}.

(** [haversine(a, b)], operation by operation. *)
Definition toRad (d : num) : num := ndiv (nmul d nPI) (lit 180).

Definition haversineH (a b : Location) : num :=
  let dLat := toRad (nsub (latitude b) (latitude a)) in
  let dLon := toRad (nsub (longitude b) (longitude a)) in
  let lat1 := toRad (latitude a) in
  let lat2 := toRad (latitude b) in
  let sinDLat := nsin (ndiv dLat (lit 2)) in
  let sinDLon := nsin (ndiv dLon (lit 2)) in
  nadd (nmul sinDLat sinDLat)
       (nmul (nmul (nmul (ncos lat1) (ncos lat2)) sinDLon) sinDLon).

Definition haversine (a b : Location) : num :=
  let R := lit 6371000 in
  let h := haversineH a b in
  let c := nmul (lit 2) (natan2 (nsqrt h) (nsqrt (nsub (lit 1) h))) in
  nmul R c.

Definition rowLocation (row : Row) : Location :=
  mkLocation (row_latitude row) (row_longitude row).

(** The loop over [result.rows]. *)
Definition candidatesOf (current : Location) (radiusMeters : num)
  (rows : list Row) : list PotentialDuplicate :=
  flat_map (fun row =>
    let dist := haversine current (rowLocation row) in
    if nle dist radiusMeters
    then [mkDuplicate (row_id row) (row_description row) (nround dist)
                      (row_created_at row)]
    else []) rows.

(** [findPotentialDuplicates(location, radiusMeters = 120, recentHours = 24)]
    on the outcome of the recency query. *)
Definition findPotentialDuplicates (queryResult : Res (list Row))
  (location : Location) (radiusMeters : option num)
  : Res (list PotentialDuplicate) :=
  match queryResult with
  | Err e => Err e
  | Ok rows =>
      let radius := match radiusMeters with Some r => r | None => lit 120 end in
      let candidates := candidatesOf location radius rows in
      Ok (firstn 5 (sortBy distance_m candidates))
  end.

(* --------------------------------------------------------------------- *)
(** *** Validation ([models/Report.ts], [models/Location.ts])             *)
(* --------------------------------------------------------------------- *)

Definition validateReportCategory (category : string) : bool :=
  existsb (String.eqb category)
    ["Infrastructure"; "Sanitation"; "Safety"; "Water"; "Electrical"].

(** [s.length] of a JavaScript string: the number of UTF-16 code units of
    the text, which a Rocq string holds as its UTF-8 bytes. A byte that
    starts a character counts one, a continuation byte (10xxxxxx) none, and
    the first byte of a four-byte character (11110xxx: a code point beyond
    U+FFFF, two surrogates in JavaScript) two. *)
Fixpoint jsLength (s : string) : nat :=
  match s with
  | EmptyString => O
  | String c rest =>
      let byte := Ascii.nat_of_ascii c in
      ((if (128 <=? byte) && (byte <? 192) then 0
        else if 240 <=? byte then 2 else 1) + jsLength rest)%nat
  end.

(** [description.length >= 1 && description.length <= 500] *)
Definition validateDescription (d : string) : bool :=
  (1 <=? jsLength d)%nat && (jsLength d <=? 500)%nat.

(** A coordinate as it arrives in the body: a number, or something else. *)
Definition RawLocation : Type := (option num * option num)%type.

Definition validateCoordinates (lat lng : option num) : Res unit :=
  match lat, lng with
  | Some la, Some lo =>
      if nisNaN la || nisNaN lo
      then Err (ErrorObj "Latitude and longitude cannot be NaN")
      else if nlt la (lit (-90)) || nlt (lit 90) la
      then Err (ErrorObj "Latitude must be between -90 and 90")
      else if nlt lo (lit (-180)) || nlt (lit 180) lo
      then Err (ErrorObj "Longitude must be between -180 and 180")
      else Ok tt
  | _, _ => Err (ErrorObj "Latitude and longitude must be numbers")
  end.

(** [PHILIPPINES_BOUNDS] *)
Definition boundsNorth : num := ndec 215 (-1).
Definition boundsSouth : num := ndec 45 (-1).
Definition boundsEast : num := ndec 1266 (-1).
Definition boundsWest : num := ndec 1169 (-1).

Definition isWithinPhilippines (lat lng : num) : bool :=
  nle boundsSouth lat && nle lat boundsNorth
  && nle boundsWest lng && nle lng boundsEast.

(** [LocationValidator.validateLocation]: the coordinates or the error. *)
Definition validateLocation (location : option RawLocation) : Res Location :=
  match location with
  | None => Err (ErrorObj "Location must be an object")
  | Some (lat, lng) =>
      match validateCoordinates lat lng, lat, lng with
      | Ok _, Some la, Some lo =>
          if isWithinPhilippines la lo then Ok (mkLocation la lo)
          else Err (ErrorObj "Location must be within Philippines boundaries")
      | Err e, _, _ => Err e
      | _, _, _ => Err (ErrorObj "Latitude and longitude must be numbers")
      end
  end.

(* --------------------------------------------------------------------- *)
(** *** [router.post("/reports", ...)]                                     *)
(* --------------------------------------------------------------------- *)

(** [req.body]; an absent field is [None]. *)
Record ReportBody : Type := mkBody {
  category : option string;
  body_description : option string;
  location : option RawLocation;
  address : option string;
  photo_url : option string;
  photo_public_id : option string
}.

(** [interface CreateReportInput] *)
Record CreateReportInput : Type := mkInput {
  in_category : string;
  in_description : string;
  in_location : Location;
  in_address : option string;
  in_photo_url : option string;
  in_photo_public_id : option string;
  reporter_ip : string
}.

Inductive ResponseBody (Report : Type) : Type :=
| Failure (error message : string)
| RateLimited (error message retryAfter : string)
| Created (data : Report) (duplicates : list PotentialDuplicate)
          (message : string).

Record Response (Report : Type) : Type := mkResponse {
  status : nat;
  json : ResponseBody Report
}.

Definition nonEmpty (s : option string) : option string :=
  match s with
  | Some m => if String.eqb m "" then None else Some m
  | None => None
  end.

Definition createdMessage (duplicates : list PotentialDuplicate) : string :=
  match List.length duplicates with
  | O => "Report submitted successfully"
  | n => "Report submitted. " ++ NilZero.string_of_uint (Nat.to_uint n)
         ++ " similar recent report(s) nearby."
  end.

(** The handler of the route, the last argument of [router.post]: it runs
    when [reportRateLimit] has called [next()]. [detect] is
    [findPotentialDuplicates] applied to the validated location (it fails
    when the recency query does), [create] is [ReportModel.create], [ip] is
    [req.ip || req.connection.remoteAddress || "unknown"]. *)
Definition postReportsHandler (Report : Type)
  (detect : Location -> Res (list PotentialDuplicate))
  (create : CreateReportInput -> Res Report)
  (ip : string) (body : ReportBody) : Response Report :=
  match nonEmpty (category body), nonEmpty (body_description body),
        location body with
  | Some cat, Some desc, Some _ =>
      if negb (validateReportCategory cat)
      then mkResponse 400 (Failure Report "Invalid category"
             "Category must be one of: Infrastructure, Sanitation, Safety, Water, Electrical")
      else if negb (validateDescription desc)
      then mkResponse 400 (Failure Report "Invalid description"
             "Description must be between 1 and 500 characters")
      else
        match validateLocation (location body) with
        | Err e => mkResponse 400 (Failure Report "Invalid location"
                                           (messageOr "" e))
        | Ok loc =>
            let reportData := mkInput cat desc loc (address body)
                                (photo_url body) (photo_public_id body) ip in
            let duplicates :=
              match detect (in_location reportData) with
              | Ok ds => ds
              | Err _ => []
              end in
            match create reportData with
            | Ok report =>
                mkResponse 201 (Created report duplicates
                                        (createdMessage duplicates))
            | Err _ =>
                mkResponse 500 (Failure Report "Internal server error"
                                        "Failed to create report")
            end
        end
  | _, _, _ =>
      mkResponse 400 (Failure Report "Validation failed"
                              "Category, description, and location are required")
  end.

(* --------------------------------------------------------------------- *)
(** *** [middleware/rateLimiter.ts] and the route                          *)
(* --------------------------------------------------------------------- *)

(** What the middleware and the handler read of a request. Header values
    are the bytes Node delivers, each header given once; [req_ip] is
    [req.ip || req.connection.remoteAddress || "unknown"]. *)
Record Request : Type := mkRequest {
  req_isAdmin : bool;                        (* [(req as any).isAdmin] *)
  req_internalServiceKey : option string;    (* [x-internal-service-key] *)
  req_path : string;
  req_authorization : option string;
  req_cookie : option string;
  req_ip : string;
  req_body : ReportBody
}.

(** [s.toLowerCase()] on a header value: the letters A-Z change; no other
    character of such a text becomes an ASCII letter. *)
Definition lowerAscii (c : Ascii.ascii) : Ascii.ascii :=
  let n := Ascii.nat_of_ascii c in
  if (65 <=? n)%nat && (n <=? 90)%nat then Ascii.ascii_of_nat (n + 32) else c.

Fixpoint toLowerCase (s : string) : string :=
  match s with
  | EmptyString => EmptyString
  | String c rest => String (lowerAscii c) (toLowerCase rest)
  end.

(** [s.startsWith(word)] and [s.includes(word)] *)
Definition startsWith (word s : string) : bool := String.prefix word s.

Fixpoint includes (word s : string) : bool :=
  if String.prefix word s then true
  else match s with
       | EmptyString => false
       | String _ rest => includes word rest
       end.

(** [isPrivileged(req)] *)
Definition isPrivileged (req : Request) : bool :=
  if req_isAdmin req then true
  else if match nonEmpty (req_internalServiceKey req) with
          | Some _ => true
          | None => false
          end then true
  else if startsWith "/api/v1/admin" (req_path req) then true
  else if match nonEmpty (req_authorization req) with
          | Some authHeader => startsWith "bearer " (toLowerCase authHeader)
          | None => false
          end then true
  else
    let cookie :=
      match nonEmpty (req_cookie req) with Some c => c | None => "" end in
    includes "__session" cookie || includes "clerk" (toLowerCase cookie).

Definition HOURLY_LIMIT : nat := 5.

(** [baseReportLimiter]: [rateLimit] of express-rate-limit with
    [max: HOURLY_LIMIT] and the [handler] of the source. The count is kept
    by the library: [totalHits] is the number of requests it has counted
    for this client in the current window of one hour, this one included.
    The library passes the request on ([None]) unless that number is above
    [max]. *)
Definition baseReportLimiter (Report : Type) (totalHits : nat)
  : option (Response Report) :=
  if (HOURLY_LIMIT <? totalHits)%nat
  then Some (mkResponse 429
               (RateLimited Report "Rate limit exceeded"
                  ("Maximum " ++ NilZero.string_of_uint (Nat.to_uint HOURLY_LIMIT)
                   ++ " reports per hour allowed")
                  "1 hour"))
  else None.

(** [reportRateLimit(req, res, next)]: [None] is [next()]. *)
Definition reportRateLimit (Report : Type) (req : Request) (totalHits : nat)
  : option (Response Report) :=
  if isPrivileged req then None else baseReportLimiter Report totalHits.

(** [router.post("/reports", reportRateLimit, async (req, res) => ...)] on
    a request whose body has been parsed. *)
Definition postReports (Report : Type)
  (detect : Location -> Res (list PotentialDuplicate))
  (create : CreateReportInput -> Res Report)
  (totalHits : nat) (req : Request) : Response Report :=
  match reportRateLimit Report req totalHits with
  | Some limited => limited
  | None => postReportsHandler detect create (req_ip req) (req_body req)
  end.

(** Vocabulary of the properties: the test of the loop, and the candidate
    made from a row. *)
Definition withinRadius (current : Location) (radius : num) (row : Row)
  : bool :=
  nle (haversine current (rowLocation row)) radius.

Definition asDuplicate (current : Location) (row : Row) : PotentialDuplicate :=
  mkDuplicate (row_id row) (row_description row)
              (nround (haversine current (rowLocation row)))
              (row_created_at row).

(** A body that passes every validation of the handler. *)
Definition validSubmission (body : ReportBody) : bool :=
  match nonEmpty (category body), nonEmpty (body_description body),
        validateLocation (location body) with
  | Some cat, Some desc, Ok _ =>
      validateReportCategory cat && validateDescription desc
  | _, _, _ => false
  end.

End Server.
End Server.

(* ===================================================================== *)
(** ** Exact arithmetic                                                   *)
(* ===================================================================== *)

(** The real numbers as an instance of [JsNumber]: what the server
    computes when no operation rounds. *)
Module Ideal.
Import Reals.
Local Open Scope R_scope.

(** [Math.atan2(y, x)] *)
Definition atan2R (y x : R) : R :=
  if Rlt_dec 0 x then atan (y / x)
  else if Rlt_dec x 0
       then (if Rle_dec 0 y then atan (y / x) + PI else atan (y / x) - PI)
       else if Rlt_dec 0 y then PI / 2
            else if Rlt_dec y 0 then - PI / 2 else 0.

(** [Math.round]: the largest integer not above [x + 1/2]. *)
Definition roundR (x : R) : Z := (up (x + / 2) - 1)%Z.

Definition decR (m e : Z) : R := IZR m * powerRZ 10 e.
Definition leR (a b : R) : bool := if Rle_dec a b then true else false.
Definition ltR (a b : R) : bool := if Rlt_dec a b then true else false.

#[export] Instance ideal : JsNumber R := {
  ndec := decR; nsub := Rminus; nadd := Rplus; nmul := Rmult; ndiv := Rdiv;
  nPI := PI; nsin := sin; ncos := cos; nsqrt := sqrt; natan2 := atan2R;
  nle := leR; nlt := ltR; nisNaN := fun _ => false; nround := roundR
}.

(** Modelled on the specification's words, for comparison with
    [Server.haversine]: the great-circle distance in meters by the haversine
    half-angle formula, with the mean Earth radius 6,371,000 m. *)
Definition haversineTextbook (a b : @Server.Location R) : R :=
  let rad (d : R) := d * PI / 180 in
  let phi1 := rad (Server.latitude a) in
  let phi2 := rad (Server.latitude b) in
  let dphi := rad (Server.latitude b - Server.latitude a) in
  let dlambda := rad (Server.longitude b - Server.longitude a) in
  2 * 6371000
  * asin (sqrt ((sin (dphi / 2))² + cos phi1 * cos phi2 * (sin (dlambda / 2))²)).

(** The two places of the specification's distance example, 0.001 degree
    of latitude apart: (14.5995, 120.9842) and (14.6005, 120.9842). *)
Definition newPlace : @Server.Location R :=
  Server.mkLocation (decR 145995 (-4)) (decR 1209842 (-4)).

Definition earlier : @Server.Row R :=
  Server.mkRow "r-1" "Pothole on the corner"
    (decR 146005 (-4)) (decR 1209842 (-4)) "2025-09-23T08:00:00Z".

(** The end-to-end report of the specification: a leak at (9.78, 125.49). *)
Definition waterLeak : @Server.ReportBody R :=
  Server.mkBody (Some "Water") (Some "Leak")
    (Some (Some (decR 978 (-2)), Some (decR 12549 (-2)))) None None None.

(** Reports at the place of [earlier], 0.001 degree of latitude north of
    [newPlace]. *)
Definition spot (k : string) : @Server.Row R :=
  Server.mkRow k "Pothole on the corner"
    (decR 146005 (-4)) (decR 1209842 (-4)) "2025-09-23T08:00:00Z".

(** Five of them, in the order of the recency query. *)
Definition crowd : list (@Server.Row R) :=
  map spot ["r-1"; "r-2"; "r-3"; "r-4"; "r-5"].

(** A sixth report, a little nearer to [newPlace]: 0.000995 degree north
    of it. *)
Definition nearer : @Server.Row R :=
  Server.mkRow "r-6" "Pothole by the gate"
    (decR 14600495 (-6)) (decR 1209842 (-4)) "2025-09-23T09:00:00Z".

(** A description of 300 times the letter e with an acute accent (U+00E9,
    the bytes C3 A9 in UTF-8): 300 UTF-16 code units in 600 bytes. *)
Definition accented : string :=
  String.concat ""
    (repeat (String (Ascii.ascii_of_nat 195)
               (String (Ascii.ascii_of_nat 169) "")) 300).

(** The leak report with that description. *)
Definition waterLeakAccented : @Server.ReportBody R :=
  Server.mkBody (Some "Water") (Some accented)
    (Some (Some (decR 978 (-2)), Some (decR 12549 (-2)))) None None None.

End Ideal.

(* ===================================================================== *)
(** ** Vocabulary of the properties                                       *)
(* ===================================================================== *)

Section Vocabulary.
Variable ReportFormData : Type.
Local Abbreviation Item := (OfflineQueueItem ReportFormData).
Local Abbreviation World := (World ReportFormData).
Local Abbreviation M := (Monad.M World).

(** No storage request fails. *)
Definition healthy (env : Env ReportFormData) : Prop :=
  forall n, dbFault env n = None.

(** The keys of the store: [keyPath: "id"] makes them pairwise distinct. *)
Definition keys (q : list Item) : list string := map (@id _) q.

(** [objectStore.put] on a key that is present. *)
Definition overwrite (x : Item) (it : Item) : Item :=
  if String.eqb (id it) (id x) then x else it.

(** The items submitted according to a piece of log, newest first. *)
Definition callsOf (l : list Effect) : list string :=
  flat_map (fun e => match e with CallSubmit i => [i] | _ => [] end) l.

(** The store after deletions and in-place updates (same key, same
    timestamp) of records whose key satisfies [K]. *)
Inductive storeEvolves (K : string -> Prop) : list Item -> list Item -> Prop :=
| evolves_refl s : storeEvolves K s s
| evolves_delete s s' k :
    storeEvolves K s s' -> K k -> storeEvolves K s (storeDelete k s')
| evolves_put s s' z x :
    storeEvolves K s s' -> K (id x) ->
    storeGet (id x) s' = Some z -> timestamp x = timestamp z ->
    storeEvolves K s (map (overwrite x) s').

(** A piece of log that starts no cycle and submits only items in [L]. *)
Definition allowed (L : string -> Prop) (e : Effect) : Prop :=
  match e with
  | CallSubmit i => L i
  | Emit SyncStarted => False
  | Emit _ => True
  end.

(** [touched K L w w']: from [w] to [w'] neither [isProcessing] nor
    [navigator.onLine] changed, the store evolved on keys in [K], and the
    log grew by effects allowed by [L]. *)
Definition touched (K L : string -> Prop) (w w' : World) : Prop :=
  isProcessing w' = isProcessing w /\
  onLine w' = onLine w /\
  storeEvolves K (offlineQueue w) (offlineQueue w') /\
  exists new, log w' = (new ++ log w)%list /\ Forall (allowed L) new.

Definition respects {A} (K L : string -> Prop) (m : M A) : Prop :=
  forall w, touched K L w (snd (m w)).

(** What the outcome of a step is: its result, the store, the log; the
    flags are untouched. *)
Definition outcomeIs {A} (w : World) (step : Res A * World)
  (r : Res A) (q : list Item) (l : list Effect) : Prop :=
  fst step = r /\ offlineQueue (snd step) = q /\ log (snd step) = l /\
  isProcessing (snd step) = isProcessing w /\ onLine (snd step) = onLine w.

(** The record after a failed attempt: [retryCount] as given, [lastError]
    replaced when the message is not empty. *)
Definition afterFailure (z : Item) (rc : Z) (message : string) : Item :=
  mkItem (id z) (type z) (data z) (timestamp z) rc
         (if truthy (Some message) then Some message else lastError z).

(** The store after deleting the records of [l]. *)
Definition deleteAll (l q : list Item) : list Item :=
  fold_left (fun q' y => storeDelete (id y) q') l q.

(** How often the log submits the item [k]. *)
Definition attemptsOf (k : string) (l : list Effect) : nat :=
  count_occ string_dec (callsOf l) k.

(** The state between two cycles in which the oldest item of the queue is
    the report [payload] under key [k], after [n] failed attempts, [base]
    being the attempts logged before the first of them. *)
Definition oldestAfter (k : string) (payload : ReportFormData) (base n : nat)
  (w : World) : Prop :=
  isProcessing w = false /\ onLine w = true /\
  NoDup (keys (offlineQueue w)) /\
  attemptsOf k (log w) = (base + n)%nat /\
  exists x rest,
    sortBy (@timestampOf _) (offlineQueue w) = x :: rest /\
    id x = k /\ type x = CREATE_REPORT /\ data x = payload /\
    retryCount x = Z.of_nat n.

(** From [w] to [w'] the guard flag is as it was, the keys of the store
    stay distinct, and no cycle of the log gained an attempt. *)
Definition calm (w w' : World) : Prop :=
  isProcessing w' = isProcessing w /\
  (NoDup (keys (offlineQueue w)) -> NoDup (keys (offlineQueue w'))) /\
  cyclesOf (log w') = cyclesOf (log w).

Definition calmly {A} (m : M A) : Prop := forall w, calm w (snd (m w)).

(** The attempts of the cycle in progress. *)
Definition currentAttempts (w : World) : list string :=
  hd [] (cyclesOf (log w)).

(** A suspended cycle fits the state: its remaining items are pairwise
    distinct and none of them was attempted in this cycle yet. *)
Definition cycleFits (c : Cycle ReportFormData) (w : World) : Prop :=
  match c with
  | AwaitItems => currentAttempts w = []
  | InLoop rest _ | AwaitResponse _ rest _ =>
      NoDup (keys rest) /\
      forall i, In i (currentAttempts w) -> ~ In i (keys rest)
  end.

(** The invariant of the machine: no cycle and [isProcessing = false], or
    one cycle and [isProcessing = true]; no cycle attempted an item twice. *)
Definition exclusive (m : Machine ReportFormData) : Prop :=
  NoDup (keys (offlineQueue (world m))) /\
  Forall (@NoDup string) (cyclesOf (log (world m))) /\
  match cycles m with
  | [] => isProcessing (world m) = false
  | [c] => isProcessing (world m) = true /\ cycleFits c (world m)
  | _ => False
  end.

End Vocabulary.

(* ===================================================================== *)
(** ** Vocabulary: one call to the API at a time                          *)
(* ===================================================================== *)

(** The call to the API that a log (newest first) leaves unanswered: its
    newest call, unless [item-synced] or [item-failed] for that item has
    followed. *)
Fixpoint unanswered (l : list Effect) : option string :=
  match l with
  | [] => None
  | CallSubmit i :: _ => Some i
  | Emit (ItemSynced j) :: l' | Emit (ItemFailed j _) :: l' =>
      match unanswered l' with
      | Some i => if String.eqb i j then None else Some i
      | None => None
      end
  | Emit _ :: l' => unanswered l'
  end.

(** Every call to the API of the log was made when no earlier call was
    unanswered. *)
Fixpoint sequential (l : list Effect) : bool :=
  match l with
  | [] => true
  | CallSubmit _ :: l' =>
      match unanswered l' with
      | None => sequential l'
      | Some _ => false
      end
  | Emit _ :: l' => sequential l'
  end.

(** An effect that is neither a call to the API nor the answer to one. *)
Definition bystander (e : Effect) : Prop :=
  match e with
  | CallSubmit _ | Emit (ItemSynced _) | Emit (ItemFailed _ _) => False
  | Emit _ => True
  end.

Section Sequence.
Variable ReportFormData : Type.

(** The item whose response a suspended cycle is waiting for. *)
Definition awaited (c : Cycle ReportFormData) : option string :=
  match c with
  | AwaitResponse item _ _ => Some (id item)
  | _ => None
  end.

(** The invariant of the machine: the log is sequential, and its
    unanswered call is the one the suspended cycle is waiting for. *)
Definition orderly (m : Machine ReportFormData) : Prop :=
  sequential (log (world m)) = true /\
  match cycles m with
  | [] => isProcessing (world m) = false /\ unanswered (log (world m)) = None
  | [c] =>
      isProcessing (world m) = true /\ unanswered (log (world m)) = awaited c
  | _ => False
  end.

(** An operation that leaves the guard flag alone and logs bystanders. *)
Definition aside {A} (m : Monad.M (World ReportFormData) A) : Prop :=
  forall w,
    isProcessing (snd (m w)) = isProcessing w /\
    exists new, log (snd (m w)) = (new ++ log w)%list /\ Forall bystander new.

End Sequence.

(* ===================================================================== *)
(** ** Scenarios                                                          *)
(* ===================================================================== *)

(** Concrete environments and queues, with the report reduced to its
    description. *)
Module Scenario.

Definition Payload : Type := string.

(** Overlapping triggers around one cycle over two reports. *)
Definition overlapping : list (Action Payload) :=
  [Fire Reconnect; Fire TimerTick; Resume 0; Fire ExplicitForceSync;
   Resume 1; Resume 0; Fire BackgroundSync; Enqueue "Lamp"; Status;
   Resume 0; Network false; Resume 0; Network true; Fire TimerTick;
   Resume 0; Resume 0; Fire Reconnect].

Definition clock (n : nat) : Z := 1000 + Z.of_nat n.
Definition suffix (n : nat) : string := "k" ++ decimal (Z.of_nat n).

(** The API rejects every report, the store answers. *)
Definition rejecting : Env Payload :=
  mkEnv clock suffix (fun _ d => Rejected (ErrorObj ("rejected " ++ d)))
        (fun _ => None).

(** The API accepts every report, the store answers. *)
Definition accepting : Env Payload :=
  mkEnv clock suffix (fun _ d => Submitted ("report for " ++ d))
        (fun _ => None).

(** The store cannot be opened. *)
Definition storeDown : Env Payload :=
  mkEnv clock suffix (fun _ d => Submitted ("report for " ++ d))
        (fun _ => Some "Failed to initialize IndexedDB").

(** A fresh item, as [addToQueue] stores it. *)
Definition fresh (k : string) (d : Payload) (t : Z) : OfflineQueueItem Payload :=
  mkItem k CREATE_REPORT d t 0 None.

(** A client that is online, idle, and has logged nothing. *)
Definition idle (q : list (OfflineQueueItem Payload)) : World Payload :=
  mkWorld 0 q None false true false [].

Definition leak : OfflineQueueItem Payload := fresh "queue_1_a" "Leak" 1.
Definition pothole : OfflineQueueItem Payload := fresh "queue_2_b" "Pothole" 2.
Definition lamp : OfflineQueueItem Payload := fresh "queue_3_c" "Lamp" 3.

(** [leak] after three failed attempts. *)
Definition exhausted : OfflineQueueItem Payload :=
  mkItem "queue_1_a" CREATE_REPORT "Leak" 1 3 (Some "rejected Leak").

(** [pothole] after a failed attempt. *)
Definition failedOnce : OfflineQueueItem Payload :=
  mkItem "queue_2_b" CREATE_REPORT "Pothole" 2 1 (Some "Network error").

(** Three reports, stored in the order of their keys. *)
Definition shuffled : list (OfflineQueueItem Payload) :=
  [fresh "queue_a" "Lamp" 30; fresh "queue_b" "Leak" 10;
   fresh "queue_c" "Pothole" 20].

(** Six reports, enqueued in this order. *)
Definition six : list (OfflineQueueItem Payload) :=
  [fresh "queue_1" "r1" 1; fresh "queue_2" "r2" 2; fresh "queue_3" "r3" 3;
   fresh "queue_4" "r4" 4; fresh "queue_5" "r5" 5; fresh "queue_6" "r6" 6].

(** A queue of [n] items with distinct keys. *)
Fixpoint backlog (n : nat) : list (OfflineQueueItem Payload) :=
  match n with
  | O => []
  | S n' => backlog n' ++ [fresh (suffix n') "Report" (Z.of_nat n')]
  end.


End Scenario.

(* ===================================================================== *)
(** ** More vocabulary for the queue                                      *)
(* ===================================================================== *)

Section MoreVocabulary.
Variable ReportFormData : Type.
Local Abbreviation Item := (OfflineQueueItem ReportFormData).
Local Abbreviation World := (World ReportFormData).
Local Abbreviation M := (Monad.M World).

(** Two records of the same report: key, kind, payload and enqueue time. *)
Definition sameReport (x z : Item) : Prop :=
  id x = id z /\ type x = type z /\ data x = data z /\
  timestamp x = timestamp z.

(** Every record of [s'] is a record of [s], up to its retry bookkeeping. *)
Definition keepsReports (s s' : list Item) : Prop :=
  forall x, In x s' -> exists z, In z s /\ sameReport x z.

Definition conserves {A} (m : M A) : Prop :=
  forall w, keepsReports (offlineQueue w) (offlineQueue (snd (m w))).

(** The submissions the retry limit still allows for the record under [k]. *)
Definition attemptsLeft (k : string) (q : list Item) : nat :=
  match storeGet k q with
  | Some x => Z.to_nat (MAX_RETRIES - retryCount x)
  | None => 0
  end.

(** The sync status record describes the queue: its count, and [success]
    exactly when nothing is pending. *)
Definition statusFits (w : World) : Prop :=
  exists now,
    syncStatus w
    = Some (mkSyncStatus now (Nat.eqb (List.length (offlineQueue w)) 0)
                         (List.length (offlineQueue w))).
End MoreVocabulary.
Arguments sameReport {ReportFormData} x z.
Arguments keepsReports {ReportFormData} s s'.
Arguments conserves {ReportFormData A} m.
Arguments attemptsLeft {ReportFormData} k q.
Arguments statusFits {ReportFormData} w.

(* ===================================================================== *)
(** ** The client: listeners and the status text ([offlineQueue.ts])     *)
(* ===================================================================== *)








(** A template literal's [${n}] for a natural number. *)
Definition natText (n : nat) : string :=
  NilZero.string_of_uint (Nat.to_uint n).

(** [queueUtils.formatQueueStatus(status)] *)
Definition formatQueueStatus (s : QueueStatus) : string :=
  if Nat.eqb (pending s) 0 then "All reports synced"
  else if processing s
  then "Syncing " ++ natText (pending s) ++ " reports..."
  else if (0 <? List.length (errors s))%nat
  then natText (pending s) ++ " reports pending ("
       ++ natText (List.length (errors s)) ++ " errors)"
  else natText (pending s) ++ " reports pending sync".

(* ===================================================================== *)
(** ** The server: the other location checks and distances                *)
(* ===================================================================== *)

Module Geo.
Section Geo.
Context {num : Type} `{JsNumber num}.
Import Server.

(** [a >= b] on numbers. *)
Definition nge (a b : num) : bool := nle b a.

(** *** [models/Report.ts] *)

Definition validateLocation (location : Location) : bool :=
  nge (latitude location) (lit (-90)) && nle (latitude location) (lit 90)
  && nge (longitude location) (lit (-180)) && nle (longitude location) (lit 180).

Definition validatePhilippinesLocation (location : Location) : bool :=
  validateLocation location
  && nge (latitude location) (lit 4) && nle (latitude location) (lit 21)
  && nge (longitude location) (lit 116) && nle (longitude location) (lit 127).

Definition validateSurigaoCityLocation (location : Location) : bool :=
  validatePhilippinesLocation location
  && nge (latitude location) (ndec 96 (-1))
  && nle (latitude location) (ndec 99 (-1))
  && nge (longitude location) (ndec 1253 (-1))
  && nle (longitude location) (ndec 1256 (-1)).

(** *** [models/Location.ts]: class [LocationUtils] *)

Definition calculateDistance (point1 point2 : Location) : num :=
  let R := lit 6371000 in
  let lat1Rad := ndiv (nmul (latitude point1) nPI) (lit 180) in
  let lat2Rad := ndiv (nmul (latitude point2) nPI) (lit 180) in
  let deltaLatRad :=
    ndiv (nmul (nsub (latitude point2) (latitude point1)) nPI) (lit 180) in
  let deltaLngRad :=
    ndiv (nmul (nsub (longitude point2) (longitude point1)) nPI) (lit 180) in
  let a :=
    nadd (nmul (nsin (ndiv deltaLatRad (lit 2))) (nsin (ndiv deltaLatRad (lit 2))))
         (nmul (nmul (nmul (ncos lat1Rad) (ncos lat2Rad))
                     (nsin (ndiv deltaLngRad (lit 2))))
               (nsin (ndiv deltaLngRad (lit 2)))) in
  let c := nmul (lit 2) (natan2 (nsqrt a) (nsqrt (nsub (lit 1) a))) in
  nmul R c.

Definition areLocationsNearby (point1 point2 : Location)
  (maxDistanceMeters : num) : bool :=
  let distance := calculateDistance point1 point2 in
  nle distance maxDistanceMeters.

(** *** [routes/locations.ts] *)

(** [SERVICE_AREA_BOUNDS] *)
Definition serviceNorth : num := lit 21.
Definition serviceSouth : num := lit 5.
Definition serviceEast : num := lit 126.
Definition serviceWest : num := lit 117.
Definition surigaoNorth : num := ndec 98 (-1).
Definition surigaoSouth : num := ndec 93 (-1).
Definition surigaoEast : num := ndec 1255 (-1).
Definition surigaoWest : num := lit 125.

Definition isValidCoordinate (lat lng : num) : bool :=
  negb (nisNaN lat) && negb (nisNaN lng)
  && nge lat (lit (-90)) && nle lat (lit 90)
  && nge lng (lit (-180)) && nle lng (lit 180).

Definition isWithinServiceArea (lat lng : num) : bool :=
  nge lat serviceSouth && nle lat serviceNorth
  && nge lng serviceWest && nle lng serviceEast.

Definition isWithinsurigaoCity (lat lng : num) : bool :=
  nge lat surigaoSouth && nle lat surigaoNorth
  && nge lng surigaoWest && nle lng surigaoEast.

(** The route's own [calculateDistance], in kilometres. *)
Definition calculateDistanceKm (lat1 lng1 lat2 lng2 : num) : num :=
  let R := lit 6371 in
  let dLat := ndiv (nmul (nsub lat2 lat1) nPI) (lit 180) in
  let dLng := ndiv (nmul (nsub lng2 lng1) nPI) (lit 180) in
  let a :=
    nadd (nmul (nsin (ndiv dLat (lit 2))) (nsin (ndiv dLat (lit 2))))
         (nmul (nmul (nmul (ncos (ndiv (nmul lat1 nPI) (lit 180)))
                           (ncos (ndiv (nmul lat2 nPI) (lit 180))))
                     (nsin (ndiv dLng (lit 2))))
               (nsin (ndiv dLng (lit 2)))) in
  let c := nmul (lit 2) (natan2 (nsqrt a) (nsqrt (nsub (lit 1) a))) in
  nmul R c.

End Geo.
End Geo.

(* ===================================================================== *)
(** ** The server: listing reports ([routes/reports.ts], [models/Report.ts]) *)
(* ===================================================================== *)

Module Listing.

(** [interface ReportFilter] *)
Record ReportFilter : Type := mkFilter {
  f_category : option string;
  f_status : option string;
  f_limit : option Z;
  f_offset : option Z
}.

(** A query parameter of the SQL driver. *)
Inductive SqlValue : Type :=
| SqlText (text : string)
| SqlNumber (n : Z).

Record SqlQuery : Type := mkSql {
  sql_text : string;
  sql_params : list SqlValue
}.

Definition newline : string := String (Ascii.ascii_of_nat 10) "".

(** [validateReportStatus] *)
Definition validateReportStatus (status : string) : bool :=
  existsb (String.eqb status)
    ["Submitted"; "In Review"; "In Progress"; "Resolved"; "Closed"].

(** The [whereClause] and the [params] of [ReportModel.findMany] once the
    two filters are looked at. *)
Definition whereOf (filter : ReportFilter) : string * list SqlValue :=
  let start := ("WHERE 1=1", @nil SqlValue) in
  let afterCategory :=
    match Server.nonEmpty (f_category filter) with
    | Some category =>
        let params := (snd start ++ [SqlText category])%list in
        (fst start ++ " AND category = $" ++ natText (List.length params),
         params)
    | None => start
    end in
  match Server.nonEmpty (f_status filter) with
  | Some status =>
      let params := (snd afterCategory ++ [SqlText status])%list in
      (fst afterCategory ++ " AND status = $" ++ natText (List.length params),
       params)
  | None => afterCategory
  end.

(** [x || fallback] on a number that is not NaN. *)
Definition orElse (x : option Z) (fallback : Z) : Z :=
  match x with
  | Some n => if n =? 0 then fallback else n
  | None => fallback
  end.

(** The two statements of [ReportModel.findMany]: the count, then the
    page. *)
Definition findManyQueries (filter : ReportFilter) : SqlQuery * SqlQuery :=
  let (whereClause, params) := whereOf filter in
  let countQuery :=
    mkSql ("SELECT COUNT(" ++ "*) as total FROM reports " ++ whereClause)
          params in
  let limit := orElse (f_limit filter) 20 in
  let offset := orElse (f_offset filter) 0 in
  let limitIndex := (List.length params + 1)%nat in
  let offsetIndex := (List.length params + 2)%nat in
  let pageParams := (params ++ [SqlNumber limit; SqlNumber offset])%list in
  (countQuery,
   mkSql (newline
          ++ "      SELECT id, category, description, " ++ newline
          ++ "             ST_X(location) as longitude, ST_Y(location) as latitude,"
          ++ newline
          ++ "             address, photo_url, photo_public_id, status, reporter_ip, admin_notes,"
          ++ newline
          ++ "             duplicate_of, created_at, updated_at, resolved_at"
          ++ newline
          ++ "      FROM reports " ++ whereClause ++ newline
          ++ "      ORDER BY created_at DESC" ++ newline
          ++ "      LIMIT $" ++ natText limitIndex
          ++ " OFFSET $" ++ natText offsetIndex ++ newline
          ++ "    ")
         pageParams).

(** Whether a filter is given, and the values of those that are. *)
Definition given (x : option string) : bool :=
  match Server.nonEmpty x with Some _ => true | None => false end.

Definition givenValues (filter : ReportFilter) : list SqlValue :=
  (match Server.nonEmpty (f_category filter) with
   | Some category => [SqlText category]
   | None => []
   end
   ++ match Server.nonEmpty (f_status filter) with
      | Some status => [SqlText status]
      | None => []
      end)%list.

Section Handler.
Variable Report : Type.

(** [parseInt(text, 10)]: the integer the text starts with, [None] when
    there is none (NaN). *)
Variable parseInt : string -> option Z.

(** [req.query], each parameter given once, as text. *)
Record ReportsQuery : Type := mkQuery {
  q_category : option string;
  q_status : option string;
  q_limit : option string;
  q_offset : option string
}.

(** [process.env] *)
Record Environment : Type := mkEnvironment {
  REPORTS_MAX_LIMIT : option string;
  NODE_ENV : option string
}.

Inductive ListBody : Type :=
| ListFailure (error message : string) (details : option string)
| ListSuccess (reports : list Report) (total limit offset : Z)
              (hasMore : bool) (maxLimit limitRequested limitApplied : Z).

Record ListResponse : Type := mkListResponse {
  list_status : nat;
  list_json : ListBody
}.

(** [MAX_REPORTS_LIMIT]: the override of the environment, else 5 in
    development and 100 otherwise. *)
Definition maxReportsLimit (env : Environment) : Z :=
  let parsedEnvMax :=
    match Server.nonEmpty (REPORTS_MAX_LIMIT env) with
    | Some text => parseInt text
    | None => None
    end in
  let fallback :=
    match NODE_ENV env with
    | Some mode => if String.eqb mode "development" then 5 else 100
    | None => 100
    end in
  match parsedEnvMax with
  | Some m => if negb (m =? 0) && (0 <? m) then m else fallback
  | None => fallback
  end.

(** [(error as any)?.message || "Failed to fetch reports"] *)
Definition detailsOf (error : JsError) : string :=
  match error with
  | ErrorObj m => if String.eqb m "" then "Failed to fetch reports" else m
  | Thrown => "Failed to fetch reports"
  end.

(** [router.get("/reports", ...)]; [findMany] is [ReportModel.findMany],
    which gives the page and the total, or throws. *)
Definition getReports (env : Environment)
  (findMany : ReportFilter -> Res (list Report * Z))
  (query : ReportsQuery) : ListResponse :=
  let limit := match q_limit query with Some text => text | None => "20" end in
  let offset := match q_offset query with Some text => text | None => "0" end in
  let MAX_REPORTS_LIMIT := maxReportsLimit env in
  let categoryFilter :=
    match Server.nonEmpty (q_category query) with
    | Some category =>
        if negb (Server.validateReportCategory category) then None
        else Some (Some category)
    | None => Some None
    end in
  match categoryFilter with
  | None =>
      mkListResponse 400
        (ListFailure "Invalid category"
           "Category must be one of: Infrastructure, Sanitation, Safety, Water, Electrical"
           None)
  | Some filterCategory =>
      let statusFilter :=
        match Server.nonEmpty (q_status query) with
        | Some status =>
            if negb (validateReportStatus status) then None
            else Some (Some status)
        | None => Some None
        end in
      match statusFilter with
      | None =>
          mkListResponse 400
            (ListFailure "Invalid status"
               "Status must be one of: Submitted, In Review, In Progress, Resolved, Closed"
               None)
      | Some filterStatus =>
          match parseInt limit with
          | Some limitNum =>
              if limitNum <? 1
              then mkListResponse 400
                     (ListFailure "Invalid limit"
                        ("Limit must be a positive integer (max "
                         ++ decimal MAX_REPORTS_LIMIT ++ ")") None)
              else
                let effectiveLimit := Z.min limitNum MAX_REPORTS_LIMIT in
                match parseInt offset with
                | Some offsetNum =>
                    if offsetNum <? 0
                    then mkListResponse 400
                           (ListFailure "Invalid offset"
                              "Offset must be a non-negative number" None)
                    else
                      let filter :=
                        mkFilter filterCategory filterStatus
                                 (Some effectiveLimit) (Some offsetNum) in
                      match findMany filter with
                      | Ok (reports, total) =>
                          mkListResponse 200
                            (ListSuccess reports total effectiveLimit offsetNum
                               (offsetNum + effectiveLimit <? total)
                               MAX_REPORTS_LIMIT limitNum effectiveLimit)
                      | Err error =>
                          mkListResponse 500
                            (ListFailure "Internal server error"
                               "Failed to fetch reports"
                               (Some (detailsOf error)))
                      end
                | None =>
                    mkListResponse 400
                      (ListFailure "Invalid offset"
                         "Offset must be a non-negative number" None)
                end
          | None =>
              mkListResponse 400
                (ListFailure "Invalid limit"
                   ("Limit must be a positive integer (max "
                    ++ decimal MAX_REPORTS_LIMIT ++ ")") None)
          end
      end
  end.

(** A filter as the handler builds it: known category and status, a limit
    between 1 and [maxLimit], an offset that is not negative. *)
Definition pageFilter (maxLimit : Z) (filter : ReportFilter) : Prop :=
  (forall c, f_category filter = Some c ->
     Server.validateReportCategory c = true) /\
  (forall s, f_status filter = Some s -> validateReportStatus s = true) /\
  (exists l, f_limit filter = Some l /\ 1 <= l <= maxLimit) /\
  (exists o, f_offset filter = Some o /\ 0 <= o).

End Handler.

Arguments ListFailure {Report} error message details.
Arguments ListSuccess {Report} reports total limit offset hasMore maxLimit
  limitRequested limitApplied.
Arguments mkListResponse {Report} list_status list_json.
End Listing.

(* ===================================================================== *)
(** ** The sync manager ([syncManager.ts], class [SyncManager])            *)
(* ===================================================================== *)

Module Sync.

(** [SYNC_CONFIG] *)
Definition PERIODIC_SYNC_INTERVAL : Z := 5 * 60 * 1000.
Definition SYNC_TIMEOUT : Z := 30000.

Inductive NetworkStatus : Type :=
| online
| offline
| checking.

(** [interface SyncManagerStatus] *)
Record SyncManagerStatus : Type := mkStatus {
  st_isEnabled : bool;
  st_lastSync : option Z;
  st_nextSync : option Z;
  st_isPending : bool;
  st_networkStatus : NetworkStatus;
  st_backgroundSyncSupported : bool
}.

(** The events of the sync manager with their payloads. *)
Inductive SyncEvent : Type :=
| OperationStarted
| OperationCompleted (itemsSynced duration : Z)
| OperationFailedItems (itemsSynced : Z) (errs : list string) (duration : Z)
| OperationFailed (error : string) (duration : Z)
| NetworkChanged (status : NetworkStatus)
| StatusUpdated (status : SyncManagerStatus).

(** The fields of the manager and the events it has emitted, newest
    first. [backgroundSync] is what [isBackgroundSyncSupported()] finds in
    the browser. *)
Record SyncManager : Type := mkSyncManager {
  isEnabled : bool;
  periodicSyncInterval : bool;
  networkCheckInterval : bool;
  lastSyncTime : option Z;
  currentSyncPromise : bool;
  networkStatus : NetworkStatus;
  backgroundSync : bool;
  emitted : list SyncEvent
}.

(** How a call of [performSync] ended: it ran an operation of its own, or
    returned the promise of the one under way. *)
Inductive SyncRun : Type :=
| Ran
| Joined.

Section Sync.
Variable ReportFormData : Type.
Variable env : Env ReportFormData.

(** How many resumptions of a queue cycle fit into [SYNC_TIMEOUT], by the
    time at which the cycle is started. *)
Variable patience : nat -> nat.

(** The client: the queue manager with its stores, a queue cycle that
    outlived the operation that started it, and the sync manager. *)
Record Client : Type := mkClient {
  queue : World ReportFormData;
  running : option (Cycle ReportFormData);
  manager : SyncManager
}.

Local Abbreviation S := (Monad.M Client).

Definition onQueue {A} (m : Monad.M (World ReportFormData) A) : S A :=
  fun c => let (r, w) := m (queue c) in (r, mkClient w (running c) (manager c)).

Definition onManager (f : SyncManager -> SyncManager) : S unit :=
  modify (fun c => mkClient (queue c) (running c) (f (manager c))).

Definition setLastSyncTime (t : Z) (m : SyncManager) : SyncManager :=
  mkSyncManager (isEnabled m) (periodicSyncInterval m)
    (networkCheckInterval m) (Some t)
    (currentSyncPromise m) (networkStatus m) (backgroundSync m) (emitted m).
Definition setCurrentSyncPromise (b : bool) (m : SyncManager) : SyncManager :=
  mkSyncManager (isEnabled m) (periodicSyncInterval m) (networkCheckInterval m)
    (lastSyncTime m)
    b (networkStatus m) (backgroundSync m) (emitted m).
Definition announce (e : SyncEvent) (m : SyncManager) : SyncManager :=
  mkSyncManager (isEnabled m) (periodicSyncInterval m) (networkCheckInterval m)
    (lastSyncTime m)
    (currentSyncPromise m) (networkStatus m) (backgroundSync m)
    (e :: emitted m).

(** [getNextSyncTime()]: a [lastSyncTime] of 0 counts as none. *)
Definition getNextSyncTime (m : SyncManager) : option Z :=
  match lastSyncTime m with
  | Some t =>
      if negb (isEnabled m) || (t =? 0) then None
      else Some (t + PERIODIC_SYNC_INTERVAL)
  | None => None
  end.

(** [getStatus()] *)
Definition getStatus (m : SyncManager) : SyncManagerStatus :=
  mkStatus (isEnabled m) (lastSyncTime m) (getNextSyncTime m)
           (currentSyncPromise m) (networkStatus m) (backgroundSync m).

(** [this.emit(event, data)]; as for the queue, listeners are observers. *)
Definition emit (e : SyncEvent) : S unit := onManager (announce e).

(** [emitStatusUpdate()] *)
Definition emitStatusUpdate : S unit :=
  onManager (fun m => announce (StatusUpdated (getStatus m)) m).

(** A cycle resumed for at most [steps] resumptions. *)
Fixpoint resumeFor (steps : nat) (c : option (Cycle ReportFormData))
  (w : World ReportFormData)
  : option (Cycle ReportFormData) * World ReportFormData :=
  match c, steps with
  | None, _ => (None, w)
  | Some c', O => (Some c', w)
  | Some c', Datatypes.S n =>
      let (c'', w') := resumeCycle env c' w in resumeFor n c'' w'
  end.

(** [await Promise.race([offlineQueue.processQueue(), timeoutPromise])]:
    the call runs to its first [await]; the cycle it started, if any, is
    resumed until it returns or the timer fires, and in the latter case it
    stays suspended while the race rejects. *)
Definition raceWithTimeout : S unit :=
  fun c =>
    let (started, w1) := enterCycle (queue c) in
    match started with
    | None => (Ok tt, mkClient w1 (running c) (manager c))
    | Some _ =>
        let (left, w2) := resumeFor (patience (tick w1)) started w1 in
        match left with
        | None => (Ok tt, mkClient w2 (running c) (manager c))
        | Some _ =>
            (Err (ErrorObj "Sync timeout"), mkClient w2 left (manager c))
        end
    end.

(** The end of the [try] of [executeSyncOperation], once the race is
    won. *)
Definition reportOutcome (syncStartTime : Z) (queueStatus : QueueStatus)
  : S unit :=
  finalStatus <- onQueue (getQueueStatus env) ;;
  let itemsSynced :=
    Z.of_nat (pending queueStatus) - Z.of_nat (pending finalStatus) in
  now <- onQueue (DateNow env) ;;
  let duration := now - syncStartTime in
  onManager (setLastSyncTime syncStartTime) ;;;
  match errors finalStatus with
  | [] => emit (OperationCompleted itemsSynced duration)
  | errs => emit (OperationFailedItems itemsSynced errs duration)
  end.

(** The [catch] of [executeSyncOperation]. *)
Definition operationFailed (syncStartTime : Z) (error : JsError) : S unit :=
  now <- onQueue (DateNow env) ;;
  emit (OperationFailed (messageOr "Unknown error" error)
                        (now - syncStartTime)) ;;;
  throw error.

(** [executeSyncOperation()], for a caller that stores the promise in
    [currentSyncPromise] as soon as the call returns it, that is at the
    first [await]: [performSync] is the only caller. *)
Definition executeSyncOperation : S unit :=
  syncStartTime <- onQueue (DateNow env) ;;
  tryFinally
    (tryCatch
       (emit OperationStarted ;;;
        onManager (setCurrentSyncPromise true) ;;;
        queueStatus <- onQueue (getQueueStatus env) ;;
        if Nat.eqb (pending queueStatus) 0
        then
          onManager (setLastSyncTime syncStartTime) ;;;
          emit (OperationCompleted 0 0) ;;;
          emitStatusUpdate
        else
          raceWithTimeout ;;;
          reportOutcome syncStartTime queueStatus)
       (operationFailed syncStartTime))
    (fun c => snd (emitStatusUpdate c)).

(** [performSync()] *)
Definition performSync : S SyncRun :=
  busy <- gets (fun c => currentSyncPromise (manager c)) ;;
  if busy then ret Joined
  else
    status <- gets (fun c => networkStatus (manager c)) ;;
    match status with
    | offline => throw (ErrorObj "Cannot sync while offline")
    | _ =>
        tryFinally (executeSyncOperation ;;; ret Ran)
          (fun c => snd (onManager (setCurrentSyncPromise false) c))
    end.

(** [forceSync()] *)
Definition forceSync : S SyncRun :=
  enabled <- gets (fun c => isEnabled (manager c)) ;;
  if negb enabled then throw (ErrorObj "Sync manager is not enabled")
  else
    status <- gets (fun c => networkStatus (manager c)) ;;
    match status with
    | offline => throw (ErrorObj "Cannot sync while offline")
    | _ => performSync
    end.

(** [isSyncNeeded()] *)
Definition isSyncNeeded : S bool :=
  tryCatch
    (queueStatus <- onQueue (getQueueStatus env) ;;
     ret (0 <? pending queueStatus)%nat)
    (fun _ => ret false).

End Sync.
End Sync.

(* ===================================================================== *)
(** ** Scenarios of the sync manager                                      *)
(* ===================================================================== *)

Module Cases.
Import Scenario Sync.

(** A manager that is started, online, and has not synced yet. *)
Definition started : SyncManager :=
  mkSyncManager true true true None false online true [].

(** The client with [leak] queued and no cycle under way. *)
Definition waiting : Client Payload :=
  mkClient (idle [leak]) None started.

(** Every cycle gets ten resumptions before the timer fires. *)
Definition tenSteps (t : nat) : nat := 10.

End Cases.

(* ===================================================================== *)
(** * Properties                                                          *)
(* ===================================================================== *)

Unset Implicit Arguments.
Local Open Scope list_scope.

(** ** The stable sort *)

Section StableSortFacts.
Variable A : Type.
Variable key : A -> Z.

Local Abbreviation le_key := (fun a b : A => key a <= key b).

Lemma insertSorted_perm (a : A) (l : list A) :
  Permutation (insertSorted key a l) (a :: l).
Proof.
  induction l as [|b l IH]; simpl; [reflexivity|].
  destruct (key a <=? key b); [reflexivity|].
  rewrite IH. apply perm_swap.
Qed.

Lemma sortBy_perm (l : list A) : Permutation (sortBy key l) l.
Proof.
  induction l as [|a l IH]; simpl; [reflexivity|].
  rewrite insertSorted_perm. now constructor.
Qed.

Lemma sortBy_length (l : list A) : List.length (sortBy key l) = List.length l.
Proof. apply Permutation_length, sortBy_perm. Qed.

Lemma sortBy_In (l : list A) (x : A) : In x (sortBy key l) <-> In x l.
Proof.
  split; apply Permutation_in; [|symmetry]; apply sortBy_perm.
Qed.

Lemma insertSorted_sorted (a : A) (l : list A) :
  StronglySorted le_key l -> StronglySorted le_key (insertSorted key a l).
Proof.
  induction 1 as [|b l Hs IH Hall]; simpl.
  - repeat constructor.
  - destruct (Z.leb_spec (key a) (key b)).
    + constructor; [now constructor|].
      constructor; [assumption|].
      eapply Forall_impl; [|exact Hall]. simpl. intros; lia.
    + constructor; [assumption|].
      eapply Permutation_Forall; [symmetry; apply insertSorted_perm|].
      constructor; [lia | assumption].
Qed.

Lemma sortBy_sorted (l : list A) : StronglySorted le_key (sortBy key l).
Proof.
  induction l; simpl; [constructor | now apply insertSorted_sorted].
Qed.

(** Inserting in front of elements that are all at least as large. *)
Lemma insertSorted_head (a : A) (l : list A) :
  Forall (fun b => key a <= key b) l -> insertSorted key a l = a :: l.
Proof.
  destruct l as [|b l]; simpl; [reflexivity|].
  intros Hall. inversion Hall; subst.
  destruct (Z.leb_spec (key a) (key b)); [reflexivity | lia].
Qed.

(** The sort commutes with a filter: removing records from the store
    removes them from the sorted view and moves nothing else. *)
Lemma filter_insertSorted (p : A -> bool) (a : A) (l : list A) :
  StronglySorted le_key l ->
  filter p (insertSorted key a l)
  = if p a then insertSorted key a (filter p l) else filter p l.
Proof.
  induction 1 as [|b l Hs IH Hall]; simpl.
  - destruct (p a); reflexivity.
  - destruct (Z.leb_spec (key a) (key b)) as [Hle|Hgt]; simpl.
    + destruct (p a) eqn:Ea, (p b) eqn:Eb; try reflexivity.
      * simpl. destruct (Z.leb_spec (key a) (key b)); [reflexivity | lia].
      * symmetry. apply insertSorted_head.
        apply Forall_forall. intros c Hc. apply filter_In in Hc.
        rewrite Forall_forall in Hall. specialize (Hall c (proj1 Hc)).
        simpl in Hall. lia.
    + rewrite IH. destruct (p a) eqn:Ea, (p b) eqn:Eb; try reflexivity.
      simpl. destruct (Z.leb_spec (key a) (key b)); [lia | reflexivity].
Qed.

Lemma sortBy_filter (p : A -> bool) (l : list A) :
  sortBy key (filter p l) = filter p (sortBy key l).
Proof.
  induction l as [|a l IH]; simpl; [reflexivity|].
  rewrite filter_insertSorted by apply sortBy_sorted.
  destruct (p a); simpl; now rewrite IH.
Qed.

(** The sort commutes with an update that keeps the keys. *)
Lemma map_insertSorted (f : A -> A) (a : A) (s : list A) :
  key (f a) = key a ->
  (forall b, In b s -> key (f b) = key b) ->
  insertSorted key (f a) (map f s) = map f (insertSorted key a s).
Proof.
  intros Ha. induction s as [|b s IHs]; simpl; intros Hs; [reflexivity|].
  rewrite Ha. rewrite (Hs b (or_introl eq_refl)).
  destruct (key a <=? key b); simpl; [reflexivity|].
  rewrite IHs; [reflexivity|]. intros; apply Hs. now right.
Qed.

Lemma sortBy_map (f : A -> A) (l : list A) :
  (forall a, In a l -> key (f a) = key a) ->
  sortBy key (map f l) = map f (sortBy key l).
Proof.
  induction l as [|a l IH]; simpl; intros Hf; [reflexivity|].
  rewrite IH by (intros; apply Hf; now right).
  apply map_insertSorted; [apply Hf; now left|].
  intros b Hb. apply Hf. right. exact (proj1 (sortBy_In l b) Hb).
Qed.

(** In a sorted list nothing among the first [n] is larger than anything
    behind them. *)
Lemma sorted_firstn_le (l : list A) (n : nat) (x y : A) :
  StronglySorted le_key l ->
  In x (firstn n l) -> In y (skipn n l) -> key x <= key y.
Proof.
  intros Hs. revert n. induction Hs as [|a l Hs IH Hall]; intros n Hx Hy.
  - destruct n; contradiction.
  - destruct n as [|n]; simpl in *; [contradiction|].
    destruct Hx as [->|Hx].
    + rewrite Forall_forall in Hall. apply Hall.
      rewrite <- (firstn_skipn n l). apply in_or_app. now right.
    + eauto.
Qed.

(** With pairwise distinct keys there is one sorted arrangement. *)
Lemma sorted_unique (l l' : list A) :
  StronglySorted (fun a b => key a < key b) l' ->
  StronglySorted le_key l -> Permutation l l' -> l = l'.
Proof.
  intros Hs'. revert l. induction Hs' as [|a' r' Hs' IH Hall']; intros l Hs Hp.
  - apply Permutation_sym in Hp. now apply Permutation_nil in Hp.
  - destruct l as [|a r].
    + apply Permutation_nil in Hp. discriminate.
    + inversion Hs as [|? ? Hsr Hall]; subst.
      rewrite Forall_forall in Hall, Hall'.
      assert (Ha : a = a').
      { assert (In a (a' :: r')) as [->|Hin]
          by (eapply Permutation_in; [exact Hp | now left]); [reflexivity|].
        assert (In a' (a :: r)) as [->|Hin']
          by (eapply Permutation_in; [symmetry; exact Hp | now left]);
          [reflexivity|].
        specialize (Hall a' Hin'). specialize (Hall' a Hin). simpl in Hall. lia. }
      subst a'. f_equal. apply IH; [assumption|].
      eapply Permutation_cons_inv; exact Hp.
Qed.

End StableSortFacts.

(** ** Lists *)

Lemma In_firstn {A} (n : nat) (l : list A) (x : A) :
  In x (firstn n l) -> In x l.
Proof.
  intros Hin. rewrite <- (firstn_skipn n l). apply in_or_app. now left.
Qed.

Lemma NoDup_app_disjoint {A} (l1 l2 : list A) (a : A) :
  NoDup (l1 ++ l2) -> In a l1 -> In a l2 -> False.
Proof.
  induction l1 as [|b l1 IH]; simpl; intros Hnd H1 H2; [contradiction|].
  inversion Hnd as [|? ? Hnb Hnd']; subst.
  destruct H1 as [->|H1]; [|eauto].
  apply Hnb. apply in_or_app. now right.
Qed.

(** ** The object store *)

Section StoreFacts.
Variable ReportFormData : Type.
Local Abbreviation Item := (OfflineQueueItem ReportFormData).

Lemma storeGet_Some (k : string) (q : list Item) (x : Item) :
  storeGet k q = Some x -> In x q /\ id x = k.
Proof.
  unfold storeGet. intros Hf. apply find_some in Hf.
  destruct Hf as [Hin Heq]. now apply String.eqb_eq in Heq.
Qed.

Lemma storeGet_None (k : string) (q : list Item) :
  storeGet k q = None <-> ~ In k (keys q).
Proof.
  unfold storeGet, keys. induction q as [|y q IH]; simpl.
  - tauto.
  - destruct (String.eqb_spec (id y) k) as [Heq|Hne].
    + split; [discriminate | intros Hn; exfalso; apply Hn; now left].
    + rewrite IH. tauto.
Qed.

Lemma storeGet_In (q : list Item) (x : Item) :
  NoDup (keys q) -> In x q -> storeGet (id x) q = Some x.
Proof.
  unfold storeGet, keys. induction q as [|y q IH]; simpl; [contradiction|].
  intros Hnd Hin. inversion Hnd as [|? ? Hny Hnd']; subst.
  destruct Hin as [->|Hin].
  - now rewrite String.eqb_refl.
  - destruct (String.eqb_spec (id y) (id x)) as [Heq|Hne]; [|auto].
    exfalso. apply Hny. rewrite Heq. now apply in_map.
Qed.

Lemma keys_perm (q q' : list Item) :
  Permutation q q' -> Permutation (keys q) (keys q').
Proof. apply Permutation_map. Qed.

Lemma keys_sortBy (q : list Item) :
  Permutation (keys (sortBy (@timestampOf _) q)) (keys q).
Proof. apply keys_perm, sortBy_perm. Qed.

Lemma NoDup_keys_sortBy (q : list Item) :
  NoDup (keys q) -> NoDup (keys (sortBy (@timestampOf _) q)).
Proof.
  intros Hnd. eapply Permutation_NoDup; [|exact Hnd].
  symmetry. apply keys_sortBy.
Qed.

(** *** Deleting *)

Lemma storeDelete_keys (k : string) (q : list Item) :
  keys (storeDelete k q) = filter (fun k' => negb (String.eqb k' k)) (keys q).
Proof.
  unfold keys, storeDelete. induction q as [|y q IH]; simpl; [reflexivity|].
  destruct (String.eqb (id y) k); simpl; now rewrite IH.
Qed.

Lemma storeDelete_NoDup (k : string) (q : list Item) :
  NoDup (keys q) -> NoDup (keys (storeDelete k q)).
Proof. rewrite storeDelete_keys. apply NoDup_filter. Qed.

Lemma storeGet_delete_same (k : string) (q : list Item) :
  storeGet k (storeDelete k q) = None.
Proof.
  apply storeGet_None. rewrite storeDelete_keys. intros Hin.
  apply filter_In in Hin. destruct Hin as [_ Hne].
  now rewrite String.eqb_refl in Hne.
Qed.

Lemma storeGet_delete_other (k k' : string) (q : list Item) :
  k' <> k -> storeGet k' (storeDelete k q) = storeGet k' q.
Proof.
  intros Hne. unfold storeGet, storeDelete.
  induction q as [|y q IH]; simpl; [reflexivity|].
  destruct (String.eqb_spec (id y) k) as [Heq|Hny]; simpl.
  - destruct (String.eqb_spec (id y) k'); [congruence | exact IH].
  - destruct (String.eqb (id y) k'); [reflexivity | exact IH].
Qed.

Lemma storeDelete_absent (k : string) (q : list Item) :
  ~ In k (keys q) -> storeDelete k q = q.
Proof.
  unfold keys, storeDelete. induction q as [|y q IH]; simpl; [reflexivity|].
  intros Hn. destruct (String.eqb_spec (id y) k) as [Heq|Hne]; simpl.
  - exfalso. apply Hn. now left.
  - f_equal. apply IH. tauto.
Qed.

Lemma storeDelete_length (x : Item) (q : list Item) :
  NoDup (keys q) -> In x q ->
  S (List.length (storeDelete (id x) q)) = List.length q.
Proof.
  unfold keys. induction q as [|y q IH]; simpl; [contradiction|].
  intros Hnd Hin. inversion Hnd as [|? ? Hny Hnd']; subst.
  destruct Hin as [->|Hin].
  - rewrite String.eqb_refl. simpl.
    fold (storeDelete (id x) q). now rewrite storeDelete_absent.
  - destruct (String.eqb_spec (id y) (id x)) as [Heq|Hne]; simpl.
    + exfalso. apply Hny. rewrite Heq. now apply in_map.
    + f_equal. now apply IH.
Qed.

Lemma sortBy_storeDelete (k : string) (q : list Item) :
  sortBy (@timestampOf _) (storeDelete k q)
  = storeDelete k (sortBy (@timestampOf _) q).
Proof. apply sortBy_filter. Qed.

(** *** Overwriting *)

Lemma storePut_present (x z : Item) (q : list Item) :
  storeGet (id x) q = Some z -> storePut x q = map (overwrite x) q.
Proof. unfold storePut. now intros ->. Qed.

Lemma overwrite_keys (x : Item) (q : list Item) :
  keys (map (overwrite x) q) = keys q.
Proof.
  unfold keys, overwrite. rewrite map_map. apply map_ext. intros it.
  destruct (String.eqb_spec (id it) (id x)); congruence.
Qed.

Lemma storeGet_overwrite_same (x z : Item) (q : list Item) :
  storeGet (id x) q = Some z -> storeGet (id x) (map (overwrite x) q) = Some x.
Proof.
  unfold storeGet, overwrite. induction q as [|y q IH]; simpl; [discriminate|].
  destruct (String.eqb_spec (id y) (id x)) as [Heq|Hne].
  - intros _. now rewrite String.eqb_refl.
  - destruct (String.eqb_spec (id y) (id x)); [contradiction | exact IH].
Qed.

Lemma storeGet_overwrite_other (x : Item) (k : string) (q : list Item) :
  k <> id x -> storeGet k (map (overwrite x) q) = storeGet k q.
Proof.
  intros Hne. unfold storeGet, overwrite.
  induction q as [|y q IH]; simpl; [reflexivity|].
  destruct (String.eqb_spec (id y) (id x)) as [Heq|Hny].
  - destruct (String.eqb_spec (id x) k); [congruence|].
    destruct (String.eqb_spec (id y) k); [congruence | exact IH].
  - destruct (String.eqb (id y) k); [reflexivity | exact IH].
Qed.

Lemma sortBy_overwrite (x z : Item) (q : list Item) :
  NoDup (keys q) -> storeGet (id x) q = Some z ->
  timestamp x = timestamp z ->
  sortBy (@timestampOf _) (map (overwrite x) q)
  = map (overwrite x) (sortBy (@timestampOf _) q).
Proof.
  intros Hnd Hg Hts. apply sortBy_map. intros a Ha.
  unfold overwrite, timestampOf.
  destruct (String.eqb_spec (id a) (id x)) as [Heq|Hne]; [|reflexivity].
  rewrite <- Heq in Hg. rewrite (storeGet_In q a Hnd Ha) in Hg.
  congruence.
Qed.

(** Overwriting a record with itself changes nothing. *)
Lemma overwrite_self (x : Item) (q : list Item) :
  NoDup (keys q) -> In x q -> map (overwrite x) q = q.
Proof.
  intros Hnd Hin. rewrite <- (map_id q) at 2. apply map_ext_in.
  intros a Ha. unfold overwrite.
  destruct (String.eqb_spec (id a) (id x)) as [Heq|Hne]; [|reflexivity].
  pose proof (storeGet_In q a Hnd Ha) as Hga.
  pose proof (storeGet_In q x Hnd Hin) as Hgx.
  rewrite Heq in Hga. congruence.
Qed.

(** *** Inserting *)

Lemma storeInsert_perm (x : Item) (q : list Item) :
  Permutation (storeInsert x q) (x :: q).
Proof.
  induction q as [|y q IH]; simpl; [reflexivity|].
  destruct (String.ltb (id x) (id y)); [reflexivity|].
  rewrite IH. apply perm_swap.
Qed.

Lemma storeInsert_NoDup (x : Item) (q : list Item) :
  NoDup (keys q) -> storeGet (id x) q = None ->
  NoDup (keys (storeInsert x q)).
Proof.
  intros Hnd Hg. eapply Permutation_NoDup.
  - symmetry. apply keys_perm, storeInsert_perm.
  - simpl. constructor; [now apply storeGet_None | exact Hnd].
Qed.

End StoreFacts.

(** ** What any code path of the manager does to the client state *)

Section Frames.
Variable ReportFormData : Type.
Variable env : Env ReportFormData.
Local Abbreviation Item := (OfflineQueueItem ReportFormData).
Local Abbreviation World := (World ReportFormData).
Local Abbreviation M := (Monad.M World).

Lemma storeEvolves_trans K (s1 s2 s3 : list Item) :
  storeEvolves K s1 s2 -> storeEvolves K s2 s3 -> storeEvolves K s1 s3.
Proof.
  intros H12 H23. induction H23.
  - assumption.
  - apply evolves_delete; auto.
  - eapply evolves_put; eauto.
Qed.

Lemma storeEvolves_mono (K K' : string -> Prop) (s s' : list Item) :
  (forall k, K k -> K' k) -> storeEvolves K s s' -> storeEvolves K' s s'.
Proof.
  intros HK. induction 1.
  - constructor.
  - apply evolves_delete; auto.
  - eapply evolves_put; eauto.
Qed.

Lemma storeEvolves_NoDup K (s s' : list Item) :
  storeEvolves K s s' -> NoDup (keys s) -> NoDup (keys s').
Proof.
  induction 1; intros Hnd.
  - assumption.
  - apply storeDelete_NoDup. auto.
  - rewrite overwrite_keys. auto.
Qed.

Lemma storeEvolves_frame K (s s' : list Item) k :
  storeEvolves K s s' -> ~ K k -> storeGet k s' = storeGet k s.
Proof.
  induction 1; intros Hk.
  - reflexivity.
  - rewrite storeGet_delete_other; [auto|]. intros ->. contradiction.
  - rewrite storeGet_overwrite_other; [auto|]. intros ->. contradiction.
Qed.

Lemma storeEvolves_length K (s s' : list Item) :
  storeEvolves K s s' -> (List.length s' <= List.length s)%nat.
Proof.
  induction 1.
  - lia.
  - unfold storeDelete. etransitivity; [apply filter_length_le | assumption].
  - now rewrite length_map.
Qed.

(** The oldest record stays the oldest while other records evolve. *)
Lemma storeEvolves_head K (s s' : list Item) x rest :
  storeEvolves K s s' -> NoDup (keys s) -> ~ K (id x) ->
  sortBy (@timestampOf _) s = x :: rest ->
  exists rest', sortBy (@timestampOf _) s' = x :: rest'.
Proof.
  induction 1; intros Hnd Hx Hs.
  - eauto.
  - destruct (IHstoreEvolves Hnd Hx Hs) as [r Hr].
    rewrite sortBy_storeDelete, Hr. unfold storeDelete. simpl.
    destruct (String.eqb_spec (id x) k) as [Heq|Hne]; simpl; [|eauto].
    subst k. contradiction.
  - destruct (IHstoreEvolves Hnd Hx Hs) as [r Hr].
    rewrite (sortBy_overwrite _ x0 z s'); auto.
    + rewrite Hr. simpl. unfold overwrite at 1.
      destruct (String.eqb_spec (id x) (id x0)) as [Heq|Hne]; [|eauto].
      rewrite Heq in Hx. contradiction.
    + eapply storeEvolves_NoDup; eauto.
Qed.

Lemma touched_refl K L (w : World) : touched K L w w.
Proof.
  repeat split; [constructor|]. exists []. split; [reflexivity | constructor].
Qed.

Lemma touched_trans K L (w1 w2 w3 : World) :
  touched K L w1 w2 -> touched K L w2 w3 -> touched K L w1 w3.
Proof.
  intros (Hp & Ho & Hs & n1 & Hl1 & Ha1) (Hp' & Ho' & Hs' & n2 & Hl2 & Ha2).
  repeat split; try congruence.
  - eapply storeEvolves_trans; eauto.
  - exists (n2 ++ n1). split.
    + rewrite Hl2, Hl1. now rewrite app_assoc.
    + apply Forall_app. now split.
Qed.

Lemma touched_mono (K K' L L' : string -> Prop) (w w' : World) :
  (forall k, K k -> K' k) -> (forall k, L k -> L' k) ->
  touched K L w w' -> touched K' L' w w'.
Proof.
  intros HK HL (Hp & Ho & Hs & n & Hl & Ha).
  repeat split; auto.
  - eapply storeEvolves_mono; eauto.
  - exists n. split; [assumption|].
    eapply Forall_impl; [|exact Ha].
    intros [[]|i]; simpl; auto.
Qed.

(** *** The combinators *)

Lemma respects_ret {A} K L (a : A) : respects K L (ret (W:=World) a).
Proof. intros w. apply touched_refl. Qed.

Lemma respects_throw {A} K L e : respects K L (throw (W:=World) (A:=A) e).
Proof. intros w. apply touched_refl. Qed.

Lemma respects_bind {A B} K L (m : M A) (k : A -> M B) :
  respects K L m -> (forall a, respects K L (k a)) ->
  respects K L (bind m k).
Proof.
  intros Hm Hk w. unfold bind. specialize (Hm w).
  destruct (m w) as [[a|e] w']; simpl in *; [|assumption].
  eapply touched_trans; [exact Hm | apply Hk].
Qed.

Lemma respects_tryCatch {A} K L (m : M A) (h : JsError -> M A) :
  respects K L m -> (forall e, respects K L (h e)) ->
  respects K L (tryCatch m h).
Proof.
  intros Hm Hh w. unfold tryCatch. specialize (Hm w).
  destruct (m w) as [[a|e] w']; simpl in *; [assumption|].
  eapply touched_trans; [exact Hm | apply Hh].
Qed.

Lemma respects_modify K L (f : World -> World) :
  (forall w, touched K L w (f w)) -> respects K L (modify f).
Proof. intros Hf w. apply Hf. Qed.

Lemma respects_gets {A} K L (f : World -> A) : respects K L (gets f).
Proof. intros w. apply touched_refl. Qed.

Lemma respects_ask {A} K L (oracle : nat -> A) : respects K L (ask oracle : M A).
Proof.
  intros w. simpl. repeat split; [constructor|].
  exists []. split; [reflexivity | constructor].
Qed.

Lemma respects_withDB {A} K L (op : M A) :
  respects K L op -> respects K L (withDB env op).
Proof.
  intros Hop. unfold withDB. apply respects_bind; [apply respects_ask|].
  intros [m|]; [apply respects_throw | assumption].
Qed.

(** *** The storage operations and the events *)

Lemma respects_emit K L (e : QueueEvent) :
  e <> SyncStarted -> respects K L (emit e : M unit).
Proof.
  intros He w. simpl. repeat split; [constructor|].
  exists [Emit e]. split; [reflexivity|].
  constructor; [|constructor]. destruct e; simpl; auto.
Qed.

Lemma respects_db_getQueueItems K L : respects K L (db_getQueueItems env).
Proof. apply respects_withDB, respects_gets. Qed.

Lemma respects_db_getSyncStatus K L : respects K L (db_getSyncStatus env).
Proof. apply respects_withDB, respects_gets. Qed.

Lemma respects_db_updateSyncStatus K L s :
  respects K L (db_updateSyncStatus env s).
Proof.
  apply respects_withDB, respects_modify. intros w. simpl.
  repeat split; [constructor|]. exists []. split; [reflexivity | constructor].
Qed.

Lemma respects_db_removeFromQueue (K L : string -> Prop) k :
  K k -> respects K L (db_removeFromQueue env k).
Proof.
  intros Hk. apply respects_withDB, respects_modify. intros w. simpl.
  repeat split.
  - apply evolves_delete; [constructor | assumption].
  - exists []. split; [reflexivity | constructor].
Qed.

Lemma respects_db_updateQueueItem (K L : string -> Prop) k rc le :
  K k -> respects K L (db_updateQueueItem env k rc le).
Proof.
  intros Hk. apply respects_withDB. intros w. cbv beta.
  destruct (storeGet k (offlineQueue w)) as [item|] eqn:Hg.
  2: apply touched_refl.
  pose proof (storeGet_Some _ _ _ _ Hg) as [Hin Hid].
  simpl. repeat split.
  - match goal with |- context [storePut ?x _] => set (item2 := x) end.
    assert (Hid2 : id item2 = id item) by (subst item2; now destruct (truthy le)).
    assert (Hts2 : timestamp item2 = timestamp item)
      by (subst item2; now destruct (truthy le)).
    rewrite (storePut_present _ item2 item) by (rewrite Hid2, Hid; exact Hg).
    eapply evolves_put; [constructor | | | exact Hts2].
    + now rewrite Hid2, Hid.
    + rewrite Hid2, Hid. exact Hg.
  - exists []. split; [reflexivity | constructor].
Qed.

Lemma respects_updateSyncStatus K L : respects K L (updateSyncStatus env).
Proof.
  unfold updateSyncStatus. apply respects_tryCatch.
  - apply respects_bind; [apply respects_db_getQueueItems|]. intros items.
    apply respects_bind; [apply respects_ask|]. intros now.
    apply respects_db_updateSyncStatus.
  - intros e. apply respects_ret.
Qed.

(** *** One item of the loop *)

(** The [catch] of the loop body. *)
Lemma respects_itemFailed (L : string -> Prop) (y : Item) (t : Tally)
  (error : JsError) :
  respects (eq (id y)) L
    (emit (ItemFailed (id y) (messageOr "Unknown error" error)) ;;;
     db_updateQueueItem env (id y) (retryCount y + 1)
       (Some (messageOr "Unknown error" error)) ;;;
     ret (mkTally (successCount t) (S (failureCount t))
            (cycleErrors t
             ++ [(id y ++ ": " ++ messageOr "Unknown error" error)%string]))).
Proof.
  apply respects_bind; [apply respects_emit; discriminate|]. intros _.
  apply respects_bind; [now apply respects_db_updateQueueItem|]. intros _.
  apply respects_ret.
Qed.

(** What [processQueueItem] does once the call to the API is made. *)
Lemma respects_afterCall (L : string -> Prop) (y : Item) :
  respects (eq (id y)) L
    (outcome <- ask (fun n => submitReport env n (data y)) ;;
     match outcome with
     | Submitted _ => db_removeFromQueue env (id y)
     | Rejected e => throw e
     end).
Proof.
  apply respects_bind; [apply respects_ask|].
  intros [r|e]; [now apply respects_db_removeFromQueue | apply respects_throw].
Qed.

Lemma processOne_touched (y : Item) (t : Tally) (w : World) :
  touched (eq (id y)) (fun _ => False)
    (if willSubmit y then record (CallSubmit (id y)) w else w)
    (snd (processOne env y t w)).
Proof.
  unfold willSubmit, processOne, processQueueItem.
  destruct (MAX_RETRIES <=? retryCount y); simpl negb; cbv iota.
  - apply respects_tryCatch; [|intros e; apply respects_itemFailed].
    apply respects_bind.
    + apply respects_bind; [now apply respects_db_removeFromQueue|].
      intros _. apply respects_throw.
    + intros _. apply respects_bind; [apply respects_emit; discriminate|].
      intros _. apply respects_ret.
  - destruct (type y); simpl andb; cbv iota.
    + pose proof (respects_afterCall (fun _ => False) y) as Hcall.
      pose proof (fun e => respects_itemFailed (fun _ => False) y t e) as Hfail.
      unfold respects in Hcall, Hfail.
      specialize (Hcall (record (CallSubmit (id y)) w)).
      unfold tryCatch, bind, modify in *. cbv beta.
      match type of Hcall with
      | touched _ _ _ (snd ?r) => destruct r as [[u|e] w1]
      end; simpl in Hcall |- *.
      * eapply touched_trans; [exact Hcall|].
        apply (respects_emit (eq (id y)) (fun _ => False) (ItemSynced (id y)));
          discriminate.
      * eapply touched_trans; [exact Hcall | apply Hfail].
    + apply respects_tryCatch; [|intros e; apply respects_itemFailed].
      apply respects_bind.
      * apply respects_tryCatch; [apply respects_throw|].
        intros e. apply respects_throw.
      * intros _. apply respects_bind; [apply respects_emit; discriminate|].
        intros _. apply respects_ret.
Qed.

(** Seen from outside, an item of the loop touches its own record and
    submits at most itself. *)
Lemma respects_processOne (y : Item) (t : Tally) :
  respects (eq (id y)) (eq (id y)) (processOne env y t).
Proof.
  intros w. pose proof (processOne_touched y t w) as Ht.
  eapply touched_trans;
    [|eapply touched_mono; [| |exact Ht]; [auto | contradiction]].
  destruct (willSubmit y); [|apply touched_refl].
  simpl. repeat split; [constructor|].
  exists [CallSubmit (id y)]. split; [reflexivity|].
  constructor; [reflexivity | constructor].
Qed.

(** An item that is submitted: the call is logged, the rest is
    [completeSubmission]. *)
Lemma processOne_submits (y : Item) (t : Tally) (w : World) :
  willSubmit y = true ->
  processOne env y t w
  = completeSubmission env y t (record (CallSubmit (id y)) w).
Proof.
  unfold willSubmit, processOne, processQueueItem, completeSubmission.
  destruct (MAX_RETRIES <=? retryCount y); [discriminate|].
  destruct (type y); [|discriminate]. intros _.
  unfold tryCatch, bind, modify. reflexivity.
Qed.

Lemma respects_completeSubmission (y : Item) (t : Tally) :
  respects (eq (id y)) (fun _ => False) (completeSubmission env y t).
Proof.
  unfold completeSubmission.
  apply respects_tryCatch; [|intros e; apply respects_itemFailed].
  apply respects_bind.
  - apply respects_tryCatch; [apply respects_afterCall|].
    intros e. apply respects_throw.
  - intros _. apply respects_bind; [apply respects_emit; discriminate|].
    intros _. apply respects_ret.
Qed.

Lemma respects_processItems (l : list Item) (t : Tally) :
  respects (fun k => In k (keys l)) (fun k => In k (keys l))
    (processItems env l t).
Proof.
  revert t. induction l as [|y l IH]; intros t; simpl.
  - apply respects_ret.
  - apply respects_bind.
    + intros w. eapply touched_mono; [| |apply respects_processOne];
        simpl; intros k <-; now left.
    + intros t' w. eapply touched_mono; [| |apply IH]; simpl; auto.
Qed.

Lemma respects_finishCycle K L (t : Tally) : respects K L (finishCycle env t).
Proof.
  unfold finishCycle. apply respects_bind; [apply respects_updateSyncStatus|].
  intros _. destruct (cycleErrors t); apply respects_emit; discriminate.
Qed.

Lemma respects_cycleFailed K L e : respects K L (cycleFailed (ReportFormData:=ReportFormData) e).
Proof. apply respects_emit. discriminate. Qed.

(** Neither the loop body, nor the end of the cycle, nor its [catch]
    throws past [processQueue]: the last two never throw at all. *)
Lemma finishCycle_ok (t : Tally) (w : World) : fst (finishCycle env t w) = Ok tt.
Proof.
  unfold finishCycle, bind, updateSyncStatus, tryCatch, ret.
  match goal with |- context [match ?m w with _ => _ end] => destruct (m w) as [[a|e] w1] end;
    destruct (cycleErrors t); reflexivity.
Qed.

End Frames.

(** ** The manager on a store that answers *)

(** Runs a monadic term: unfolds the combinators and answers every storage
    request from the hypothesis that the store is healthy. *)
Ltac run_with Hh :=
  let noFault := fresh "noFault" in
  pose proof Hh as noFault; unfold healthy in noFault;
  unfold withDB, emit, isOnline, DateNow, MathRandom;
  unfold tryCatch, tryFinally, bind, ret, throw, modify, gets, ask;
  repeat (cbn [fst snd tick offlineQueue syncStatus isProcessing onLine
                 timerArmed log setTick setQueue setSyncStatus setProcessing
                 setOnLine setTimer record];
          rewrite ?noFault);
  clear noFault.


Section Healthy.
Variable ReportFormData : Type.
Variable env : Env ReportFormData.
Hypothesis Hhealthy : healthy env.
Local Abbreviation Item := (OfflineQueueItem ReportFormData).
Local Abbreviation World := (World ReportFormData).
Local Abbreviation M := (Monad.M World).

Ltac run := run_with Hhealthy.

Lemma db_getQueueItems_healthy (w : World) :
  db_getQueueItems env w
  = (Ok (sortBy (@timestampOf _) (offlineQueue w)), setTick (S (tick w)) w).
Proof. unfold db_getQueueItems. run. reflexivity. Qed.

(** [updateSyncStatus] touches only the [syncStatus] store. *)
Lemma updateSyncStatus_healthy (w : World) :
  exists w', updateSyncStatus env w = (Ok tt, w') /\
    offlineQueue w' = offlineQueue w /\ log w' = log w /\
    isProcessing w' = isProcessing w /\ onLine w' = onLine w /\
    timerArmed w' = timerArmed w.
Proof.
  unfold updateSyncStatus, db_getQueueItems, db_updateSyncStatus. run.
  eexists. split; [reflexivity|]. cbn. repeat split.
Qed.

(** An item at the retry limit: removed, not submitted; the bookkeeping
    update that follows rejects because the record is gone. *)
Lemma processOne_drop (y : Item) (t : Tally) (w : World) :
  MAX_RETRIES <= retryCount y ->
  outcomeIs w (processOne env y t w)
    (Err (ErrorObj ("Queue item " ++ id y ++ " not found")%string))
    (storeDelete (id y) (offlineQueue w))
    (Emit (ItemFailed (id y) "Max retries exceeded") :: log w).
Proof.
  intros Hmax. apply Z.leb_le in Hmax.
  unfold outcomeIs, processOne, processQueueItem, db_removeFromQueue,
    db_updateQueueItem. rewrite Hmax. run.
  rewrite storeGet_delete_same. cbn. repeat split.
Qed.

(** An item below the limit whose submission succeeds. *)
Lemma processOne_synced (y : Item) (t : Tally) (w : World) (r : string) :
  retryCount y < MAX_RETRIES -> type y = CREATE_REPORT ->
  submitReport env (tick w) (data y) = Submitted r ->
  outcomeIs w (processOne env y t w)
    (Ok (mkTally (S (successCount t)) (failureCount t) (cycleErrors t)))
    (storeDelete (id y) (offlineQueue w))
    (Emit (ItemSynced (id y)) :: CallSubmit (id y) :: log w).
Proof.
  intros Hlt Hty Hsub. apply Z.leb_gt in Hlt.
  unfold outcomeIs, processOne, processQueueItem, db_removeFromQueue.
  rewrite Hlt, Hty. run. rewrite Hsub. run. repeat split.
Qed.

Lemma db_updateQueueItem_healthy (k : string) (rc : Z) (m : string)
  (z : Item) (w : World) :
  storeGet k (offlineQueue w) = Some z ->
  outcomeIs w (db_updateQueueItem env k rc (Some m) w) (Ok tt)
    (map (overwrite (afterFailure z rc m)) (offlineQueue w)) (log w).
Proof.
  intros Hg. unfold outcomeIs, db_updateQueueItem. run. rewrite Hg.
  cbn [fst snd offlineQueue log isProcessing onLine setQueue setTick].
  repeat split.
  pose proof (storeGet_Some _ _ _ _ Hg) as [_ Hid].
  assert (Heq :
    (if truthy (Some m)
     then mkItem (id z) (type z) (data z) (timestamp z) rc (Some m)
     else mkItem (id z) (type z) (data z) (timestamp z) rc (lastError z))
    = afterFailure z rc m).
  { unfold afterFailure. now destruct (truthy (Some m)). }
  cbn [id type data timestamp retryCount lastError]. rewrite Heq.
  apply (storePut_present _ _ z). cbn. now rewrite Hid.
Qed.

(** An item below the limit whose submission is rejected: the failure is
    recorded on the stored record and the loop goes on. *)
Lemma processOne_rejected (y z : Item) (t : Tally) (w : World) (e : JsError) :
  retryCount y < MAX_RETRIES -> type y = CREATE_REPORT ->
  submitReport env (tick w) (data y) = Rejected e ->
  storeGet (id y) (offlineQueue w) = Some z ->
  let message := messageOr "Unknown error" e in
  outcomeIs w (processOne env y t w)
    (Ok (mkTally (successCount t) (S (failureCount t))
           (cycleErrors t ++ [(id y ++ ": " ++ message)%string])))
    (map (overwrite (afterFailure z (retryCount y + 1) message))
         (offlineQueue w))
    (Emit (ItemFailed (id y) message) :: CallSubmit (id y) :: log w).
Proof.
  intros Hlt Hty Hsub Hg message. apply Z.leb_gt in Hlt.
  unfold processOne, processQueueItem. rewrite Hlt, Hty.
  unfold emit; unfold tryCatch, bind, modify, ask, throw, ret.
  cbn [fst snd tick record setTick]. rewrite Hsub.
  match goal with
  | |- context [db_updateQueueItem env ?k ?rc (Some ?m) ?w1] =>
      pose proof (db_updateQueueItem_healthy k rc m z w1 Hg) as Hu;
      destruct (db_updateQueueItem env k rc (Some m) w1) as [[[]|e'] w2]
  end; destruct Hu as (Hr & Hq & Hl & Hp & Ho); cbn in *; try discriminate.
  unfold outcomeIs. cbn. repeat split; assumption.
Qed.

(** An item of a type the manager does not support: nothing is submitted,
    the failure is recorded. *)
Lemma processOne_unsupported (y z : Item) (t : Tally) (w : World) :
  retryCount y < MAX_RETRIES -> type y = UPDATE_REPORT ->
  storeGet (id y) (offlineQueue w) = Some z ->
  let message := "Unsupported queue item type: UPDATE_REPORT"%string in
  outcomeIs w (processOne env y t w)
    (Ok (mkTally (successCount t) (S (failureCount t))
           (cycleErrors t ++ [(id y ++ ": " ++ message)%string])))
    (map (overwrite (afterFailure z (retryCount y + 1) message))
         (offlineQueue w))
    (Emit (ItemFailed (id y) message) :: log w).
Proof.
  intros Hlt Hty Hg message. apply Z.leb_gt in Hlt.
  unfold processOne, processQueueItem. rewrite Hlt, Hty.
  unfold emit; unfold tryCatch, bind, modify, ask, throw, ret.
  cbn [fst snd tick record setTick typeName].
  match goal with
  | |- context [db_updateQueueItem env ?k ?rc (Some ?m) ?w1] =>
      pose proof (db_updateQueueItem_healthy k rc m z w1 Hg) as Hu;
      destruct (db_updateQueueItem env k rc (Some m) w1) as [[[]|e'] w2]
  end; destruct Hu as (Hr & Hq & Hl & Hp & Ho); cbn in *; try discriminate.
  unfold outcomeIs. cbn. repeat split; assumption.
Qed.

(** Below the retry limit, with its record in the store, an item never
    makes the loop body throw. *)
Lemma processOne_ok (y z : Item) (t : Tally) (w : World) :
  retryCount y < MAX_RETRIES ->
  storeGet (id y) (offlineQueue w) = Some z ->
  exists t', fst (processOne env y t w) = Ok t'.
Proof.
  intros Hlt Hg. destruct (type y) eqn:Hty.
  - destruct (submitReport env (tick w) (data y)) as [r|e] eqn:Hsub.
    + eexists. apply (processOne_synced y t w r Hlt Hty Hsub).
    + eexists. apply (processOne_rejected y z t w e Hlt Hty Hsub Hg).
  - eexists. apply (processOne_unsupported y z t w Hlt Hty Hg).
Qed.

Lemma processItems_app (l1 l2 : list Item) (t : Tally) (w : World) :
  processItems env (l1 ++ l2) t w
  = match processItems env l1 t w with
    | (Ok t', w') => processItems env l2 t' w'
    | (Err e, w') => (Err e, w')
    end.
Proof.
  revert t w. induction l1 as [|y l1 IH]; intros t w; simpl; [reflexivity|].
  unfold bind. destruct (processOne env y t w) as [[t1|e] w1]; [apply IH | reflexivity].
Qed.

Lemma processItems_ok (l : list Item) (t : Tally) (w : World) :
  NoDup (keys l) ->
  (forall y, In y l -> retryCount y < MAX_RETRIES /\
                       exists z, storeGet (id y) (offlineQueue w) = Some z) ->
  exists t', fst (processItems env l t w) = Ok t'.
Proof.
  revert t w. induction l as [|y l IH]; intros t w Hnd Hall; simpl.
  - now exists t.
  - inversion Hnd as [|? ? Hny Hnd']; subst.
    destruct (Hall y (or_introl eq_refl)) as [Hlt [z Hz]].
    destruct (processOne_ok y z t w Hlt Hz) as [t1 Ht1].
    pose proof (respects_processOne _ env y t w) as (_ & _ & Hev & _).
    unfold bind. destruct (processOne env y t w) as [[t1'|e] w1];
      simpl in Ht1, Hev; [|discriminate].
    apply IH; [assumption|]. intros y' Hy'.
    destruct (Hall y' (or_intror Hy')) as [Hlt' [z' Hz']].
    split; [assumption|]. exists z'.
    rewrite (storeEvolves_frame _ _ _ _ (id y') Hev); [assumption|].
    intros Heq. apply Hny. rewrite Heq. now apply in_map.
Qed.

(** [processQueue] past its guard, on a store that answers. *)
Lemma processQueue_healthy (w : World) :
  isProcessing w = false -> onLine w = true ->
  let w1 := setTick (S (tick w))
              (record (Emit SyncStarted) (setProcessing true w)) in
  processQueue env w
  = match sortBy (@timestampOf _) (offlineQueue w) with
    | [] => (Ok tt, setProcessing false (setProcessing false w1))
    | items =>
        match processItems env items (mkTally 0 0 []) w1 with
        | (Ok t, w2) => (Ok tt, setProcessing false (snd (finishCycle env t w2)))
        | (Err e, w2) => (Ok tt, setProcessing false (snd (cycleFailed e w2)))
        end
    end.
Proof.
  intros Hp Ho. unfold processQueue, db_getQueueItems. run.
  rewrite Hp, Ho. cbn [orb negb]. run.
  destruct (sortBy (@timestampOf _) (offlineQueue w)) as [|y items];
    [reflexivity|].
  match goal with
  | |- context [processItems env ?l ?t ?w1] =>
      destruct (processItems env l t w1) as [[t'|e] w2]
  end.
  - pose proof (finishCycle_ok _ env t' w2) as Hf.
    destruct (finishCycle env t' w2) as [[[]|e] w3]; simpl in Hf;
      [reflexivity | discriminate].
  - reflexivity.
Qed.

End Healthy.

(** ** The queue manager: one cycle *)

Section QueueCycles.
Variable ReportFormData : Type.
Variable env : Env ReportFormData.
Local Abbreviation Item := (OfflineQueueItem ReportFormData).
Local Abbreviation World := (World ReportFormData).

(** The records of the sorted view are the records of the store. *)
Lemma view_present (q : list Item) (l1 l2 : list Item) (y : Item) :
  NoDup (keys q) -> sortBy (@timestampOf _) q = l1 ++ l2 -> In y (l1 ++ l2) ->
  storeGet (id y) q = Some y.
Proof.
  intros Hnd Hs Hy. apply storeGet_In; [assumption|].
  rewrite <- Hs in Hy. now apply sortBy_In in Hy.
Qed.

Lemma view_NoDup (q : list Item) (l : list Item) :
  NoDup (keys q) -> sortBy (@timestampOf _) q = l -> NoDup (keys l).
Proof. intros Hnd <-. now apply NoDup_keys_sortBy. Qed.

Lemma allowed_calls (L : string -> Prop) (new : list Effect) (i : string) :
  Forall (allowed L) new -> In i (callsOf new) -> L i.
Proof.
  unfold callsOf. intros Hall Hin. apply in_flat_map in Hin.
  destruct Hin as [e [He Hi]]. rewrite Forall_forall in Hall.
  specialize (Hall e He). destruct e as [ev|j]; simpl in Hi; [contradiction|].
  destruct Hi as [<-|[]]. exact Hall.
Qed.

(** A cycle that finds the queue non-empty. *)
Lemma processQueue_items (w : World) (items : list Item) :
  healthy env -> isProcessing w = false -> onLine w = true ->
  sortBy (@timestampOf _) (offlineQueue w) = items -> items <> [] ->
  processQueue env w
  = match processItems env items (mkTally 0 0 [])
            (setTick (S (tick w))
               (record (Emit SyncStarted) (setProcessing true w))) with
    | (Ok t, w2) => (Ok tt, setProcessing false (snd (finishCycle env t w2)))
    | (Err e, w2) => (Ok tt, setProcessing false (snd (cycleFailed e w2)))
    end.
Proof.
  intros Hh Hp Ho Hs Hne. rewrite (processQueue_healthy _ env Hh w Hp Ho), Hs.
  destruct items; [contradiction | reflexivity].
Qed.

(** C10. When a cycle reaches an item at the retry limit, the item is
    removed; the follow-up [updateQueueItem] on the removed id rejects with
    "Queue item <id> not found", the rejection leaves the loop, the cycle
    emits [sync-failed] with that message, and no later item of the queue is
    attempted or changed in this cycle. *)
Theorem drop_aborts_the_cycle (w : World) (pre post : list Item) (x : Item) :
  healthy env -> isProcessing w = false -> onLine w = true ->
  NoDup (keys (offlineQueue w)) ->
  sortBy (@timestampOf _) (offlineQueue w) = pre ++ x :: post ->
  (forall y, In y pre -> retryCount y < MAX_RETRIES) ->
  MAX_RETRIES <= retryCount x ->
  let w' := snd (processQueue env w) in
  exists new,
    fst (processQueue env w) = Ok tt /\
    log w' = Emit (SyncFailedError
                     ("Queue item " ++ id x ++ " not found")%string)
             :: Emit (ItemFailed (id x) "Max retries exceeded")
             :: new ++ Emit SyncStarted :: log w /\
    storeGet (id x) (offlineQueue w') = None /\
    (forall y, In y post ->
       storeGet (id y) (offlineQueue w') = Some y /\
       ~ In (id y) (callsOf new)) /\
    isProcessing w' = false.
Proof.
  intros Hh Hp Ho Hnd Hs Hpre Hmax w'. subst w'.
  rewrite (processQueue_items w _ Hh Hp Ho Hs) by (destruct pre; discriminate).
  pose proof (view_NoDup _ _ Hnd Hs) as Hndv.
  unfold keys in Hndv. rewrite map_app in Hndv. simpl in Hndv.
  pose proof (NoDup_remove_1 _ _ _ Hndv) as Hnd1.
  pose proof (NoDup_remove_2 _ _ _ Hndv) as Hnx.
  apply NoDup_app_remove_r in Hndv.
  rewrite processItems_app.
  set (w1 := setTick _ _).
  assert (Hq1 : offlineQueue w1 = offlineQueue w) by reflexivity.
  destruct (processItems_ok _ env Hh pre (mkTally 0 0 []) w1 Hndv) as [t1 Ht1].
  { intros y Hy. split; [now apply Hpre|]. exists y. rewrite Hq1.
    eapply view_present; eauto. apply in_or_app. now left. }
  pose proof (respects_processItems _ env pre (mkTally 0 0 []) w1)
    as (Hp2 & Ho2 & Hev & new & Hl2 & Hall).
  destruct (processItems env pre (mkTally 0 0 []) w1) as [[t1'|e] w2];
    simpl in Ht1, Hp2, Ho2, Hev, Hl2; [|discriminate].
  simpl processItems. unfold bind.
  pose proof (processOne_drop _ env Hh x t1' w2 Hmax) as (Hr & Hq3 & Hl3 & _).
  destruct (processOne env x t1' w2) as [r w3]; simpl in Hr, Hq3, Hl3.
  subst r. exists new.
  unfold cycleFailed, emit, modify.
  cbn [fst snd log offlineQueue isProcessing setProcessing record messageOr].
  split; [reflexivity|]. split; [now rewrite Hl3, Hl2|].
  split; [rewrite Hq3; apply storeGet_delete_same|].
  split; [|reflexivity]. intros y Hy. split.
  - rewrite Hq3. rewrite storeGet_delete_other.
    + rewrite (storeEvolves_frame _ _ _ _ (id y) Hev).
      * rewrite ?Hq1. eapply view_present; eauto.
        apply in_or_app. right. now right.
      * intros Hin.
        apply (NoDup_app_disjoint _ _ (id y) Hnd1 Hin). now apply in_map.
    + intros Heq. apply Hnx. apply in_or_app. right.
      rewrite <- Heq. now apply in_map.
  - intros Hin. apply (allowed_calls _ _ _ Hall) in Hin.
    apply (NoDup_app_disjoint _ _ (id y) Hnd1 Hin). now apply in_map.
Qed.

(** *** Submission order *)

Lemma callsOf_app (l1 l2 : list Effect) :
  callsOf (l1 ++ l2) = callsOf l1 ++ callsOf l2.
Proof. apply flat_map_app. Qed.

Lemma callsOf_quiet (new : list Effect) :
  Forall (allowed (fun _ => False)) new -> callsOf new = [].
Proof.
  induction 1 as [|e new He Hall IH]; [reflexivity|].
  destruct e as [ev|i]; simpl in *; [assumption | contradiction].
Qed.

Lemma submissions_quiet (K : string -> Prop) (w w' : World) :
  touched K (fun _ => False) w w' -> submissions (log w') = submissions (log w).
Proof.
  intros (_ & _ & _ & new & Hl & Hall). unfold submissions.
  fold (callsOf (log w')). fold (callsOf (log w)).
  now rewrite Hl, callsOf_app, (callsOf_quiet _ Hall).
Qed.

Lemma deleteAll_In (l q : list Item) (x : Item) :
  In x (deleteAll l q) -> In x q /\ ~ In (id x) (keys l).
Proof.
  unfold deleteAll. revert q. induction l as [|y l IH]; simpl; intros q Hin.
  - tauto.
  - apply IH in Hin. destruct Hin as [Hin Hnot].
    unfold storeDelete in Hin. apply filter_In in Hin.
    destruct Hin as [Hin Hne]. split; [assumption|].
    intros [Heq|Hk]; [|contradiction].
    rewrite Heq, String.eqb_refl in Hne. discriminate.
Qed.

(** A loop in which every submission succeeds. *)
Lemma processItems_all_synced (l : list Item) (t : Tally) (w : World) :
  healthy env ->
  (forall n d, exists r, submitReport env n d = Submitted r) ->
  (forall y, In y l -> retryCount y < MAX_RETRIES /\ type y = CREATE_REPORT) ->
  exists t' w',
    processItems env l t w = (Ok t', w') /\
    submissions (log w') = submissions (log w) ++ keys l /\
    offlineQueue w' = deleteAll l (offlineQueue w) /\
    cycleErrors t' = cycleErrors t.
Proof.
  intros Hh Hsub. revert t w. induction l as [|y l IH]; intros t w Hall; simpl.
  - exists t, w. rewrite app_nil_r. repeat split.
  - destruct (Hall y (or_introl eq_refl)) as [Hlt Hty].
    destruct (Hsub (tick w) (data y)) as [r Hr].
    pose proof (processOne_synced _ env Hh y t w r Hlt Hty Hr)
      as (Hres & Hq & Hl & _).
    unfold bind. destruct (processOne env y t w) as [res w1];
      simpl in Hres, Hq, Hl. subst res.
    destruct (IH (mkTally (S (successCount t)) (failureCount t) (cycleErrors t))
                 w1) as (t' & w' & Hrun & Hsubm & Hstore & Herr).
    { intros y' Hy'. apply Hall. now right. }
    exists t', w'. split; [exact Hrun|].
    split; [|split; [now rewrite Hstore, Hq | exact Herr]].
    rewrite Hsubm, Hl. unfold submissions. simpl.
    now rewrite <- app_assoc.
Qed.

(** *** The oldest item of the queue, always rejected *)

Lemma attemptsOf_quiet (K : string -> Prop) (k : string) (w w' : World) :
  touched K (fun i => i <> k) w w' -> attemptsOf k (log w') = attemptsOf k (log w).
Proof.
  intros (_ & _ & _ & new & Hl & Hall). unfold attemptsOf.
  rewrite Hl, callsOf_app, count_occ_app.
  rewrite (proj1 (count_occ_not_In string_dec (callsOf new) k)); [reflexivity|].
  intros Hin. now apply (allowed_calls _ _ _ Hall) in Hin.
Qed.

(** A cycle that finds the always-rejected item at the head of the queue,
    below the retry limit: one more attempt, one more on [retryCount], and
    the item is still the oldest. *)
Lemma cycle_retries_oldest (k : string) (payload : ReportFormData)
  (base n : nat) (w : World) :
  healthy env ->
  (forall t, exists e, submitReport env t payload = Rejected e) ->
  (n < 3)%nat -> oldestAfter k payload base n w ->
  oldestAfter k payload base (S n) (snd (processQueue env w)) /\
  (List.length (offlineQueue (snd (processQueue env w)))
   <= List.length (offlineQueue w))%nat.
Proof.
  intros Hh Hrej Hn (Hp & Ho & Hnd & Hatt & x & rest & Hs & Hid & Hty & Hd & Hrc).
  rewrite (processQueue_items w (x :: rest) Hh Hp Ho Hs) by discriminate.
  set (w1 := setTick _ _). simpl processItems. unfold bind.
  destruct (Hrej (tick w1) ) as [e He]. rewrite <- Hd in He.
  assert (Hgx : storeGet (id x) (offlineQueue w1) = Some x).
  { apply (view_present (offlineQueue w) [] (x :: rest)); auto. now left. }
  assert (Hlt : retryCount x < MAX_RETRIES)
    by (rewrite Hrc; unfold MAX_RETRIES; lia).
  pose proof (processOne_rejected _ env Hh x x (mkTally 0 0 []) w1 e
                Hlt Hty He Hgx) as (Hr & Hq & Hl & Hp2 & Ho2).
  destruct (processOne env x (mkTally 0 0 []) w1) as [r w2];
    simpl in Hr, Hq, Hl, Hp2, Ho2. subst r.
  set (x' := afterFailure x (retryCount x + 1) (messageOr "Unknown error" e))
    in *.
  pose proof (view_NoDup _ _ Hnd Hs) as Hndv.
  inversion Hndv as [|? ? Hnx Hndr]; subst.
  (* the rest of the loop *)
  match goal with
  | |- context [processItems env rest ?t w2] =>
      pose proof (respects_processItems _ env rest t w2) as Hrest;
      destruct (processItems env rest t w2) as [r3 w3]
  end.
  simpl in Hrest.
  assert (Hrest' : touched (fun i => In i (keys rest)) (fun i => i <> id x)
                     w2 w3).
  { eapply touched_mono; [| |exact Hrest]; [auto|].
    intros i Hi Heq. apply Hnx. now rewrite <- Heq. }
  clear Hrest.
  (* the end of the cycle *)
  assert (Hfinal : exists w4,
            touched (fun i => In i (keys rest)) (fun i => i <> id x) w3 w4 /\
            snd (match r3 with
                 | Ok t => (Ok tt, setProcessing false (snd (finishCycle env t w3)))
                 | Err e0 => (Ok tt, setProcessing false (snd (cycleFailed e0 w3)))
                 end) = setProcessing false w4).
  { destruct r3 as [t|e0].
    - exists (snd (finishCycle env t w3)). split; [|reflexivity].
      eapply touched_mono; [| |apply (respects_finishCycle _ env
                                        (fun _ => False) (fun _ => False))];
        simpl; intros; contradiction.
    - exists (snd (cycleFailed e0 w3)). split; [|reflexivity].
      eapply touched_mono; [| |apply (respects_cycleFailed _
                                        (fun _ => False) (fun _ => False))];
        simpl; intros; contradiction. }
  destruct Hfinal as (w4 & Hfin & Heq).
  replace (snd (let (r, w') := (r3, w3) in
                match r with
                | Ok t => (Ok tt, setProcessing false (snd (finishCycle env t w'))) 
                | Err e0 => (Ok tt, setProcessing false (snd (cycleFailed e0 w')))
                end))
    with (setProcessing false w4) by (symmetry; exact Heq).
  pose proof (touched_trans _ _ _ _ _ _ Hrest' Hfin) as Hall.
  pose proof (attemptsOf_quiet _ _ _ _ Hall) as Hatt4.
  destruct Hall as (Hp4 & Ho4 & Hev & _).
  assert (Hq1 : offlineQueue w1 = offlineQueue w) by reflexivity.
  assert (Hnd2 : NoDup (keys (offlineQueue w2))).
  { rewrite Hq, overwrite_keys. exact Hnd. }
  assert (Hs2 : sortBy (@timestampOf _) (offlineQueue w2)
                = x' :: map (overwrite x') rest).
  { rewrite Hq. rewrite (sortBy_overwrite _ x' x); auto.
    rewrite Hs. simpl. unfold overwrite at 1.
    change (id x') with (id x). now rewrite String.eqb_refl. }
  destruct (storeEvolves_head _ _ _ _ x' _ Hev Hnd2 Hnx Hs2) as [rest' Hs4].
  split.
  - repeat split; simpl.
    + congruence.
    + eapply storeEvolves_NoDup; eauto.
    + rewrite Hatt4, Hl. unfold attemptsOf in *. simpl.
      destruct (string_dec (id x) (id x)) as [_|Hne]; [|contradiction].
      change (log w1) with (Emit SyncStarted :: log w). simpl.
      rewrite Hatt. lia.
    + exists x', rest'. repeat split; auto. simpl. rewrite Hrc. lia.
  - simpl. etransitivity; [eapply storeEvolves_length; exact Hev|].
    rewrite Hq, length_map. reflexivity.
Qed.

(** A cycle that finds the item at the head of the queue with
    [retryCount = 3]: no attempt, the item leaves the store, and the queue is
    one item shorter. *)
Lemma cycle_drops_oldest (k : string) (payload : ReportFormData)
  (base : nat) (w : World) :
  healthy env -> oldestAfter k payload base 3 w ->
  let w' := snd (processQueue env w) in
  storeGet k (offlineQueue w') = None /\
  attemptsOf k (log w') = (base + 3)%nat /\
  S (List.length (offlineQueue w')) = List.length (offlineQueue w).
Proof.
  intros Hh (Hp & Ho & Hnd & Hatt & x & rest & Hs & Hid & Hty & Hd & Hrc) w'.
  subst w'. rewrite (processQueue_items w (x :: rest) Hh Hp Ho Hs) by discriminate.
  set (w1 := setTick _ _). simpl processItems. unfold bind.
  assert (Hmax : MAX_RETRIES <= retryCount x)
    by (rewrite Hrc; unfold MAX_RETRIES; lia).
  pose proof (processOne_drop _ env Hh x (mkTally 0 0 []) w1 Hmax)
    as (Hr & Hq & Hl & _).
  destruct (processOne env x (mkTally 0 0 []) w1) as [r w2];
    simpl in Hr, Hq, Hl. subst r.
  unfold cycleFailed, emit, modify.
  cbn [fst snd log offlineQueue setProcessing record].
  rewrite Hq, Hl. change (offlineQueue w1) with (offlineQueue w).
  change (log w1) with (Emit SyncStarted :: log w).
  rewrite <- Hid. repeat split.
  - apply storeGet_delete_same.
  - rewrite Hid. exact Hatt.
  - apply storeDelete_length; [assumption|].
    apply (proj1 (sortBy_In _ (@timestampOf _) _ x)). rewrite Hs. now left.
Qed.

Lemma retries_of_oldest (k : string) (payload : ReportFormData)
  (base n j : nat) (w : World) :
  healthy env ->
  (forall t, exists e, submitReport env t payload = Rejected e) ->
  (n + j <= 3)%nat -> oldestAfter k payload base n w ->
  oldestAfter k payload base (n + j) (repeatCycles env j w).
Proof.
  intros Hh Hrej. revert n w. induction j as [|j IH]; intros n w Hle Hinv.
  - now rewrite Nat.add_0_r.
  - simpl repeatCycles. replace (n + S j)%nat with (S n + j)%nat by lia.
    apply IH; [lia|].
    apply (cycle_retries_oldest k payload base n w Hh Hrej); [lia | assumption].
Qed.

(** X29. What does hold of retry-and-drop: the oldest item of the queue, when
    every submission of it is rejected, is attempted in each of the next
    three cycles, with [retryCount] following, and is removed by the fourth
    cycle without a further attempt, which shortens the queue by one. *)
Lemma oldest_item_retried_then_dropped (w : World) (x : Item)
  (rest : list Item) :
  healthy env -> isProcessing w = false -> onLine w = true ->
  NoDup (keys (offlineQueue w)) ->
  sortBy (@timestampOf _) (offlineQueue w) = x :: rest ->
  type x = CREATE_REPORT -> retryCount x = 0 ->
  (forall t, exists e, submitReport env t (data x) = Rejected e) ->
  let attempts n := attemptsOf (id x) (log (repeatCycles env n w)) in
  let queue n := offlineQueue (repeatCycles env n w) in
  (forall n, (n <= 3)%nat ->
     attempts n = (attempts O + n)%nat /\
     exists x', storeGet (id x) (queue n) = Some x' /\
                retryCount x' = Z.of_nat n) /\
  storeGet (id x) (queue 4%nat) = None /\
  attempts 4%nat = (attempts O + 3)%nat /\
  S (List.length (queue 4%nat)) = List.length (queue 3%nat).
Proof.
  intros Hh Hp Ho Hnd Hs Hty Hrc Hrej attempts queue.
  assert (H0 : oldestAfter (id x) (data x) (attempts O) 0 w).
  { repeat split; auto. exists x, rest. repeat split; auto. }
  split.
  - intros n Hn.
    pose proof (retries_of_oldest _ _ _ 0 n w Hh Hrej Hn H0)
      as (_ & _ & Hnd' & Hatt & x' & rest' & Hs' & Hid & _ & _ & Hrc').
    split; [exact Hatt|]. exists x'. split; [|exact Hrc'].
    rewrite <- Hid. apply (view_present _ [] (x' :: rest')); auto. now left.
  - pose proof (retries_of_oldest _ _ _ 0 3 w Hh Hrej (le_n 3) H0) as H3.
    pose proof (cycle_drops_oldest _ _ _ _ Hh H3) as Hdrop.
    unfold attempts, queue.
    replace (repeatCycles env 4 w)
      with (snd (processQueue env (repeatCycles env 3 w))); [exact Hdrop|].
    reflexivity.
Qed.

(** *** Enqueueing *)

(** C6. [addToQueue] on a queue that already holds [MAX_QUEUE_SIZE] = 100
    items rejects with the queue-full error and leaves the queue and the log
    as they were; below capacity it stores a new item with [retryCount = 0]
    and the enqueue timestamp, returns the item's id and emits
    [queue-updated]. (The store answers; the generated id is not yet a key.) *)
Theorem addToQueue_capacity (d : ReportFormData) (w : World) :
  healthy env ->
  let n := List.length (offlineQueue w) in
  let newId := ("queue_" ++ decimal (dateNow env (S (tick w))) ++ "_"
                ++ randomSuffix env (S (S (tick w))))%string in
  let item :=
    mkItem newId CREATE_REPORT d (dateNow env (S (S (S (tick w))))) 0 None in
  let w' := snd (addToQueue env d w) in
  ((MAX_QUEUE_SIZE <= n)%nat ->
     fst (addToQueue env d w) = Err (ErrorObj "Queue is full (max 100 items)") /\
     offlineQueue w' = offlineQueue w /\ log w' = log w) /\
  ((n < MAX_QUEUE_SIZE)%nat -> storeGet newId (offlineQueue w) = None ->
     fst (addToQueue env d w) = Ok newId /\
     offlineQueue w' = storeInsert item (offlineQueue w) /\
     Permutation (offlineQueue w') (item :: offlineQueue w) /\
     log w' = Emit (QueueUpdatedAdded newId (n + 1)) :: log w).
Proof.
  intros Hh n newId item w'. subst w'. split.
  - intros Hfull. unfold addToQueue, db_getQueueItems. run_with Hh.
    rewrite sortBy_length. fold n.
    apply Nat.leb_le in Hfull. rewrite Hfull. cbn. repeat split.
  - intros Hroom Hfresh. unfold addToQueue, db_getQueueItems, db_addToQueue.
    run_with Hh. rewrite sortBy_length. fold n.
    apply Nat.leb_gt in Hroom. rewrite Hroom. run_with Hh.
    cbn [id Nat.add]. fold newId. rewrite Hfresh.
    cbn [fst snd tick offlineQueue setTick setQueue]. fold item.
    match goal with
    | |- context [updateSyncStatus env ?w1] =>
        destruct (updateSyncStatus_healthy _ env Hh w1)
          as (w2 & Heq & Hq & Hl & Hp & Ho & Ht); rewrite Heq
    end.
    cbn [log offlineQueue setQueue setTick] in Hq, Hl.
    unfold scheduleProcessing, modify, ret.
    destruct (onLine w2);
      cbn [fst snd log offlineQueue record setTimer]; rewrite Hq, Hl;
      (split; [reflexivity|]; split; [reflexivity|];
       split; [apply storeInsert_perm | reflexivity]).
Qed.

(** *** Retrying *)

(** [updateQueueItem(item.id, item.retryCount, undefined)] writes the
    record back as it is. *)
Lemma db_updateQueueItem_undefined (y : Item) (w : World) :
  healthy env -> NoDup (keys (offlineQueue w)) -> In y (offlineQueue w) ->
  db_updateQueueItem env (id y) (retryCount y) None w
  = (Ok tt, setQueue (offlineQueue w) (setTick (S (tick w)) w)).
Proof.
  intros Hh Hnd Hy. unfold db_updateQueueItem. run_with Hh.
  rewrite (storeGet_In _ _ y Hnd Hy).
  cbn [truthy id type data timestamp lastError].
  replace (mkItem (id y) (type y) (data y) (timestamp y) (retryCount y)
                  (lastError y)) with y by now destruct y.
  rewrite (storePut_present _ y y) by now apply storeGet_In.
  now rewrite (overwrite_self _ y _ Hnd Hy).
Qed.

Lemma resetErrors_keeps_store (l : list Item) (w : World) :
  healthy env -> NoDup (keys (offlineQueue w)) ->
  (forall y, In y l -> In y (offlineQueue w)) ->
  fst (resetErrors env l w) = Ok tt /\
  offlineQueue (snd (resetErrors env l w)) = offlineQueue w /\
  log (snd (resetErrors env l w)) = log w.
Proof.
  intros Hh. revert w. induction l as [|y l IH]; intros w Hnd Hin; simpl.
  - repeat split.
  - assert (Hy : In y (offlineQueue w)) by (apply Hin; now left).
    unfold bind. rewrite (db_updateQueueItem_undefined y w Hh Hnd Hy).
    apply (IH (setQueue (offlineQueue w) (setTick (S (tick w)) w))).
    + exact Hnd.
    + intros y' Hy'. apply Hin. now right.
Qed.

Lemma tryCatch_rethrow {A} (m : Monad.M World A) (w : World) :
  tryCatch m (fun error => throw error) w = m w.
Proof. unfold tryCatch, throw. now destruct (m w) as [[a|e] w']. Qed.

(** C7. The reset of [retryFailedItems] passes [undefined] as the new
    error, which [updateQueueItem] ignores: [processQueue] is then called on
    a queue in which every failed item is stored exactly as before,
    [last_error] included. *)
Theorem retry_reset_keeps_last_error (w : World) :
  healthy env -> NoDup (keys (offlineQueue w)) ->
  let failedItems :=
    filter (@isFailedItem _) (sortBy (@timestampOf _) (offlineQueue w)) in
  failedItems <> [] ->
  exists afterReset,
    retryFailedItems env w = processQueue env afterReset /\
    offlineQueue afterReset = offlineQueue w /\
    log afterReset = log w /\
    (forall y, In y failedItems ->
       storeGet (id y) (offlineQueue afterReset) = Some y /\
       truthy (lastError y) = true /\ retryCount y < MAX_RETRIES).
Proof.
  intros Hh Hnd failedItems Hne.
  assert (Hsub : forall y, In y failedItems -> In y (offlineQueue w)).
  { intros y Hy. apply filter_In in Hy. destruct Hy as [Hy _].
    exact (proj1 (sortBy_In _ _ _ y) Hy). }
  set (w1 := setTick (S (tick w)) w).
  destruct (resetErrors_keeps_store failedItems w1 Hh Hnd Hsub)
    as (Hr & Hq & Hl).
  exists (snd (resetErrors env failedItems w1)).
  split; [|split; [exact Hq | split; [exact Hl|]]].
  - unfold retryFailedItems. rewrite tryCatch_rethrow.
    unfold bind at 1. rewrite (db_getQueueItems_healthy _ env Hh w).
    fold failedItems. fold w1.
    destruct failedItems as [|y l] eqn:E; [contradiction|].
    unfold bind. destruct (resetErrors env (y :: l) w1) as [[[]|e] w2];
      simpl in Hr; [reflexivity | discriminate].
  - intros y Hy. rewrite Hq. split.
    + apply storeGet_In; auto.
    + apply filter_In in Hy. destruct Hy as [_ Hf]. unfold isFailedItem in Hf.
      apply andb_true_iff in Hf. destruct Hf as [Ht Hlt].
      split; [assumption | now apply Z.ltb_lt].
Qed.

(** *** Status *)

Lemma getQueueStatus_healthy (w : World) :
  healthy env ->
  fst (getQueueStatus env w)
  = Ok (mkQueueStatus (List.length (offlineQueue w)) (isProcessing w)
          (option_map ss_timestamp (syncStatus w))
          (statusErrors (sortBy (@timestampOf _) (offlineQueue w)))).
Proof.
  intros Hh. unfold getQueueStatus, db_getQueueItems, db_getSyncStatus.
  run_with Hh. now rewrite sortBy_length.
Qed.

Lemma statusErrors_bounded (q : list Item) : (List.length (statusErrors q) <= 5)%nat.
Proof. unfold statusErrors. apply firstn_le_length. Qed.

(** *** Errors *)



End QueueCycles.

(** ** The queue manager on concrete queues *)

Module Runs.
Import Scenario.

Ltac distinct_keys :=
  repeat (constructor; [simpl; intuition discriminate|]); constructor.

Lemma rejecting_healthy : healthy rejecting.
Proof. intros n. reflexivity. Defined.

Lemma accepting_healthy : healthy accepting.
Proof. intros n. reflexivity. Defined.

(** C10 on the queue [exhausted; pothole]: [exhausted] is dropped,
    [pothole] is neither submitted nor changed. *)
Lemma drop_aborts_the_cycle_run :
  exists new,
    fst (processQueue rejecting (idle [exhausted; pothole])) = Ok tt /\
    log (snd (processQueue rejecting (idle [exhausted; pothole])))
      = Emit (SyncFailedError "Queue item queue_1_a not found")
        :: Emit (ItemFailed "queue_1_a" "Max retries exceeded")
        :: new ++ Emit SyncStarted :: [] /\
    storeGet "queue_1_a"
      (offlineQueue (snd (processQueue rejecting (idle [exhausted; pothole]))))
      = None /\
    (forall y, In y [pothole] ->
       storeGet (id y)
         (offlineQueue (snd (processQueue rejecting (idle [exhausted; pothole]))))
         = Some y /\
       ~ In (id y) (callsOf new)) /\
    isProcessing (snd (processQueue rejecting (idle [exhausted; pothole])))
      = false.
Proof.
  apply (drop_aborts_the_cycle Payload rejecting (idle [exhausted; pothole])
           [] [pothole] exhausted rejecting_healthy).
  - reflexivity.
  - reflexivity.
  - simpl. distinct_keys.
  - reflexivity.
  - intros y [].
  - vm_compute. discriminate.
Defined.

(** C6 on the empty queue and on a queue of 100 items. *)
Lemma addToQueue_capacity_run :
  (fst (addToQueue accepting "Leak" (idle [])) = Ok "queue_1001_k2" /\
   offlineQueue (snd (addToQueue accepting "Leak" (idle [])))
     = [fresh "queue_1001_k2" "Leak" 1003] /\
   Permutation (offlineQueue (snd (addToQueue accepting "Leak" (idle []))))
     [fresh "queue_1001_k2" "Leak" 1003] /\
   log (snd (addToQueue accepting "Leak" (idle [])))
     = [Emit (QueueUpdatedAdded "queue_1001_k2" 1)]) /\
  (fst (addToQueue accepting "Leak" (idle (backlog 100)))
     = Err (ErrorObj "Queue is full (max 100 items)") /\
   offlineQueue (snd (addToQueue accepting "Leak" (idle (backlog 100))))
     = backlog 100 /\
   log (snd (addToQueue accepting "Leak" (idle (backlog 100)))) = []).
Proof.
  split.
  - apply (proj2 (addToQueue_capacity Payload accepting "Leak" (idle [])
                    accepting_healthy)).
    + simpl. unfold MAX_QUEUE_SIZE. lia.
    + reflexivity.
  - apply (proj1 (addToQueue_capacity Payload accepting "Leak"
                    (idle (backlog 100)) accepting_healthy)).
    vm_compute. lia.
Defined.

(** C7 on the queue [failedOnce]: [processQueue] is called on a queue in
    which the item still carries "Network error". *)
Lemma retry_reset_keeps_last_error_run :
  exists afterReset,
    retryFailedItems rejecting (idle [failedOnce])
      = processQueue rejecting afterReset /\
    offlineQueue afterReset = [failedOnce] /\
    log afterReset = [] /\
    (forall y, In y [failedOnce] ->
       storeGet (id y) (offlineQueue afterReset) = Some y /\
       truthy (lastError y) = true /\ retryCount y < MAX_RETRIES).
Proof.
  apply (retry_reset_keeps_last_error Payload rejecting (idle [failedOnce])
           rejecting_healthy).
  - simpl. distinct_keys.
  - vm_compute. discriminate.
Defined.



(** What the observer sees when [leak] is removed while its submission is
    pending and the API then rejects it: the failure is announced but not
    recorded, the cycle ends with [sync-failed], and [pothole] is not
    submitted in this cycle. *)
Example removed_during_submission :
  rev (log (world (runMachine rejecting
                     [Fire TimerTick; Resume 0; Resume 0;
                      Remove Payload "queue_1_a"; Resume 0; Resume 0]
                     (mkMachine (idle [leak; pothole]) []))))
  = [Emit SyncStarted;
     CallSubmit "queue_1_a";
     Emit (QueueUpdatedRemoved "queue_1_a" 1);
     Emit (ItemFailed "queue_1_a" "rejected Leak");
     Emit (SyncFailedError "Queue item queue_1_a not found")] /\
  cycles (runMachine rejecting
            [Fire TimerTick; Resume 0; Resume 0;
             Remove Payload "queue_1_a"; Resume 0; Resume 0]
            (mkMachine (idle [leak; pothole]) [])) = [] /\
  offlineQueue (world (runMachine rejecting
                         [Fire TimerTick; Resume 0; Resume 0;
                          Remove Payload "queue_1_a"; Resume 0; Resume 0]
                         (mkMachine (idle [leak; pothole]) [])))
  = [pothole].
Proof. vm_compute. repeat split. Qed.

(** C2 at two reports that are always rejected. After three cycles each
    has been submitted three times and has [retryCount = 3]. The fourth
    cycle drops [leak] and stops: [pothole] stays queued although its
    [retryCount] is 3; only the fifth cycle removes it. *)
Theorem second_failing_item_outlives_its_retries :
  let start := idle [leak; pothole] in
  submissions (log (repeatCycles rejecting 3 start))
    = ["queue_1_a"; "queue_2_b"; "queue_1_a"; "queue_2_b";
       "queue_1_a"; "queue_2_b"] /\
  map (@retryCount _) (offlineQueue (repeatCycles rejecting 3 start)) = [3; 3] /\
  offlineQueue (repeatCycles rejecting 4 start)
    = [mkItem "queue_2_b" CREATE_REPORT "Pothole" 2 3
              (Some "rejected Pothole")] /\
  submissions (log (repeatCycles rejecting 4 start))
    = submissions (log (repeatCycles rejecting 3 start)) /\
  offlineQueue (repeatCycles rejecting 5 start) = [] /\
  submissions (log (repeatCycles rejecting 5 start))
    = submissions (log (repeatCycles rejecting 3 start)).
Proof. vm_compute. repeat split. Qed.

(** C9 at six reports that were all rejected in one cycle: the status
    counts them and reports the cycle as over, but its [errors] are those of
    the five oldest items; the error recorded last, of the newest item, is
    left out. *)
Theorem status_errors_are_the_oldest :
  let w := snd (processQueue rejecting (idle six)) in
  fst (getQueueStatus rejecting w)
    = Ok (mkQueueStatus 6 false (Some 1014)
            ["rejected r1"; "rejected r2"; "rejected r3"; "rejected r4";
             "rejected r5"]) /\
  hd_error (filter (fun e => match e with Emit (ItemFailed _ _) => true
                                        | _ => false end) (log w))
    = Some (Emit (ItemFailed "queue_6" "rejected r6")) /\
  map (@lastError _) (offlineQueue w)
    = [Some "rejected r1"; Some "rejected r2"; Some "rejected r3";
       Some "rejected r4"; Some "rejected r5"; Some "rejected r6"].
Proof. vm_compute. repeat split. Qed.

End Runs.

(** ** Overlapping triggers *)

Section Exclusion.
Variable ReportFormData : Type.
Variable env : Env ReportFormData.
Local Abbreviation Item := (OfflineQueueItem ReportFormData).
Local Abbreviation World := (World ReportFormData).
Local Abbreviation Machine := (Machine ReportFormData).
Local Abbreviation Action := (Action ReportFormData).

Lemma cyclesOf_nonempty (l : list Effect) : cyclesOf l <> [].
Proof.
  induction l as [|e l IH]; simpl; [discriminate|].
  destruct e as [[]|i]; try assumption; try discriminate.
  destruct (cyclesOf l); discriminate.
Qed.

(** Effects that neither start a cycle nor submit leave the cycles alone. *)
Lemma cyclesOf_quiet (new l : list Effect) :
  Forall (allowed (fun _ => False)) new -> cyclesOf (new ++ l) = cyclesOf l.
Proof.
  induction 1 as [|e new He Hall IH]; [reflexivity|].
  destruct e as [[]|i]; simpl in *; try assumption; contradiction.
Qed.

Lemma touched_quiet_cycles (K : string -> Prop) (w w' : World) :
  touched K (fun _ => False) w w' -> cyclesOf (log w') = cyclesOf (log w).
Proof.
  intros (_ & _ & _ & new & Hl & Hall). rewrite Hl. now apply cyclesOf_quiet.
Qed.

(** [getQueueItems] either fails or returns the sorted view. *)
Lemma db_getQueueItems_result (w : World) (items : list Item) (w' : World) :
  db_getQueueItems env w = (Ok items, w') ->
  items = sortBy (@timestampOf _) (offlineQueue w).
Proof.
  unfold db_getQueueItems, withDB, bind, ask, gets, throw.
  destruct (dbFault env (tick w)); simpl; intros Heq; inversion Heq.
  reflexivity.
Qed.

Lemma exclusive_start (w0 : World) :
  isProcessing w0 = false -> NoDup (keys (offlineQueue w0)) ->
  Forall (@NoDup string) (cyclesOf (log w0)) ->
  exclusive (mkMachine w0 []).
Proof. intros; repeat split; assumption. Qed.

(** A call to [processQueue] while a cycle is suspended returns at once. *)
Lemma fire_while_running (m : Machine) (source : Trigger) :
  exclusive m -> cycles m <> [] -> machineStep env (Fire source) m = m.
Proof.
  intros (_ & _ & Hc) Hne. destruct m as [w cs]. simpl in *.
  destruct cs as [|c [|c' cs]]; [contradiction| |contradiction].
  destruct Hc as [Hp _]. unfold enterCycle. now rewrite Hp.
Qed.

Lemma exclusive_fire (m : Machine) (source : Trigger) :
  exclusive m -> exclusive (machineStep env (Fire source) m).
Proof.
  intros Hex. destruct (cycles m) as [|c cs] eqn:Hcs.
  - destruct Hex as (Hnd & Hlog & Hc). rewrite Hcs in Hc.
    simpl. unfold enterCycle. rewrite Hc. simpl orb.
    destruct (onLine (world m)); simpl.
    + rewrite Hcs. repeat split; simpl; auto.
      constructor; [constructor | assumption].
    + rewrite Hcs. repeat split; simpl; auto.
  - rewrite fire_while_running; [assumption.. | now rewrite Hcs].
Qed.

Lemma exclusive_network (m : Machine) (up : bool) :
  exclusive m -> exclusive (machineStep env (Network up) m).
Proof. intros (Hnd & Hlog & Hc). split; [|split]; assumption. Qed.

(** After the [catch] and the [finally] no cycle is left. *)
Lemma exclusive_abort (w : World) (e : JsError) :
  NoDup (keys (offlineQueue w)) -> Forall (@NoDup string) (cyclesOf (log w)) ->
  exclusive (mkMachine (abortCycle e w) []).
Proof. intros Hnd Hlog. repeat split; assumption. Qed.

(** Submitting an item that this cycle has not attempted yet. *)
Lemma cyclesOf_submit (l : list Effect) (k : string) (rest : list string) :
  Forall (@NoDup string) (cyclesOf l) ->
  (forall i, In i (hd [] (cyclesOf l)) -> ~ In i (k :: rest)) ->
  ~ In k rest ->
  Forall (@NoDup string) (cyclesOf (CallSubmit k :: l)) /\
  forall i, In i (hd [] (cyclesOf (CallSubmit k :: l))) -> ~ In i rest.
Proof.
  intros Hlog Hfresh Hk. simpl.
  pose proof (cyclesOf_nonempty l) as Hne.
  destruct (cyclesOf l) as [|c cs]; [contradiction|].
  simpl in Hfresh. inversion Hlog; subst. split.
  - constructor; [|assumption]. constructor; [|assumption].
    intros Hin. apply (Hfresh _ Hin). now left.
  - simpl. intros i [<-|Hin]; [assumption|].
    intros Hir. apply (Hfresh _ Hin). now right.
Qed.

(** *** The other operations of the manager *)

Lemma calm_refl (w : World) : calm w w.
Proof. repeat split; auto. Qed.

Lemma calm_trans (w1 w2 w3 : World) : calm w1 w2 -> calm w2 w3 -> calm w1 w3.
Proof.
  intros (Hp & Hn & Hc) (Hp' & Hn' & Hc'). repeat split; [congruence | auto |].
  congruence.
Qed.

Lemma touched_calm (K : string -> Prop) (w w' : World) :
  touched K (fun _ => False) w w' -> calm w w'.
Proof.
  intros Ht. pose proof (touched_quiet_cycles _ _ _ Ht) as Hcy.
  destruct Ht as (Hp & _ & Hev & _). repeat split; auto.
  now apply (storeEvolves_NoDup _ _ _ _ Hev).
Qed.

Lemma calmly_respects {A} (K : string -> Prop) (m : Monad.M World A) :
  respects K (fun _ => False) m -> calmly m.
Proof. intros Hm w. eapply touched_calm. apply Hm. Qed.

Lemma calmly_bind {A B} (m : Monad.M World A) (k : A -> Monad.M World B) :
  calmly m -> (forall a, calmly (k a)) -> calmly (bind m k).
Proof.
  intros Hm Hk w. unfold bind. specialize (Hm w).
  destruct (m w) as [[a|e] w']; simpl in *; [|assumption].
  eapply calm_trans; [exact Hm | apply Hk].
Qed.

Lemma calmly_tryCatch {A} (m : Monad.M World A)
  (h : JsError -> Monad.M World A) :
  calmly m -> (forall e, calmly (h e)) -> calmly (tryCatch m h).
Proof.
  intros Hm Hh w. unfold tryCatch. specialize (Hm w).
  destruct (m w) as [[a|e] w']; simpl in *; [assumption|].
  eapply calm_trans; [exact Hm | apply Hh].
Qed.

Lemma calmly_rethrow {A} (e : JsError) : calmly (throw (W:=World) (A:=A) e).
Proof. intros w. apply calm_refl. Qed.

Lemma calmly_db_addToQueue (ty : QueueItemType) (d : ReportFormData) :
  calmly (db_addToQueue env ty d).
Proof.
  unfold db_addToQueue, DateNow, MathRandom.
  apply calmly_bind;
    [apply (calmly_respects (fun _ => False)), respects_ask|]. intros t1.
  apply calmly_bind;
    [apply (calmly_respects (fun _ => False)), respects_ask|]. intros r.
  apply calmly_bind;
    [apply (calmly_respects (fun _ => False)), respects_ask|]. intros t2.
  unfold withDB. apply calmly_bind;
    [apply (calmly_respects (fun _ => False)), respects_ask|].
  intros [m|]; [apply calmly_rethrow|]. intros w. cbv beta.
  destruct (storeGet _ (offlineQueue w)) eqn:Hg; simpl; [apply calm_refl|].
  repeat split; simpl. intros Hnd. now apply storeInsert_NoDup.
Qed.

Lemma calmly_addToQueue (d : ReportFormData) : calmly (addToQueue env d).
Proof.
  unfold addToQueue. apply calmly_tryCatch; [|intros e; apply calmly_rethrow].
  apply calmly_bind;
    [apply (calmly_respects (fun _ => False)), respects_db_getQueueItems|].
  intros items. destruct (MAX_QUEUE_SIZE <=? List.length items)%nat;
    [apply calmly_rethrow|].
  apply calmly_bind; [apply calmly_db_addToQueue|]. intros queueId.
  apply calmly_bind;
    [apply (calmly_respects (fun _ => False)), respects_updateSyncStatus|].
  intros _. apply calmly_bind;
    [apply (calmly_respects (fun _ => False)), respects_emit; discriminate|].
  intros _. apply calmly_bind;
    [apply (calmly_respects (fun _ => False)), respects_gets|].
  intros online. apply calmly_bind.
  - destruct online; intros w; [|apply calm_refl]. repeat split; auto.
  - intros _ w. apply calm_refl.
Qed.

Lemma calmly_getQueueStatus : calmly (getQueueStatus env).
Proof.
  apply (calmly_respects (fun _ => False)). unfold getQueueStatus.
  apply respects_tryCatch; [|intros e; apply respects_ret].
  apply respects_bind; [apply respects_db_getQueueItems|]. intros items.
  apply respects_bind; [apply respects_db_getSyncStatus|]. intros status.
  apply respects_bind; [apply respects_gets|]. intros busy.
  apply respects_ret.
Qed.

Lemma calmly_removeFromQueue (k : string) : calmly (removeFromQueue env k).
Proof.
  unfold removeFromQueue.
  apply calmly_tryCatch; [|intros e; apply calmly_rethrow].
  apply calmly_bind;
    [apply (calmly_respects (eq k)), respects_db_removeFromQueue; reflexivity|].
  intros _. apply calmly_bind;
    [apply (calmly_respects (fun _ => False)), respects_updateSyncStatus|].
  intros _. apply calmly_bind; [apply calmly_getQueueStatus|]. intros status.
  apply (calmly_respects (fun _ => False)), respects_emit. discriminate.
Qed.

Lemma calmly_clearQueue : calmly (clearQueue env).
Proof.
  unfold clearQueue.
  apply calmly_tryCatch; [|intros e; apply calmly_rethrow].
  apply calmly_bind.
  - unfold db_clearQueue, withDB. apply calmly_bind;
      [apply (calmly_respects (fun _ => False)), respects_ask|].
    intros [m|]; [apply calmly_rethrow|]. intros w.
    repeat split; simpl. intros _. constructor.
  - intros _. apply calmly_bind;
      [apply (calmly_respects (fun _ => False)), respects_updateSyncStatus|].
    intros _. apply (calmly_respects (fun _ => False)), respects_emit.
    discriminate.
Qed.

(** An operation that is calm leaves the invariant as it is. *)
Lemma exclusive_calm (m : Machine) (w' : World) :
  exclusive m -> calm (world m) w' -> exclusive (mkMachine w' (cycles m)).
Proof.
  intros (Hnd & Hlog & Hc) (Hp & Hn & Hcy). split; [|split]; simpl.
  - auto.
  - now rewrite Hcy.
  - destruct (cycles m) as [|c [|c' cs]]; [congruence | | assumption].
    destruct Hc as [Hp' Hfit]. split; [congruence|].
    destruct c; unfold cycleFits, currentAttempts in *; now rewrite Hcy.
Qed.

Lemma exclusive_resume (m : Machine) (index : nat) :
  exclusive m -> exclusive (machineStep env (Resume index) m).
Proof.
  intros Hex. pose proof Hex as (Hnd & Hlog & Hc).
  destruct m as [w cs]. simpl in *.
  destruct cs as [|c [|c' cs]]; [now destruct index | | contradiction].
  destruct index as [|index]; [|now destruct index].
  destruct Hc as [Hp Hfit]. simpl nth_error. cbv iota.
  destruct c as [|[|y rest] t|y rest t]; simpl resumeCycle.
  - pose proof (respects_db_getQueueItems _ env (fun _ => False)
                  (fun _ => False) w) as Ht.
    pose proof (db_getQueueItems_result w) as Hres.
    destruct (db_getQueueItems env w) as [[items|e] w1]; simpl in Ht.
    + pose proof (touched_quiet_cycles _ _ _ Ht) as Hcy.
      destruct Ht as (Hp1 & _ & Hev & _).
      pose proof (storeEvolves_NoDup _ _ _ _ Hev Hnd) as Hnd1.
      specialize (Hres items w1 eq_refl).
      destruct items as [|y items].
      * repeat split; simpl; auto. now rewrite Hcy.
      * repeat split; simpl; try (now rewrite ?Hcy); try congruence.
        -- change (NoDup (keys (y :: items))). rewrite Hres.
           now apply NoDup_keys_sortBy.
        -- unfold cycleFits, currentAttempts in *. rewrite Hcy, Hfit.
           intros i [].
    + pose proof (touched_quiet_cycles _ _ _ Ht) as Hcy.
      destruct Ht as (_ & _ & Hev & _).
      apply exclusive_abort; [eapply storeEvolves_NoDup; eauto|].
      now rewrite Hcy.
  - pose proof (respects_finishCycle _ env (fun _ => False) (fun _ => False)
                  t w) as Ht.
    pose proof (touched_quiet_cycles _ _ _ Ht) as Hcy.
    destruct Ht as (_ & _ & Hev & _).
    pose proof (storeEvolves_NoDup _ _ _ _ Hev Hnd) as Hnd1.
    destruct (finishCycle env t w) as [[[]|e] w1]; simpl in *.
    + repeat split; simpl; auto. now rewrite Hcy.
    + apply exclusive_abort; [assumption | now rewrite Hcy].
  - destruct Hfit as [Hndr Hfresh]. unfold currentAttempts in Hfresh.
    inversion Hndr as [|? ? Hny Hndr']; subst.
    destruct (willSubmit y) eqn:Hsub.
    + destruct (cyclesOf_submit (log w) (id y) (keys rest) Hlog Hfresh Hny)
        as [Hlog' Hfresh'].
      repeat split; simpl; auto.
    + pose proof (processOne_touched _ env y t w) as Ht. rewrite Hsub in Ht.
      pose proof (touched_quiet_cycles _ _ _ Ht) as Hcy.
      destruct Ht as (Hp1 & _ & Hev & _).
      pose proof (storeEvolves_NoDup _ _ _ _ Hev Hnd) as Hnd1.
      destruct (processOne env y t w) as [[t'|e] w1]; simpl in *.
      * repeat split; simpl; auto; try congruence.
        unfold currentAttempts. rewrite Hcy. intros i Hin Hir.
        apply (Hfresh _ Hin). now right.
      * apply exclusive_abort; [assumption | now rewrite Hcy].
  - destruct Hfit as [Hndr Hfresh]. unfold currentAttempts in Hfresh.
    pose proof (respects_completeSubmission _ env y t w) as Ht.
    pose proof (touched_quiet_cycles _ _ _ Ht) as Hcy.
    destruct Ht as (Hp1 & _ & Hev & _).
    pose proof (storeEvolves_NoDup _ _ _ _ Hev Hnd) as Hnd1.
    destruct (completeSubmission env y t w) as [[t'|e] w1]; simpl in *.
    + repeat split; simpl; auto; try congruence.
      unfold currentAttempts. now rewrite Hcy.
    + apply exclusive_abort; [assumption | now rewrite Hcy].
Qed.

Lemma exclusive_step (m : Machine) (a : Action) :
  exclusive m -> exclusive (machineStep env a m).
Proof.
  destruct a as [source|index|up|reportData|queueId| |].
  - apply exclusive_fire.
  - apply exclusive_resume.
  - apply exclusive_network.
  - intros Hex. apply exclusive_calm; [assumption | apply calmly_addToQueue].
  - intros Hex. apply exclusive_calm;
      [assumption | apply calmly_removeFromQueue].
  - intros Hex. apply exclusive_calm; [assumption | apply calmly_clearQueue].
  - intros Hex. apply exclusive_calm;
      [assumption | apply calmly_getQueueStatus].
Qed.

Lemma exclusive_run (actions : list Action) (m : Machine) :
  exclusive m -> exclusive (runMachine env actions m).
Proof.
  unfold runMachine. revert m.
  induction actions as [|a actions IH]; intros m Hex; simpl; [assumption|].
  apply IH. now apply exclusive_step.
Qed.

(** C1. Whatever the order in which triggers fire, suspended cycles
    resume, the network changes and the other operations of the manager run:
    at most one [processQueue] cycle is in flight; a call to [processQueue]
    made while one is in flight changes nothing (no submission, no event, no
    second cycle); and no cycle submits an item twice. *)
Theorem one_cycle_at_a_time (w0 : World) (actions : list Action) :
  isProcessing w0 = false -> NoDup (keys (offlineQueue w0)) ->
  Forall (@NoDup string) (cyclesOf (log w0)) ->
  let m := runMachine env actions (mkMachine w0 []) in
  (List.length (cycles m) <= 1)%nat /\
  (cycles m <> [] ->
     isProcessing (world m) = true /\
     forall source, machineStep env (Fire source) m = m) /\
  Forall (@NoDup string) (cyclesOf (log (world m))).
Proof.
  intros Hp Hnd Hlog m.
  assert (Hex : exclusive m)
    by (apply exclusive_run, exclusive_start; assumption).
  pose proof Hex as (_ & Hlog' & Hc).
  split; [|split; [|exact Hlog']].
  - destruct (cycles m) as [|c [|c' cs]]; simpl; [lia | lia | contradiction].
  - intros Hne. split.
    + destruct (cycles m) as [|c [|c' cs]]; [contradiction | tauto | contradiction].
    + intros source. now apply fire_while_running.
Qed.

(** *** The suspended cycle is [processQueue] *)

Lemma drive_loop (items : list Item) (t : Tally) (w : World) (fuel : nat) :
  (2 * List.length items < fuel)%nat ->
  drive env fuel (Some (InLoop items t)) w
  = match processItems env items t w with
    | (Ok t', w') =>
        match finishCycle env t' w' with
        | (Ok _, w'') => setProcessing false w''
        | (Err e, w'') => abortCycle e w''
        end
    | (Err e, w') => abortCycle e w'
    end.
Proof.
  revert t w fuel. induction items as [|y rest IH]; intros t w fuel Hfuel.
  - destruct fuel as [|fuel]; [simpl in Hfuel; lia|].
    simpl. unfold ret.
    destruct (finishCycle env t w) as [[[]|e] w1]; now destruct fuel.
  - destruct fuel as [|[|fuel]]; [simpl in Hfuel; lia..|].
    simpl List.length in Hfuel.
    simpl processItems. unfold bind.
    change (drive env (S (S fuel)) (Some (InLoop (y :: rest) t)) w)
      with (let (c, w') := resumeCycle env (InLoop (y :: rest) t) w in
            drive env (S fuel) c w').
    simpl resumeCycle. destruct (willSubmit y) eqn:Hsub.
    + rewrite (processOne_submits _ env y t w Hsub).
      change (drive env (S fuel) (Some (AwaitResponse y rest t))
                (record (CallSubmit (id y)) w))
        with (let (c, w') := resumeCycle env (AwaitResponse y rest t)
                               (record (CallSubmit (id y)) w) in
              drive env fuel c w').
      simpl resumeCycle.
      destruct (completeSubmission env y t (record (CallSubmit (id y)) w))
        as [[t'|e] w1]; [apply IH; lia | now destruct fuel].
    + destruct (processOne env y t w) as [[t'|e] w1];
        [apply IH; lia | reflexivity].
Qed.

(** Entering a cycle and resuming it until it returns is one call of
    [processQueue]. *)
Lemma processQueue_by_resumptions (w : World) :
  exists fuel,
    snd (processQueue env w)
    = drive env fuel (fst (enterCycle w)) (snd (enterCycle w)).
Proof.
  unfold processQueue, enterCycle, isOnline. unfold bind at 1 2. unfold gets.
  destruct (isProcessing w || negb (onLine w)); [exists O; reflexivity|].
  unfold tryFinally, tryCatch, emit. unfold bind at 1 2. unfold modify.
  cbn [fst snd]. unfold bind at 1.
  set (w1 := record (Emit SyncStarted) (setProcessing true w)).
  destruct (db_getQueueItems env w1) as [[items|e] w2] eqn:Hget.
  - exists (S (S (2 * List.length items))).
    change (drive env (S (S (2 * List.length items))) (Some AwaitItems) w1)
      with (let (c, w') := resumeCycle env AwaitItems w1 in
            drive env (S (2 * List.length items)) c w').
    simpl resumeCycle. rewrite Hget.
    destruct items as [|y items]; [reflexivity|].
    rewrite drive_loop by lia. unfold bind.
    destruct (processItems env (y :: items) (mkTally 0 0 []) w2)
      as [[t'|e] w3]; [|reflexivity].
    pose proof (finishCycle_ok _ env t' w3) as Hf.
    destruct (finishCycle env t' w3) as [[[]|e] w4]; simpl in Hf;
      [reflexivity | discriminate].
  - exists 1%nat. simpl. rewrite Hget. reflexivity.
Qed.

End Exclusion.

(** ** One submission at a time *)

Lemma bystanders_keep (new l : list Effect) :
  Forall bystander new ->
  unanswered (new ++ l) = unanswered l /\
  sequential (new ++ l) = sequential l.
Proof.
  induction 1 as [|e new He Hall [IHu IHs]]; [split; reflexivity|].
  destruct e as [[]|i]; simpl in *; try contradiction; auto.
Qed.

(** A piece of log without a call, after a log without unanswered call. *)
Lemma no_call_keeps (new l : list Effect) :
  Forall (allowed (fun _ => False)) new -> unanswered l = None ->
  unanswered (new ++ l) = None /\ sequential (new ++ l) = sequential l.
Proof.
  intros Hall Hl.
  induction Hall as [|e new He Hall [IHu IHs]]; [split; [assumption|reflexivity]|].
  destruct e as [[]|i]; simpl in *; try contradiction; auto;
    rewrite IHu; auto.
Qed.

Section OneAtATime.
Variable ReportFormData : Type.
Variable env : Env ReportFormData.
Local Abbreviation Item := (OfflineQueueItem ReportFormData).
Local Abbreviation World := (World ReportFormData).
Local Abbreviation Machine := (Machine ReportFormData).
Local Abbreviation Action := (Action ReportFormData).

Lemma aside_ret {A} (a : A) : aside (ret (W:=World) a).
Proof. intros w. split; [reflexivity|]. exists []. auto. Qed.

Lemma aside_throw {A} e : aside (throw (W:=World) (A:=A) e).
Proof. intros w. split; [reflexivity|]. exists []. auto. Qed.

Lemma aside_gets {A} (f : World -> A) : aside (gets f).
Proof. intros w. split; [reflexivity|]. exists []. auto. Qed.

Lemma aside_ask {A} (oracle : nat -> A) :
  aside (ask oracle : Monad.M World A).
Proof. intros w. split; [reflexivity|]. exists []. auto. Qed.

Lemma aside_modify (f : World -> World) :
  (forall w, isProcessing (f w) = isProcessing w /\ log (f w) = log w) ->
  aside (modify f).
Proof.
  intros Hf w. destruct (Hf w) as [Hp Hl]. split; [exact Hp|].
  exists []. split; [exact Hl | constructor].
Qed.

Lemma aside_bind {A B} (m : Monad.M World A) (k : A -> Monad.M World B) :
  aside m -> (forall a, aside (k a)) -> aside (bind m k).
Proof.
  intros Hm Hk w. unfold bind. destruct (Hm w) as (Hp & new & Hl & Hall).
  destruct (m w) as [[a|e] w1]; cbn [snd] in *.
  - destruct (Hk a w1) as (Hp' & new' & Hl' & Hall').
    split; [congruence|]. exists (new' ++ new). split.
    + now rewrite Hl', Hl, app_assoc.
    + apply Forall_app. auto.
  - split; [exact Hp|]. now exists new.
Qed.

Lemma aside_tryCatch {A} (m : Monad.M World A)
  (h : JsError -> Monad.M World A) :
  aside m -> (forall e, aside (h e)) -> aside (tryCatch m h).
Proof.
  intros Hm Hh w. unfold tryCatch. destruct (Hm w) as (Hp & new & Hl & Hall).
  destruct (m w) as [[a|e] w1]; cbn [snd] in *.
  - split; [exact Hp|]. now exists new.
  - destruct (Hh e w1) as (Hp' & new' & Hl' & Hall').
    split; [congruence|]. exists (new' ++ new). split.
    + now rewrite Hl', Hl, app_assoc.
    + apply Forall_app. auto.
Qed.

Lemma aside_withDB {A} (op : Monad.M World A) :
  aside op -> aside (withDB env op).
Proof.
  intros Hop. unfold withDB. apply aside_bind; [apply aside_ask|].
  intros [m|]; [apply aside_throw | exact Hop].
Qed.

Lemma aside_emit (e : QueueEvent) :
  bystander (Emit e) -> aside (emit e : Monad.M World unit).
Proof.
  intros He w. split; [reflexivity|]. exists [Emit e]. split; [reflexivity|].
  now constructor.
Qed.

Lemma aside_db_getQueueItems : aside (db_getQueueItems env).
Proof. apply aside_withDB, aside_gets. Qed.

Lemma aside_updateSyncStatus : aside (updateSyncStatus env).
Proof.
  unfold updateSyncStatus.
  apply aside_tryCatch; [|intros _; apply aside_ret].
  apply aside_bind; [apply aside_db_getQueueItems|]. intros items.
  apply aside_bind; [apply aside_ask|]. intros now.
  apply aside_withDB, aside_modify. intros w. split; reflexivity.
Qed.

Lemma aside_getQueueStatus : aside (getQueueStatus env).
Proof.
  unfold getQueueStatus.
  apply aside_tryCatch; [|intros _; apply aside_ret].
  apply aside_bind; [apply aside_db_getQueueItems|]. intros items.
  apply aside_bind; [apply aside_withDB, aside_gets|]. intros status.
  apply aside_bind; [apply aside_gets|]. intros busy. apply aside_ret.
Qed.

Lemma aside_addToQueue (d : ReportFormData) : aside (addToQueue env d).
Proof.
  unfold addToQueue. apply aside_tryCatch; [|intros e; apply aside_throw].
  apply aside_bind; [apply aside_db_getQueueItems|]. intros items.
  destruct (MAX_QUEUE_SIZE <=? List.length items)%nat; [apply aside_throw|].
  apply aside_bind.
  { unfold db_addToQueue, DateNow, MathRandom.
    apply aside_bind; [apply aside_ask|]. intros t1.
    apply aside_bind; [apply aside_ask|]. intros r.
    apply aside_bind; [apply aside_ask|]. intros t2.
    apply aside_withDB. intros w. cbv beta.
    destruct (storeGet _ (offlineQueue w)); cbn [snd];
      (split; [reflexivity|]); exists []; split; auto. }
  intros queueId. apply aside_bind; [apply aside_updateSyncStatus|].
  intros _. apply aside_bind; [apply aside_emit; exact I|].
  intros _. apply aside_bind; [apply aside_gets|]. intros online.
  apply aside_bind; [|intros _; apply aside_ret].
  destruct online; [|apply aside_ret].
  apply aside_modify. intros w. split; reflexivity.
Qed.

Lemma aside_removeFromQueue (k : string) : aside (removeFromQueue env k).
Proof.
  unfold removeFromQueue.
  apply aside_tryCatch; [|intros e; apply aside_throw].
  apply aside_bind.
  { apply aside_withDB, aside_modify. intros w. split; reflexivity. }
  intros _. apply aside_bind; [apply aside_updateSyncStatus|].
  intros _. apply aside_bind; [apply aside_getQueueStatus|]. intros status.
  apply aside_emit. exact I.
Qed.

Lemma aside_clearQueue : aside (clearQueue env).
Proof.
  unfold clearQueue. apply aside_tryCatch; [|intros e; apply aside_throw].
  apply aside_bind.
  { apply aside_withDB, aside_modify. intros w. split; reflexivity. }
  intros _. apply aside_bind; [apply aside_updateSyncStatus|].
  intros _. apply aside_emit. exact I.
Qed.

(** The response of the API, once handled, answers the call: the next
    effect is [item-synced] or [item-failed] for that item. *)
Lemma completeSubmission_answers (y : Item) (t : Tally) (w : World) :
  isProcessing (snd (completeSubmission env y t w)) = isProcessing w /\
  (log (snd (completeSubmission env y t w)) = Emit (ItemSynced (id y)) :: log w
   \/ exists m,
        log (snd (completeSubmission env y t w))
        = Emit (ItemFailed (id y) m) :: log w).
Proof.
  unfold completeSubmission, db_removeFromQueue, db_updateQueueItem, withDB.
  unfold emit, tryCatch, bind, ask, throw, ret, modify.
  cbn [fst snd tick setTick].
  destruct (submitReport env (tick w) (data y)) as [r|e];
    cbn [fst snd tick setTick record log isProcessing].
  - destruct (dbFault env (S (tick w)));
      cbn [fst snd tick setTick record log isProcessing setQueue].
    + destruct (dbFault env (S (S (tick w))));
        cbn [fst snd tick setTick record log isProcessing offlineQueue];
        [split; [reflexivity | right; eexists; reflexivity]|].
      destruct (storeGet (id y) (offlineQueue w));
        cbn [fst snd tick setTick record log isProcessing setQueue];
        split; try reflexivity; right; eexists; reflexivity.
    + split; [reflexivity | now left].
  - destruct (dbFault env (S (tick w)));
      cbn [fst snd tick setTick record log isProcessing offlineQueue];
      [split; [reflexivity | right; eexists; reflexivity]|].
    destruct (storeGet (id y) (offlineQueue w));
      cbn [fst snd tick setTick record log isProcessing setQueue];
      split; try reflexivity; right; eexists; reflexivity.
Qed.

Lemma orderly_abort (w : World) (e : JsError) :
  sequential (log w) = true -> unanswered (log w) = None ->
  orderly (mkMachine (abortCycle e w) []).
Proof. intros Hs Hu. repeat split; assumption. Qed.

Lemma orderly_aside {A} (op : Monad.M World A) (m : Machine) :
  aside op -> orderly m -> orderly (mkMachine (snd (op (world m))) (cycles m)).
Proof.
  intros Hop (Hs & Hc). destruct (Hop (world m)) as (Hp & new & Hl & Hall).
  destruct (bystanders_keep new (log (world m)) Hall) as [Hu' Hs'].
  unfold orderly. cbn [world cycles]. rewrite Hl, Hu', Hs', Hp.
  split; assumption.
Qed.

Lemma orderly_step (m : Machine) (a : Action) :
  orderly m -> orderly (machineStep env a m).
Proof.
  intros Hm. pose proof Hm as (Hs & Hc).
  destruct a as [source|index|up|reportData|queueId| |].
  - (* a trigger *)
    destruct m as [w cs]. cbn [world cycles] in *. simpl machineStep.
    unfold enterCycle.
    destruct cs as [|c [|c' cs]]; [| |contradiction].
    + destruct Hc as [Hp Hu]. rewrite Hp. cbn [orb].
      destruct (onLine w); cbn [negb]; [|repeat split; assumption].
      repeat split; assumption.
    + destruct Hc as [Hp Hu]. rewrite Hp. cbn [orb]. exact Hm.
  - (* a resumption *)
    destruct m as [w cs]. cbn [world cycles] in *. simpl machineStep.
    destruct cs as [|c [|c' cs]]; [now destruct index | | contradiction].
    destruct index as [|index]; [|now destruct index].
    destruct Hc as [Hp Hu]. simpl nth_error. cbv iota.
    destruct c as [|[|y rest] t|y rest t]; simpl resumeCycle;
      cbn [awaited] in Hu.
    + pose proof (respects_db_getQueueItems _ env (fun _ => False)
                    (fun _ => False) w) as (Hp1 & _ & _ & new & Hl & Hall).
      destruct (no_call_keeps new (log w) Hall Hu) as [Hu1 Hs1].
      destruct (db_getQueueItems env w) as [[[|y items]|e] w1];
        cbn [snd] in *.
      * repeat split; cbn; rewrite Hl; congruence.
      * repeat split; cbn; rewrite ?Hl; congruence.
      * apply orderly_abort; rewrite Hl; congruence.
    + pose proof (respects_finishCycle _ env (fun _ => False) (fun _ => False)
                    t w) as (Hp1 & _ & _ & new & Hl & Hall).
      destruct (no_call_keeps new (log w) Hall Hu) as [Hu1 Hs1].
      destruct (finishCycle env t w) as [[[]|e] w1]; cbn [snd] in *.
      * repeat split; cbn; rewrite Hl; congruence.
      * apply orderly_abort; rewrite Hl; congruence.
    + destruct (willSubmit y) eqn:Hsub.
      * repeat split; cbn; [now rewrite Hu | assumption].
      * pose proof (processOne_touched _ env y t w) as Ht.
        rewrite Hsub in Ht. destruct Ht as (Hp1 & _ & _ & new & Hl & Hall).
        destruct (no_call_keeps new (log w) Hall Hu) as [Hu1 Hs1].
        destruct (processOne env y t w) as [[t'|e] w1]; cbn [snd] in *.
        -- repeat split; cbn; rewrite ?Hl; congruence.
        -- apply orderly_abort; rewrite Hl; congruence.
    + pose proof (completeSubmission_answers y t w) as [Hp1 Hl].
      assert (Hnext : sequential (log (snd (completeSubmission env y t w)))
                      = true /\
                      unanswered (log (snd (completeSubmission env y t w)))
                      = None).
      { destruct Hl as [Hl|[msg Hl]]; rewrite Hl; cbn;
          rewrite Hu, String.eqb_refl; auto. }
      destruct Hnext as [Hs1 Hu1].
      destruct (completeSubmission env y t w) as [[t'|e] w1]; cbn [snd] in *.
      * repeat split; cbn; congruence.
      * now apply orderly_abort.
  - (* the network *)
    destruct m as [w cs]. exact Hm.
  - apply (orderly_aside (addToQueue env reportData) m);
      [apply aside_addToQueue | exact Hm].
  - apply (orderly_aside (removeFromQueue env queueId) m);
      [apply aside_removeFromQueue | exact Hm].
  - apply (orderly_aside (clearQueue env) m);
      [apply aside_clearQueue | exact Hm].
  - apply (orderly_aside (getQueueStatus env) m);
      [apply aside_getQueueStatus | exact Hm].
Qed.

Lemma orderly_run (actions : list Action) (m : Machine) :
  orderly m -> orderly (runMachine env actions m).
Proof.
  unfold runMachine. revert m.
  induction actions as [|a actions IH]; intros m Hm; simpl; [assumption|].
  apply IH. now apply orderly_step.
Qed.

(** A cycle resumed on its own keeps the log sequential. *)
Lemma orderly_drive (fuel : nat) (c : option (Cycle ReportFormData))
  (w : World) :
  orderly (mkMachine w (match c with Some c' => [c'] | None => [] end)) ->
  sequential (log (drive env fuel c w)) = true.
Proof.
  revert c w. induction fuel as [|fuel IH]; intros c w Hm.
  - destruct c; apply Hm.
  - destruct c as [c|]; [|apply Hm].
    pose proof (orderly_step _ (Resume 0) Hm) as Hnext.
    simpl machineStep in Hnext. simpl drive.
    destruct (resumeCycle env c w) as [c' w1].
    apply IH. destruct c'; exact Hnext.
Qed.

(** The log of a loop in which every submission succeeds: each call is
    followed by the [item-synced] of its item before the next call. *)
Lemma processItems_synced_log (l : list Item) (t : Tally) (w : World) :
  healthy env ->
  (forall n d, exists r, submitReport env n d = Submitted r) ->
  (forall y, In y l -> retryCount y < MAX_RETRIES /\ type y = CREATE_REPORT) ->
  exists t' w',
    processItems env l t w = (Ok t', w') /\
    rev (log w')
    = rev (log w)
      ++ flat_map (fun y => [CallSubmit (id y); Emit (ItemSynced (id y))]) l /\
    successCount t' = (successCount t + List.length l)%nat /\
    cycleErrors t' = cycleErrors t.
Proof.
  intros Hh Hsub. revert t w. induction l as [|y l IH]; intros t w Hall; simpl.
  - exists t, w. rewrite app_nil_r, Nat.add_0_r. repeat split.
  - destruct (Hall y (or_introl eq_refl)) as [Hlt Hty].
    destruct (Hsub (tick w) (data y)) as [r Hr].
    pose proof (processOne_synced _ env Hh y t w r Hlt Hty Hr)
      as (Hres & Hq & Hl & _).
    unfold bind. destruct (processOne env y t w) as [res w1];
      simpl in Hres, Hq, Hl. subst res.
    destruct (IH (mkTally (S (successCount t)) (failureCount t) (cycleErrors t))
                 w1) as (t' & w' & Hrun & Hlog & Hcount & Herr).
    { intros y' Hy'. apply Hall. now right. }
    exists t', w'. split; [exact Hrun|]. split; [|split].
    + rewrite Hlog, Hl. simpl. now rewrite <- !app_assoc.
    + rewrite Hcount. cbn [successCount]. lia.
    + exact Herr.
Qed.

(** C3. Within one cycle the items are submitted one at a time, in the
    order of their enqueue timestamps. When every submission succeeds, the
    sequence of submitted items is the queue arranged by ascending
    [timestamp] (three items enqueued at [t1 < t2 < t3] are submitted in
    that order, whatever their order in the store), and the log of the
    cycle reads: [sync-started], then for each item in that order the call
    to the API followed by its [item-synced], then [sync-completed]: the
    response of one item is handled before the next item is sent. And
    whatever the store and the API do, and however triggers, resumptions
    of the suspended cycle, network changes and the other operations of
    the manager interleave, a call to the API is only made when no earlier
    call is unanswered. *)
Theorem fifo_submission_order (w : World) :
  (isProcessing w = false ->
   sequential (log w) = true -> unanswered (log w) = None ->
   sequential (log (snd (processQueue env w))) = true /\
   forall actions : list Action,
     sequential (log (world (runMachine env actions (mkMachine w [])))) = true) /\
  (healthy env -> isProcessing w = false -> onLine w = true ->
   NoDup (keys (offlineQueue w)) ->
   (forall n d, exists r, submitReport env n d = Submitted r) ->
   (forall y, In y (offlineQueue w) ->
      retryCount y < MAX_RETRIES /\ type y = CREATE_REPORT) ->
   let w' := snd (processQueue env w) in
   (exists items,
      submissions (log w') = submissions (log w) ++ keys items /\
      Permutation items (offlineQueue w) /\
      StronglySorted (fun a b => timestamp a <= timestamp b) items /\
      (items <> [] ->
       rev (log w')
       = rev (log w)
         ++ Emit SyncStarted
            :: flat_map (fun y => [CallSubmit (id y); Emit (ItemSynced (id y))])
                 items
         ++ [Emit (SyncCompleted (List.length items))])) /\
   (forall a b c, Permutation (offlineQueue w) [a; b; c] ->
      timestamp a < timestamp b < timestamp c ->
      submissions (log w') = submissions (log w) ++ [id a; id b; id c]) /\
   offlineQueue w' = []).
Proof.
  split.
  { intros Hp Hs Hu.
    assert (Hstart : orderly (mkMachine w [])) by (repeat split; assumption).
    split;
      [|intros actions;
        exact (proj1 (orderly_run actions (mkMachine w []) Hstart))].
    destruct (processQueue_by_resumptions _ env w) as [fuel Hdrive].
    rewrite Hdrive. apply orderly_drive.
    pose proof (orderly_step (mkMachine w []) (Fire TimerTick) Hstart) as Hfire.
    simpl machineStep in Hfire.
    destruct (enterCycle w) as [[c|] w1]; exact Hfire. }
  intros Hh Hp Ho Hnd Hsub Hall w'.
  set (items := sortBy (@timestampOf _) (offlineQueue w)).
  assert (Hperm : Permutation items (offlineQueue w)) by apply sortBy_perm.
  assert (Hsorted : StronglySorted (fun a b => timestamp a <= timestamp b) items)
    by apply (sortBy_sorted _ (@timestampOf _)).
  assert (Hmain : submissions (log w') = submissions (log w) ++ keys items
                  /\ offlineQueue w' = []
                  /\ (items <> [] ->
                      rev (log w')
                      = rev (log w)
                        ++ Emit SyncStarted
                           :: flat_map (fun y => [CallSubmit (id y);
                                                  Emit (ItemSynced (id y))])
                                items
                        ++ [Emit (SyncCompleted (List.length items))])).
  { subst w'. destruct items as [|y0 l0] eqn:E.
    - rewrite (processQueue_healthy _ env Hh w Hp Ho). fold items. rewrite E.
      simpl. split; [now rewrite app_nil_r|]. split; [|congruence].
      apply Permutation_nil in Hperm. exact Hperm.
    - rewrite (processQueue_items _ env w (y0 :: l0) Hh Hp Ho E) by discriminate.
      set (w1 := setTick _ _).
      destruct (processItems_all_synced _ env (y0 :: l0) (mkTally 0 0 []) w1
                  Hh Hsub)
        as (t' & w2 & Hrun & Hsubm & Hstore & Herr).
      { intros y Hy. apply Hall. eapply Permutation_in; eauto. }
      destruct (processItems_synced_log (y0 :: l0) (mkTally 0 0 []) w1 Hh Hsub)
        as (t'' & w2' & Hrun' & Hlog & Hcount & _).
      { intros y Hy. apply Hall. eapply Permutation_in; eauto. }
      rewrite Hrun in Hrun'. injection Hrun' as <- <-.
      rewrite Hrun.
      pose proof (respects_finishCycle _ env (fun _ => False) (fun _ => False)
                    t' w2) as Hfin.
      cbn [snd log offlineQueue setProcessing].
      rewrite (submissions_quiet _ _ _ _ Hfin), Hsubm.
      split; [reflexivity|]. split.
      + destruct Hfin as (_ & _ & Hev & _).
        assert (Hsame : offlineQueue (snd (finishCycle env t' w2))
                        = offlineQueue w2).
        { destruct (offlineQueue (snd (finishCycle env t' w2))) as [|z q] eqn:Eq.
          - inversion Hev; auto; contradiction.
          - inversion Hev; auto; contradiction. }
        rewrite Hsame, Hstore.
        destruct (deleteAll (y0 :: l0) (offlineQueue w1)) as [|z q] eqn:Ed;
          [reflexivity|].
        assert (Hz : In z (deleteAll (y0 :: l0) (offlineQueue w1)))
          by (rewrite Ed; now left).
        apply deleteAll_In in Hz. destruct Hz as [Hin Hnot].
        exfalso. apply Hnot. apply in_map.
        eapply Permutation_in; [symmetry; exact Hperm | exact Hin].
      + intros _.
        assert (Hend : log (snd (finishCycle env t' w2))
                       = Emit (SyncCompleted (List.length (y0 :: l0))) :: log w2).
        { destruct (updateSyncStatus_healthy _ env Hh w2)
            as (w3 & Hrun3 & _ & Hl3 & _).
          unfold finishCycle, bind. rewrite Hrun3, Herr. cbn [cycleErrors].
          unfold emit, modify. cbn [snd log record]. now rewrite Hl3, Hcount. }
        rewrite Hend. cbn [rev]. rewrite Hlog.
        subst w1. cbn [log setTick record rev].
        rewrite <- !app_assoc. reflexivity. }
  destruct Hmain as (Hsubm & Hempty & Hlog).
  split; [exists items; auto|]. split; [|exact Hempty].
  intros a b c Habc [Hab Hbc]. rewrite Hsubm. f_equal.
  assert (Heq : items = [a; b; c]); [|now rewrite Heq].
  apply (sorted_unique _ (@timestampOf _)).
  - unfold timestampOf. repeat constructor; lia.
  - exact Hsorted.
  - now rewrite Hperm.
Qed.

End OneAtATime.


(** ** The server *)

Section ServerFacts.
Context {num : Type} `{JsNumber num}.
Import Server.

Local Abbreviation Location := (@Server.Location num).
Local Abbreviation Row := (@Server.Row num).

Lemma candidatesOf_filter (current : Location) (radius : num) (rows : list Row) :
  candidatesOf current radius rows
  = map (asDuplicate current) (filter (withinRadius current radius) rows).
Proof.
  unfold candidatesOf, withinRadius, asDuplicate.
  induction rows as [|row rows IH]; simpl; [reflexivity|].
  destruct (nle (haversine current (rowLocation row)) radius); simpl;
    now rewrite IH.
Qed.

(** In any arithmetic: [findPotentialDuplicates] keeps the rows whose
    computed distance is at most the radius (120 when none is given),
    reports each distance through [Math.round], orders the candidates by
    ascending reported distance and returns the first five. *)
Lemma findPotentialDuplicates_first_five (rows : list Row)
  (location : Location) (radiusMeters : option num) :
  let radius := match radiusMeters with Some r => r | None => lit 120 end in
  let candidates :=
    map (asDuplicate location) (filter (withinRadius location radius) rows) in
  exists result,
    findPotentialDuplicates (Ok rows) location radiusMeters = Ok result /\
    List.length result = Nat.min 5 (List.length candidates) /\
    StronglySorted (fun a b => distance_m a <= distance_m b) result /\
    (forall d, In d result ->
       exists row, In row rows /\
         nle (haversine location (rowLocation row)) radius = true /\
         distance_m d = nround (haversine location (rowLocation row)) /\
         d = asDuplicate location row) /\
    (forall c, In c candidates ->
       In c result \/ forall d, In d result -> distance_m d <= distance_m c) /\
    (forall a b,
       haversine a b
       = nmul (lit 6371000)
           (nmul (lit 2)
              (natan2 (nsqrt (haversineH a b))
                      (nsqrt (nsub (lit 1) (haversineH a b)))))).
Proof.
  intros radius candidates.
  exists (firstn 5 (sortBy distance_m candidates)).
  assert (Hs : StronglySorted (fun a b => distance_m a <= distance_m b)
                 (sortBy distance_m candidates))
    by apply sortBy_sorted.
  split; [|split; [|split; [|split; [|split]]]].
  - unfold findPotentialDuplicates. fold radius.
    now rewrite candidatesOf_filter.
  - now rewrite length_firstn, sortBy_length.
  - rewrite <- (firstn_skipn 5 (sortBy distance_m candidates)) in Hs.
    clear -Hs. revert Hs.
    generalize (firstn 5 (sortBy distance_m candidates)) as l1.
    generalize (skipn 5 (sortBy distance_m candidates)) as l2.
    intros l2 l1. induction l1 as [|a l1 IH]; simpl; intros Hs;
      [constructor|].
    inversion Hs as [|? ? Hs' Hall]; subst. constructor; [auto|].
    apply Forall_app in Hall. tauto.
  - intros d Hd. apply In_firstn in Hd.
    apply (proj1 (sortBy_In _ _ _ d)) in Hd.
    unfold candidates in Hd. apply in_map_iff in Hd.
    destruct Hd as [row [<- Hrow]]. apply filter_In in Hrow.
    exists row. unfold withinRadius in Hrow. repeat split; tauto.
  - intros c Hc. apply (proj2 (sortBy_In _ distance_m candidates c)) in Hc.
    rewrite <- (firstn_skipn 5 (sortBy distance_m candidates)) in Hc.
    apply in_app_or in Hc. destruct Hc as [Hc|Hc]; [now left | right].
    intros d Hd. exact (sorted_firstn_le _ distance_m _ 5 d c Hs Hd Hc).
  - reflexivity.
Qed.

(** [description.length] counts UTF-16 code units, not bytes: an accented
    letter of two bytes counts once, an emoji of four bytes twice. *)
Lemma jsLength_app (s1 s2 : string) :
  jsLength (s1 ++ s2) = (jsLength s1 + jsLength s2)%nat.
Proof.
  induction s1 as [|c s1 IH]; [reflexivity|].
  cbn [String.append jsLength]. rewrite IH. apply Nat.add_assoc.
Qed.

(** C5. For a submission that passes validation, a detector that throws
    does not get in the way: the handler answers as if no duplicate had been
    found, and when the report is created the answer is 201 with the new
    report and an empty list of duplicates. The route answers the same for
    every request that [reportRateLimit] lets through. *)
Theorem detector_failure_does_not_block (Report : Type)
  (create : CreateReportInput -> Res Report) (ip : string)
  (body : ReportBody) (e : JsError) :
  validSubmission body = true ->
  let detect := fun loc => findPotentialDuplicates (Err e) loc None in
  postReportsHandler detect create ip body
    = postReportsHandler (fun _ => Ok []) create ip body /\
  (exists reportData,
     in_address reportData = address body /\
     Some (in_category reportData) = category body /\
     Some (in_description reportData) = body_description body /\
     validateLocation (location body) = Ok (in_location reportData) /\
     forall report, create reportData = Ok report ->
       postReportsHandler detect create ip body
       = mkResponse 201 (Created report [] "Report submitted successfully")) /\
  (forall (req : Request) (totalHits : nat),
     req_body req = body -> req_ip req = ip ->
     reportRateLimit Report req totalHits = None ->
     postReports detect create totalHits req
     = postReportsHandler detect create ip body).
Proof.
  intros Hvalid detect.
  assert (Hroute : forall (req : Request) (totalHits : nat),
            req_body req = body -> req_ip req = ip ->
            reportRateLimit Report req totalHits = None ->
            postReports detect create totalHits req
            = postReportsHandler detect create ip body).
  { intros req totalHits <- <- Hpass. unfold postReports. now rewrite Hpass. }
  revert Hvalid Hroute. subst detect.
  unfold validSubmission, postReportsHandler, nonEmpty.
  destruct (category body) as [cat|] eqn:Hcat; [|discriminate].
  destruct (String.eqb cat "") eqn:Hce; [discriminate|].
  destruct (body_description body) as [desc|] eqn:Hdesc; [|discriminate].
  destruct (String.eqb desc "") eqn:Hde; [discriminate|].
  destruct (validateLocation (location body)) as [loc|e'] eqn:Hloc;
    [|discriminate].
  intros Hvalid Hroute. apply andb_true_iff in Hvalid.
  destruct Hvalid as [Hvc Hvd].
  assert (Hsome : exists raw, location body = Some raw).
  { destruct (location body) as [raw|]; [eauto | discriminate]. }
  destruct Hsome as [raw Hraw]. rewrite Hraw in *.
  rewrite Hvc, Hvd in *. cbn [negb findPotentialDuplicates in_location] in *.
  split; [reflexivity|]. split; [|exact Hroute].
  exists (mkInput cat desc loc (address body) (photo_url body)
                  (photo_public_id body) ip).
  cbn [in_address in_category in_description in_location].
  repeat split. intros report ->. reflexivity.
Qed.

End ServerFacts.

(** ** The server in exact arithmetic *)

Module IdealFacts.
Import Reals Lra.
Import Server Ideal.
Local Open Scope R_scope.

Lemma lit_IZR (z : Z) : lit (num:=R) z = IZR z.
Proof. unfold lit. simpl. unfold decR. simpl. lra. Qed.

Lemma haversineH_ideal (a b : @Location R) :
  haversineH a b
  = (sin ((latitude b - latitude a) * PI / 180 / 2))²
    + cos (latitude a * PI / 180) * cos (latitude b * PI / 180)
      * (sin ((longitude b - longitude a) * PI / 180 / 2))².
Proof.
  unfold haversineH, toRad. rewrite !lit_IZR. simpl. unfold Rsqr. lra.
Qed.

(** In exact arithmetic the [atan2] form of the code is the textbook
    [asin] form. *)
Lemma haversine_textbook (a b : @Location R) :
  0 <= haversineH a b <= 1 ->
  haversine a b = haversineTextbook a b.
Proof.
  intros [H0 H1]. unfold haversineTextbook. cbv zeta.
  rewrite <- haversineH_ideal. unfold haversine. rewrite !lit_IZR.
  remember (haversineH a b) as h eqn:Eh. clear Eh a b.
  simpl nmul. simpl natan2. simpl nsqrt. simpl nsub.
  assert (Hc : atan2R (sqrt h) (sqrt (1 - h)) = asin (sqrt h)).
  { unfold atan2R. destruct (Rlt_dec 0 (sqrt (1 - h))) as [Hpos|Hnpos].
    - assert (Hlt : h < 1).
      { destruct (Rlt_dec h 1); [assumption|]. exfalso.
        assert (Heq : h = 1) by lra. rewrite Heq in Hpos.
        replace (1 - 1) with 0 in Hpos by lra.
        rewrite sqrt_0 in Hpos. lra. }
      rewrite asin_atan.
      + rewrite Rsqr_sqrt by assumption. reflexivity.
      + split.
        * pose proof (sqrt_pos h). lra.
        * rewrite <- sqrt_1. apply sqrt_lt_1; lra.
    - assert (Heq : h = 1).
      { destruct (Rlt_dec h 1) as [Hlt|]; [|lra]. exfalso. apply Hnpos.
        apply sqrt_lt_R0. lra. }
      rewrite Heq. replace (1 - 1) with 0 by lra. rewrite sqrt_0, sqrt_1.
      destruct (Rlt_dec 0 0); [lra|]. destruct (Rlt_dec 0 1); [|lra].
      symmetry. apply asin_1. }
  rewrite Hc. lra.
Qed.

(** A report at the very place of the new one is at distance 0, hence
    within every non-negative radius. *)
Lemma haversine_same_place (p : @Location R) : haversine p p = 0.
Proof.
  assert (Hh : haversineH p p = 0).
  { rewrite haversineH_ideal.
    replace ((latitude p - latitude p) * PI / 180 / 2) with 0 by lra.
    replace ((longitude p - longitude p) * PI / 180 / 2) with 0 by lra.
    rewrite sin_0. unfold Rsqr. lra. }
  rewrite haversine_textbook by (rewrite Hh; lra).
  unfold haversineTextbook. cbv zeta. rewrite <- haversineH_ideal, Hh.
  rewrite sqrt_0, asin_0. lra.
Qed.

(** [Math.round] gives the nearest integer, the upper one at a tie. *)
Lemma roundR_between (x : R) (z : Z) :
  IZR z - / 2 <= x < IZR z + / 2 -> roundR x = z.
Proof.
  intros [Hlo Hhi]. unfold roundR.
  assert (Hup : (z + 1)%Z = up (x + / 2)).
  { apply tech_up; rewrite plus_IZR; lra. }
  rewrite <- Hup. lia.
Qed.

Lemma PI_bounds : 3141 / 1000 < PI < 3143 / 1000.
Proof.
  pose proof (PI_2_3_7_ineq 1) as [Hlb Hub].
  unfold sum_f_R0, tg_alt, PI_2_3_7_tg, Ratan_seq in Hlb, Hub.
  simpl in Hlb, Hub. lra.
Qed.

(** The distance of the example: 6371 * pi / 180, a little above 111 m. *)
Lemma example_distance :
  haversine newPlace (rowLocation earlier) = 6371 * PI / 180.
Proof.
  pose proof PI_bounds as [Hlo Hup].
  set (x := PI / 360000).
  assert (Hx : 0 <= x <= PI / 2) by (unfold x; lra).
  assert (Hh : haversineH newPlace (rowLocation earlier) = (sin x)²).
  { rewrite haversineH_ideal. unfold newPlace, earlier, rowLocation. simpl.
    replace ((decR 146005 (-4) - decR 145995 (-4)) * PI / 180 / 2) with x
      by (unfold x, decR; simpl; lra).
    replace ((decR 1209842 (-4) - decR 1209842 (-4)) * PI / 180 / 2) with 0
      by lra.
    rewrite sin_0. unfold Rsqr. lra. }
  rewrite haversine_textbook.
  - unfold haversineTextbook. cbv zeta. rewrite <- haversineH_ideal, Hh.
    rewrite sqrt_Rsqr by (apply sin_ge_0; lra).
    rewrite asin_sin by lra. unfold x. lra.
  - rewrite Hh. pose proof (Rtrigo_facts.sin2_bound x). lra.
Qed.

(** The detector on the example: the earlier report is a candidate at 111 m
    for the default radius of 120 m, and is not one for a radius of 50 m. *)
Lemma detector_on_example :
  findPotentialDuplicates (Ok [earlier]) newPlace None
  = Ok [mkDuplicate "r-1" "Pothole on the corner" 111 "2025-09-23T08:00:00Z"]
  /\ findPotentialDuplicates (Ok [earlier]) newPlace (Some (lit 50)) = Ok [].
Proof.
  pose proof PI_bounds as [Hlo Hup].
  unfold findPotentialDuplicates, candidatesOf. cbn [flat_map].
  rewrite example_distance, !lit_IZR. cbn [nle ideal]. unfold leR.
  destruct (Rle_dec (6371 * PI / 180) 120) as [_|Hn]; [|exfalso; apply Hn; lra].
  destruct (Rle_dec (6371 * PI / 180) 50) as [Hy|_]; [exfalso; lra|].
  split; [|reflexivity].
  cbn [nround ideal app sortBy insertSorted firstn row_id row_description
         row_created_at earlier].
  rewrite (roundR_between _ 111); [reflexivity | lra].
Qed.

Ltac compare_decimals :=
  repeat match goal with
    | |- context [leR ?a ?b] =>
        let Hn := fresh in
        unfold leR at 1; destruct (Rle_dec a b) as [_|Hn];
        [|exfalso; apply Hn; unfold decR; simpl; lra]
    | |- context [ltR ?a ?b] =>
        let Hy := fresh in
        unfold ltR at 1; destruct (Rlt_dec a b) as [Hy|_];
        [exfalso; revert Hy; unfold decR; simpl; lra|]
    end.

Lemma waterLeak_valid : validSubmission waterLeak = true.
Proof.
  unfold validSubmission, waterLeak, validateLocation, validateCoordinates,
    isWithinPhilippines, boundsSouth, boundsNorth, boundsWest, boundsEast, lit.
  simpl. compare_decimals. reflexivity.
Defined.

Lemma accented_length :
  String.length accented = 600%nat /\ jsLength accented = 300%nat.
Proof. split; vm_compute; reflexivity. Qed.

Lemma waterLeakAccented_valid : validSubmission waterLeakAccented = true.
Proof.
  assert (Hd : validateDescription accented = true)
    by (vm_compute; reflexivity).
  assert (Hn : nonEmpty (Some accented) = Some accented)
    by (vm_compute; reflexivity).
  unfold validSubmission, waterLeakAccented.
  cbn [category body_description location]. rewrite Hn, Hd.
  unfold validateLocation, validateCoordinates,
    isWithinPhilippines, boundsSouth, boundsNorth, boundsWest, boundsEast, lit.
  simpl. compare_decimals. reflexivity.
Defined.

(** C5 at the leak report and at the same report described in 300
    accented letters, with a detector that throws, a database that stores,
    and reports reduced to their description. *)
Lemma detector_failure_run :
  postReportsHandler
    (fun loc => findPotentialDuplicates (Err Thrown) loc None)
    (fun input => Ok (in_description input)) "203.0.113.7" waterLeak
  = mkResponse 201 (Created "Leak" [] "Report submitted successfully") /\
  postReportsHandler
    (fun loc => findPotentialDuplicates (Err Thrown) loc None)
    (fun input => Ok (in_description input)) "203.0.113.7" waterLeakAccented
  = mkResponse 201 (Created accented [] "Report submitted successfully").
Proof.
  split.
  - destruct (detector_failure_does_not_block string
                (fun input => Ok (in_description input)) "203.0.113.7"
                waterLeak Thrown waterLeak_valid)
      as [_ [[reportData [_ [_ [Hdesc [_ Hcreated]]]]] _]].
    rewrite (Hcreated (in_description reportData) eq_refl).
    simpl in Hdesc. now inversion Hdesc.
  - destruct (detector_failure_does_not_block string
                (fun input => Ok (in_description input)) "203.0.113.7"
                waterLeakAccented Thrown waterLeakAccented_valid)
      as [_ [[reportData [_ [_ [Hdesc [_ Hcreated]]]]] _]].
    rewrite (Hcreated (in_description reportData) eq_refl).
    cbn [body_description waterLeakAccented] in Hdesc. now inversion Hdesc.
Defined.

End IdealFacts.

(** ** Overlapping triggers on a concrete queue *)

Module Overlap.
Import Scenario.

(** C1 on the queue [leak; pothole] under [overlapping]: a reconnect
    starts the cycle; the timer, [forceSync] and the background sync fire
    while it is suspended, the background sync while the submission of
    [leak] is pending; a report is enqueued and the status read meanwhile. *)
Lemma one_cycle_at_a_time_run :
  (List.length
     (cycles (runMachine accepting overlapping
                (mkMachine (idle [leak; pothole]) []))) <= 1)%nat /\
  (cycles (runMachine accepting overlapping
             (mkMachine (idle [leak; pothole]) [])) <> [] ->
   isProcessing
     (world (runMachine accepting overlapping
               (mkMachine (idle [leak; pothole]) []))) = true /\
   forall source,
     machineStep accepting (Fire source)
       (runMachine accepting overlapping (mkMachine (idle [leak; pothole]) []))
     = runMachine accepting overlapping (mkMachine (idle [leak; pothole]) [])) /\
  Forall (@NoDup string)
    (cyclesOf
       (log (world (runMachine accepting overlapping
                      (mkMachine (idle [leak; pothole]) []))))).
Proof.
  apply (one_cycle_at_a_time Payload accepting (idle [leak; pothole])
           overlapping).
  - reflexivity.
  - simpl. repeat (constructor; [simpl; intuition discriminate|]). constructor.
  - simpl. repeat constructor.
Defined.

(** What the observer sees of that run: one [sync-started] per cycle, each
    report of the snapshot submitted once in the first cycle; the report
    enqueued meanwhile waits for the second. *)
Example overlapping_log :
  rev (log (world (runMachine accepting overlapping
                     (mkMachine (idle [leak; pothole]) []))))
  = [Emit SyncStarted;
     CallSubmit "queue_1_a";
     Emit (QueueUpdatedAdded "queue_1002_k3" 3);
     Emit (ItemSynced "queue_1_a");
     CallSubmit "queue_2_b"; Emit (ItemSynced "queue_2_b");
     Emit (SyncCompleted 2);
     Emit SyncStarted].
Proof. vm_compute. reflexivity. Qed.

(** C3 on a store that lists the three reports by key, not by age; and
    the log under [overlapping] triggers is sequential. *)
Lemma fifo_submission_order_run :
  submissions (log (snd (processQueue accepting (idle shuffled))))
  = [] ++ ["queue_b"; "queue_c"; "queue_a"] /\
  rev (log (snd (processQueue accepting (idle shuffled))))
  = [Emit SyncStarted;
     CallSubmit "queue_b"; Emit (ItemSynced "queue_b");
     CallSubmit "queue_c"; Emit (ItemSynced "queue_c");
     CallSubmit "queue_a"; Emit (ItemSynced "queue_a");
     Emit (SyncCompleted 3)] /\
  sequential
    (log (world (runMachine accepting overlapping
                   (mkMachine (idle shuffled) [])))) = true.
Proof.
  destruct (fifo_submission_order Payload accepting (idle shuffled))
    as [Hseq Hfifo].
  destruct (Hfifo Runs.accepting_healthy eq_refl eq_refl
              ltac:(simpl; Runs.distinct_keys)
              ltac:(intros n d; eexists; reflexivity)
              ltac:(simpl; intros y [<-|[<-|[<-|[]]]]; split; reflexivity))
    as ((items & _ & Hperm & Hsorted & Hlog) & Horder & _).
  split; [|split].
  - refine (Horder (fresh "queue_b" "Leak" 10) (fresh "queue_c" "Pothole" 20)
              (fresh "queue_a" "Lamp" 30) _ _).
    + exact (Permutation_cons_append
               [fresh "queue_b" "Leak" 10; fresh "queue_c" "Pothole" 20]
               (fresh "queue_a" "Lamp" 30)).
    + simpl. lia.
  - assert (Hitems : items = [fresh "queue_b" "Leak" 10;
                              fresh "queue_c" "Pothole" 20;
                              fresh "queue_a" "Lamp" 30]).
    { apply (sorted_unique _ (@timestampOf _)).
      - unfold timestampOf. repeat constructor; simpl; lia.
      - exact Hsorted.
      - rewrite Hperm.
        exact (Permutation_cons_append
                 [fresh "queue_b" "Leak" 10; fresh "queue_c" "Pothole" 20]
                 (fresh "queue_a" "Lamp" 30)). }
    rewrite Hlog by (rewrite Hitems; discriminate).
    rewrite Hitems. reflexivity.
  - exact (proj2 (Hseq eq_refl eq_refl eq_refl) overlapping).
Defined.

End Overlap.

Lemma StronglySorted_firstn {A} (R : A -> A -> Prop) (n : nat) (l : list A) :
  StronglySorted R l -> StronglySorted R (firstn n l).
Proof.
  intros Hs. revert n. induction Hs as [|a l Hs IH Ha]; intros [|n]; simpl;
    constructor; [apply IH|].
  apply Forall_forall. intros y Hy. apply In_firstn in Hy.
  rewrite Forall_forall in Ha. auto.
Qed.

Section QueueBehaviour.
Variable ReportFormData : Type.
Variable env : Env ReportFormData.
Local Abbreviation Item := (OfflineQueueItem ReportFormData).
Local Abbreviation World := (World ReportFormData).

(** The loop submits only items of its list that pass the retry limit and
    are reports to create. *)
Lemma processItems_eligible (l : list Item) (t : Tally) :
  respects (fun k => In k (keys l))
    (fun k => exists y, In y l /\ id y = k /\ willSubmit y = true)
    (processItems env l t).
Proof.
  revert t. induction l as [|y l IH]; intros t; simpl.
  - apply respects_ret.
  - apply respects_bind.
    + intros w. pose proof (processOne_touched _ env y t w) as Ht.
      eapply touched_trans.
      2:{ eapply touched_mono; [| |exact Ht].
          - intros k <-. now left.
          - contradiction. }
      destruct (willSubmit y) eqn:Hy; [|apply touched_refl].
      simpl. repeat split; [constructor|].
      exists [CallSubmit (id y)]. split; [reflexivity|].
      constructor; [|constructor]. simpl. exists y. auto.
    + intros t' w. eapply touched_mono; [| |apply IH]; simpl.
      * auto.
      * intros k (y' & Hy' & Hid & Hw). exists y'. auto.
Qed.

(** A call of [processQueue] that the guard refuses. *)
Lemma processQueue_refused (w : World) :
  isProcessing w || negb (onLine w) = true -> processQueue env w = (Ok tt, w).
Proof.
  intros Hguard. unfold processQueue, isOnline. unfold bind at 1 2.
  unfold gets. now rewrite Hguard.
Qed.

(** A call of [processQueue] that passes the guard, whatever the store and
    the API do. *)
Lemma processQueue_shape (w : World) :
  isProcessing w || negb (onLine w) = false ->
  let w' := snd (processQueue env w) in
  fst (processQueue env w) = Ok tt /\
  isProcessing w' = false /\ onLine w' = onLine w /\
  storeEvolves (fun k => In k (keys (offlineQueue w)))
    (offlineQueue w) (offlineQueue w') /\
  exists new,
    log w' = new ++ Emit SyncStarted :: log w /\
    Forall (allowed (fun k => exists y, In y (offlineQueue w) /\ id y = k
                                        /\ willSubmit y = true)) new.
Proof.
  intros Hguard w'. subst w'.
  set (K := fun k => In k (keys (offlineQueue w))).
  set (L := fun k => exists y, In y (offlineQueue w) /\ id y = k
                               /\ willSubmit y = true).
  set (w1 := record (Emit SyncStarted) (setProcessing true w)).
  assert (Hstep : forall w2 : World,
            touched K L w1 w2 ->
            onLine w2 = onLine w /\
            storeEvolves K (offlineQueue w) (offlineQueue w2) /\
            exists new, log w2 = new ++ Emit SyncStarted :: log w
                        /\ Forall (allowed L) new).
  { intros w2 (_ & Ho & Hs & new & Hl & Ha).
    split; [exact Ho|]. split; [exact Hs|].
    exists new. split; [exact Hl | exact Ha]. }
  destruct (processQueue env w) as [r wf] eqn:Hrun. cbn [fst snd].
  revert Hrun. unfold processQueue, isOnline. unfold bind at 1 2. unfold gets.
  rewrite Hguard. unfold tryFinally, tryCatch.
  unfold bind at 1 2. unfold modify at 1, emit at 1, modify at 1.
  fold w1.
  unfold bind at 1.
  pose proof (respects_db_getQueueItems _ env K L w1) as Hget.
  destruct (db_getQueueItems env w1) as [[items|e] w2] eqn:Hitems;
    simpl snd in Hget.
  - apply db_getQueueItems_result in Hitems.
    change (offlineQueue w1) with (offlineQueue w) in Hitems.
    destruct items as [|y items].
    + unfold modify. destruct (Hstep w2 Hget) as (Ho & Hs & Hn).
      intros [= <- <-];
        cbn [fst snd isProcessing onLine offlineQueue log setProcessing record];
        (split; [reflexivity|]; split; [reflexivity|]; split; [exact Ho|];
         split; [exact Hs | exact Hn]).
    + set (l := y :: items) in *.
      assert (Hl : touched K L w2 (snd (processItems env l (mkTally 0 0 []) w2))).
      { eapply touched_mono; [| |apply processItems_eligible].
        - intros k Hk. unfold K. rewrite Hitems in Hk.
          apply (Permutation_in _ (keys_sortBy _ _)) in Hk. exact Hk.
        - intros k (y' & Hy' & Hid & Hw). exists y'. rewrite Hitems in Hy'.
          apply sortBy_In in Hy'. auto. }
      unfold bind.
      destruct (processItems env l (mkTally 0 0 []) w2) as [[t|e] w3];
        simpl snd in Hl.
      * pose proof (respects_finishCycle _ env K L t w3) as Hf.
        pose proof (finishCycle_ok _ env t w3) as Hok.
        destruct (finishCycle env t w3) as [[[]|e] w4];
          simpl in Hf, Hok; [|discriminate].
        destruct (Hstep w4) as (Ho & Hs & Hn).
        { eapply touched_trans; [exact Hget|].
          eapply touched_trans; [exact Hl | exact Hf]. }
        intros [= <- <-];
        cbn [fst snd isProcessing onLine offlineQueue log setProcessing record];
        (split; [reflexivity|]; split; [reflexivity|]; split; [exact Ho|];
         split; [exact Hs | exact Hn]).
      * pose proof (respects_cycleFailed _ K L e w3) as Hf.
        unfold cycleFailed, emit, modify in *. cbn [fst snd] in *.
        destruct (Hstep _ (touched_trans _ _ _ _ _ _
                    (touched_trans _ _ _ _ _ _ Hget Hl) Hf)) as (Ho & Hs & Hn).
        intros [= <- <-];
        cbn [fst snd isProcessing onLine offlineQueue log setProcessing record];
        (split; [reflexivity|]; split; [reflexivity|]; split; [exact Ho|];
         split; [exact Hs | exact Hn]).
  - pose proof (respects_cycleFailed _ K L e w2) as Hf.
    unfold cycleFailed, emit, modify in *. cbn [fst snd] in *.
    destruct (Hstep _ (touched_trans _ _ _ _ _ _ Hget Hf)) as (Ho & Hs & Hn).
    intros [= <- <-];
        cbn [fst snd isProcessing onLine offlineQueue log setProcessing record];
        (split; [reflexivity|]; split; [reflexivity|]; split; [exact Ho|];
         split; [exact Hs | exact Hn]).
Qed.


Lemma willSubmit_eligible (y : Item) :
  willSubmit y = true -> type y = CREATE_REPORT /\ retryCount y < MAX_RETRIES.
Proof.
  unfold willSubmit. intros Hw. apply andb_true_iff in Hw.
  destruct Hw as [Hrc Hty]. split.
  - now destruct (type y).
  - apply negb_true_iff in Hrc. now apply Z.leb_gt.
Qed.

(** X2. Whatever the store and the API do, every call to the API made by a
    cycle is for an item that was in the queue when the cycle began, is a
    [CREATE_REPORT] and is below the retry limit: an exhausted item or an
    [UPDATE_REPORT] is never sent. *)
Theorem cycle_submits_only_eligible (w : World) :
  exists new,
    log (snd (processQueue env w)) = new ++ log w /\
    forall k, In k (callsOf new) ->
      exists y, In y (offlineQueue w) /\ id y = k /\
                type y = CREATE_REPORT /\ retryCount y < MAX_RETRIES.
Proof.
  destruct (isProcessing w || negb (onLine w)) eqn:Hguard.
  - exists []. split; [|intros k []].
    now rewrite processQueue_refused.
  - destruct (processQueue_shape w Hguard) as (_ & _ & _ & _ & new & Hl & Ha).
    exists (new ++ [Emit SyncStarted]). split.
    + rewrite Hl. now rewrite <- app_assoc.
    + intros k Hk. rewrite callsOf_app in Hk. simpl in Hk.
      rewrite app_nil_r in Hk.
      destruct (allowed_calls _ new k Ha Hk) as (y & Hy & Hid & Hw).
      exists y. destruct (willSubmit_eligible y Hw). auto.
Qed.

(** X3. A cycle on an empty queue emits [sync-started] and nothing else:
    neither [sync-completed] nor [sync-failed] follows, and the sync status
    record is not refreshed. *)
Theorem empty_queue_cycle (w : World) :
  healthy env -> isProcessing w = false -> onLine w = true ->
  offlineQueue w = [] ->
  fst (processQueue env w) = Ok tt /\
  log (snd (processQueue env w)) = Emit SyncStarted :: log w /\
  syncStatus (snd (processQueue env w)) = syncStatus w /\
  isProcessing (snd (processQueue env w)) = false /\
  offlineQueue (snd (processQueue env w)) = [].
Proof.
  intros Hh Hp Ho Hq. rewrite (processQueue_healthy _ env Hh w Hp Ho).
  rewrite Hq. cbn. rewrite Hq. repeat split.
Qed.

(** [processQueue] never rejects. *)
Lemma processQueue_ok (w : World) : fst (processQueue env w) = Ok tt.
Proof.
  destruct (isProcessing w || negb (onLine w)) eqn:Hguard.
  - now rewrite processQueue_refused.
  - apply (processQueue_shape w Hguard).
Qed.

(** *** What no operation but [addToQueue] does *)

Lemma keepsReports_refl (s : list Item) : keepsReports s s.
Proof. intros x Hx. exists x. repeat split; auto. Qed.

Lemma keepsReports_trans (s1 s2 s3 : list Item) :
  keepsReports s1 s2 -> keepsReports s2 s3 -> keepsReports s1 s3.
Proof.
  intros H12 H23 x Hx. destruct (H23 x Hx) as (y & Hy & Hxy).
  destruct (H12 y Hy) as (z & Hz & Hyz). exists z. split; [assumption|].
  destruct Hxy as (? & ? & ? & ?), Hyz as (? & ? & ? & ?).
  repeat split; congruence.
Qed.

Lemma conserves_ret {A} (a : A) : conserves (ret (W:=World) a).
Proof. intros w. apply keepsReports_refl. Qed.

Lemma conserves_throw {A} e : conserves (throw (W:=World) (A:=A) e).
Proof. intros w. apply keepsReports_refl. Qed.

Lemma conserves_gets {A} (f : World -> A) : conserves (gets f).
Proof. intros w. apply keepsReports_refl. Qed.

Lemma conserves_ask {A} (oracle : nat -> A) :
  conserves (ask oracle : Monad.M World A).
Proof. intros w. apply keepsReports_refl. Qed.

Lemma conserves_modify (f : World -> World) :
  (forall w, keepsReports (offlineQueue w) (offlineQueue (f w))) ->
  conserves (modify f).
Proof. intros Hf w. apply Hf. Qed.

Lemma conserves_bind {A B} (m : Monad.M World A) (k : A -> Monad.M World B) :
  conserves m -> (forall a, conserves (k a)) -> conserves (bind m k).
Proof.
  intros Hm Hk w. unfold bind. specialize (Hm w).
  destruct (m w) as [[a|e] w']; simpl in *; [|assumption].
  eapply keepsReports_trans; [exact Hm | apply Hk].
Qed.

Lemma conserves_tryCatch {A} (m : Monad.M World A)
  (h : JsError -> Monad.M World A) :
  conserves m -> (forall e, conserves (h e)) -> conserves (tryCatch m h).
Proof.
  intros Hm Hh w. unfold tryCatch. specialize (Hm w).
  destruct (m w) as [[a|e] w']; simpl in *; [assumption|].
  eapply keepsReports_trans; [exact Hm | apply Hh].
Qed.

Lemma conserves_tryFinally {A} (m : Monad.M World A) (f : World -> World) :
  conserves m -> (forall w, offlineQueue (f w) = offlineQueue w) ->
  conserves (tryFinally m f).
Proof.
  intros Hm Hf w. unfold tryFinally. specialize (Hm w).
  destruct (m w) as [r w']. simpl in *. now rewrite Hf.
Qed.

Lemma conserves_withDB {A} (op : Monad.M World A) :
  conserves op -> conserves (withDB env op).
Proof.
  intros Hop. unfold withDB. apply conserves_bind; [apply conserves_ask|].
  intros [m|]; [apply conserves_throw | assumption].
Qed.

Lemma conserves_emit (e : QueueEvent) :
  conserves (emit e : Monad.M World unit).
Proof. apply conserves_modify. intros w. apply keepsReports_refl. Qed.

Lemma conserves_db_getQueueItems : conserves (db_getQueueItems env).
Proof. apply conserves_withDB, conserves_gets. Qed.

Lemma conserves_db_getSyncStatus : conserves (db_getSyncStatus env).
Proof. apply conserves_withDB, conserves_gets. Qed.

Lemma conserves_db_updateSyncStatus s : conserves (db_updateSyncStatus env s).
Proof.
  apply conserves_withDB, conserves_modify. intros w. apply keepsReports_refl.
Qed.

Lemma conserves_db_removeFromQueue k : conserves (db_removeFromQueue env k).
Proof.
  apply conserves_withDB, conserves_modify. intros w x Hx. simpl in Hx.
  unfold storeDelete in Hx. apply filter_In in Hx. destruct Hx as [Hx _].
  exists x. repeat split; auto.
Qed.

Lemma conserves_db_clearQueue : conserves (db_clearQueue env).
Proof. apply conserves_withDB, conserves_modify. intros w x []. Qed.

Lemma conserves_db_updateQueueItem k rc le :
  conserves (db_updateQueueItem env k rc le).
Proof.
  apply conserves_withDB. intros w. cbv beta.
  destruct (storeGet k (offlineQueue w)) as [item|] eqn:Hg.
  2: apply keepsReports_refl.
  pose proof (storeGet_Some _ _ _ _ Hg) as [Hin Hid].
  cbn [snd offlineQueue setQueue].
  match goal with |- context [storePut ?x _] => set (item2 := x) end.
  assert (Hsame : sameReport item2 item)
    by (subst item2; destruct (truthy le); repeat split).
  assert (Hid2 : id item2 = id item) by apply Hsame.
  rewrite (storePut_present _ item2 item) by (rewrite Hid2, Hid; exact Hg).
  intros x Hx. apply in_map_iff in Hx. destruct Hx as (z & Hz & Hzin).
  unfold overwrite in Hz. destruct (String.eqb (id z) (id item2)).
  - subst x. exists item. auto.
  - subst x. exists z. repeat split; auto.
Qed.

Lemma conserves_updateSyncStatus : conserves (updateSyncStatus env).
Proof.
  unfold updateSyncStatus. apply conserves_tryCatch.
  - apply conserves_bind; [apply conserves_db_getQueueItems|]. intros items.
    apply conserves_bind; [apply conserves_ask|]. intros now.
    apply conserves_db_updateSyncStatus.
  - intros e. apply conserves_ret.
Qed.

Lemma conserves_processQueueItem (y : Item) : conserves (processQueueItem env y).
Proof.
  unfold processQueueItem. destruct (MAX_RETRIES <=? retryCount y).
  - apply conserves_bind; [apply conserves_db_removeFromQueue|].
    intros _. apply conserves_throw.
  - apply conserves_tryCatch; [|intros e; apply conserves_throw].
    destruct (type y); [|apply conserves_throw].
    apply conserves_bind; [apply conserves_modify; intros w; apply keepsReports_refl|].
    intros _. apply conserves_bind; [apply conserves_ask|].
    intros [r|e]; [apply conserves_db_removeFromQueue | apply conserves_throw].
Qed.

Lemma conserves_processOne (y : Item) (t : Tally) : conserves (processOne env y t).
Proof.
  unfold processOne. apply conserves_tryCatch.
  - apply conserves_bind; [apply conserves_processQueueItem|]. intros _.
    apply conserves_bind; [apply conserves_emit|]. intros _.
    apply conserves_ret.
  - intros e. apply conserves_bind; [apply conserves_emit|]. intros _.
    apply conserves_bind; [apply conserves_db_updateQueueItem|]. intros _.
    apply conserves_ret.
Qed.

Lemma conserves_processItems (l : list Item) (t : Tally) :
  conserves (processItems env l t).
Proof.
  revert t. induction l as [|y l IH]; intros t; simpl.
  - apply conserves_ret.
  - apply conserves_bind; [apply conserves_processOne | intros t'; apply IH].
Qed.

Lemma conserves_processQueue : conserves (processQueue env).
Proof.
  unfold processQueue.
  apply conserves_bind; [apply conserves_gets|]. intros busy.
  apply conserves_bind; [apply conserves_gets|]. intros online.
  destruct (busy || negb online); [apply conserves_ret|].
  apply conserves_tryFinally; [|reflexivity].
  apply conserves_tryCatch; [|intros e; apply conserves_emit].
  apply conserves_bind;
    [apply conserves_modify; intros w; apply keepsReports_refl|]. intros _.
  apply conserves_bind; [apply conserves_emit|]. intros _.
  apply conserves_bind; [apply conserves_db_getQueueItems|]. intros items.
  destruct items as [|y items].
  - apply conserves_modify. intros w. apply keepsReports_refl.
  - apply conserves_bind; [apply conserves_processItems|]. intros t.
    unfold finishCycle.
    apply conserves_bind; [apply conserves_updateSyncStatus|]. intros _.
    destruct (cycleErrors t); apply conserves_emit.
Qed.

Lemma conserves_getQueueStatus : conserves (getQueueStatus env).
Proof.
  unfold getQueueStatus. apply conserves_tryCatch; [|intros e; apply conserves_ret].
  apply conserves_bind; [apply conserves_db_getQueueItems|]. intros items.
  apply conserves_bind; [apply conserves_db_getSyncStatus|]. intros status.
  apply conserves_bind; [apply conserves_gets|]. intros busy.
  apply conserves_ret.
Qed.

Lemma conserves_resetErrors (l : list Item) : conserves (resetErrors env l).
Proof.
  induction l as [|y l IH]; simpl; [apply conserves_ret|].
  apply conserves_bind; [apply conserves_db_updateQueueItem | intros _; exact IH].
Qed.

(** X4. Whatever the store and the API do, no operation of the manager
    other than [addToQueue] adds a record to the queue or changes the key,
    the kind, the payload or the enqueue time of one: a cycle, a retry and a
    forced sync only delete records and rewrite their retry bookkeeping. *)
Theorem only_addToQueue_adds_reports (w : World) (queueId : string) :
  keepsReports (offlineQueue w) (offlineQueue (snd (processQueue env w))) /\
  keepsReports (offlineQueue w) (offlineQueue (snd (retryFailedItems env w))) /\
  keepsReports (offlineQueue w) (offlineQueue (snd (forceSync env w))) /\
  keepsReports (offlineQueue w)
    (offlineQueue (snd (removeFromQueue env queueId w))) /\
  keepsReports (offlineQueue w) (offlineQueue (snd (clearQueue env w))) /\
  keepsReports (offlineQueue w) (offlineQueue (snd (getQueueStatus env w))) /\
  keepsReports (offlineQueue w) (offlineQueue (snd (getPendingItems env w))).
Proof.
  repeat split.
  - apply conserves_processQueue.
  - apply (conserves_tryCatch (A:=unit)); [|intros e; apply conserves_throw].
    apply conserves_bind; [apply conserves_db_getQueueItems|]. intros items.
    cbv zeta. destruct (filter _ items) as [|y l]; [apply conserves_ret|].
    apply conserves_bind; [apply conserves_resetErrors|]. intros _.
    apply conserves_processQueue.
  - unfold forceSync.
    apply (conserves_bind (A:=bool)); [apply conserves_gets|]. intros online.
    destruct (negb online); [apply conserves_throw|].
    apply conserves_bind; [apply conserves_gets|]. intros busy.
    destruct busy; [apply conserves_throw | apply conserves_processQueue].
  - apply (conserves_tryCatch (A:=unit)); [|intros e; apply conserves_throw].
    apply conserves_bind; [apply conserves_db_removeFromQueue|]. intros _.
    apply conserves_bind; [apply conserves_updateSyncStatus|]. intros _.
    apply conserves_bind; [apply conserves_getQueueStatus|]. intros status.
    apply conserves_emit.
  - apply (conserves_tryCatch (A:=unit)); [|intros e; apply conserves_throw].
    apply conserves_bind; [apply conserves_db_clearQueue|]. intros _.
    apply conserves_bind; [apply conserves_updateSyncStatus|]. intros _.
    apply conserves_emit.
  - apply conserves_getQueueStatus.
  - apply (conserves_tryCatch (A:=list Item)); [|intros e; apply conserves_ret].
    apply conserves_db_getQueueItems.
Qed.

(** *** The retry limit over any number of cycles *)

Lemma attemptsOf_emit (k : string) (e : QueueEvent) (l : list Effect) :
  attemptsOf k (Emit e :: l) = attemptsOf k l.
Proof. reflexivity. Qed.

Lemma attemptsOf_call (k i : string) (l : list Effect) :
  attemptsOf k (CallSubmit i :: l)
  = if string_dec i k then S (attemptsOf k l) else attemptsOf k l.
Proof. unfold attemptsOf. simpl. now destruct (string_dec i k). Qed.

Lemma attemptsLeft_delete (k k' : string) (q : list Item) :
  (attemptsLeft k (storeDelete k' q) <= attemptsLeft k q)%nat.
Proof.
  unfold attemptsLeft. destruct (string_dec k k') as [->|Hne].
  - rewrite storeGet_delete_same. lia.
  - now rewrite storeGet_delete_other.
Qed.

Lemma attemptsLeft_other (k : string) (x : Item) (q : list Item) :
  k <> id x -> attemptsLeft k (map (overwrite x) q) = attemptsLeft k q.
Proof. intros Hne. unfold attemptsLeft. now rewrite storeGet_overwrite_other. Qed.

(** The loop over a snapshot that agrees with the store, on a store that
    answers: every submission of [k] uses up one of the attempts the retry
    limit leaves to it. *)
Lemma processItems_potential (k : string) (l : list Item) (t : Tally)
  (w : World) :
  healthy env -> NoDup (keys l) ->
  (forall y, In y l -> storeGet (id y) (offlineQueue w) = Some y) ->
  (attemptsOf k (log (snd (processItems env l t w)))
   + attemptsLeft k (offlineQueue (snd (processItems env l t w)))
   <= attemptsOf k (log w) + attemptsLeft k (offlineQueue w))%nat.
Proof.
  intros Hh. revert t w. induction l as [|y l IH]; intros t w Hnd Hsnap;
    simpl; [lia|].
  inversion Hnd as [|? ? Hny Hnd']; subst.
  assert (Hy : storeGet (id y) (offlineQueue w) = Some y)
    by (apply Hsnap; now left).
  assert (Hrest : forall (q' : list Item),
            (forall k', k' <> id y -> storeGet k' q' = storeGet k' (offlineQueue w)) ->
            forall y', In y' l -> storeGet (id y') q' = Some y').
  { intros q' Hq' y' Hy'. rewrite Hq'; [apply Hsnap; now right|].
    intros Heq. apply Hny. rewrite <- Heq. now apply in_map. }
  unfold bind.
  destruct (Z_le_gt_dec MAX_RETRIES (retryCount y)) as [Hmax|Hlt].
  - pose proof (processOne_drop _ env Hh y t w Hmax) as (Hr & Hq & Hl & _).
    destruct (processOne env y t w) as [r w1]; simpl in Hr, Hq, Hl. subst r.
    cbn [snd]. rewrite Hq, Hl, attemptsOf_emit.
    pose proof (attemptsLeft_delete k (id y) (offlineQueue w)). lia.
  - assert (Hlt' : retryCount y < MAX_RETRIES) by lia.
    assert (Hstep : forall (t1 : Tally) (w1 : World) (message : string)
                      (calls : list Effect),
              offlineQueue w1
              = map (overwrite (afterFailure y (retryCount y + 1) message))
                    (offlineQueue w) ->
              log w1 = calls ++ log w ->
              (attemptsOf k (calls ++ log w) <= S (attemptsOf k (log w)))%nat ->
              (k <> id y -> attemptsOf k (calls ++ log w) = attemptsOf k (log w)) ->
              (attemptsOf k (log (snd (processItems env l t1 w1)))
               + attemptsLeft k (offlineQueue (snd (processItems env l t1 w1)))
               <= attemptsOf k (log w) + attemptsLeft k (offlineQueue w))%nat).
    { intros t1 w1 message calls Hq Hl Hone Hother.
      assert (Hnd1 : forall y', In y' l ->
                storeGet (id y') (offlineQueue w1) = Some y').
      { apply Hrest. intros k' Hk'. rewrite Hq.
        now apply storeGet_overwrite_other. }
      specialize (IH t1 w1 Hnd' Hnd1). rewrite Hq, Hl in IH.
      destruct (string_dec k (id y)) as [->|Hne].
      - assert (Hg : storeGet (id y)
                       (map (overwrite (afterFailure y (retryCount y + 1) message))
                            (offlineQueue w))
                     = Some (afterFailure y (retryCount y + 1) message))
          by (apply (storeGet_overwrite_same _
                       (afterFailure y (retryCount y + 1) message) y); exact Hy).
        unfold attemptsLeft in IH at 2. rewrite Hg in IH.
        unfold attemptsLeft at 2. rewrite Hy.
        cbn [afterFailure retryCount] in IH.
        specialize (Hone). unfold MAX_RETRIES in *. lia.
      - rewrite (attemptsLeft_other k) in IH by exact Hne.
        rewrite (Hother Hne) in IH. exact IH. }
    destruct (type y) eqn:Hty.
    + destruct (submitReport env (tick w) (data y)) as [r|e] eqn:Hsub.
      * pose proof (processOne_synced _ env Hh y t w r Hlt' Hty Hsub)
          as (Hr & Hq & Hl & _).
        destruct (processOne env y t w) as [r1 w1]; simpl in Hr, Hq, Hl.
        subst r1.
        assert (Hnd1 : forall y', In y' l ->
                  storeGet (id y') (offlineQueue w1) = Some y').
        { apply Hrest. intros k' Hk'. rewrite Hq.
          now apply storeGet_delete_other. }
        specialize (IH (mkTally (S (successCount t)) (failureCount t)
                                (cycleErrors t)) w1 Hnd' Hnd1).
        rewrite Hq, Hl, attemptsOf_emit, attemptsOf_call in IH.
        destruct (string_dec (id y) k) as [<-|Hne].
        -- unfold attemptsLeft in IH at 2. rewrite storeGet_delete_same in IH.
           unfold attemptsLeft at 2. rewrite Hy. unfold MAX_RETRIES in *. lia.
        -- pose proof (attemptsLeft_delete k (id y) (offlineQueue w)). lia.
      * pose proof (processOne_rejected _ env Hh y y t w e Hlt' Hty Hsub Hy)
          as (Hr & Hq & Hl & _).
        destruct (processOne env y t w) as [r1 w1]; simpl in Hr, Hq, Hl.
        subst r1.
        apply (Hstep _ w1 (messageOr "Unknown error" e)
                 [Emit (ItemFailed (id y) (messageOr "Unknown error" e));
                  CallSubmit (id y)]); [exact Hq | exact Hl | |].
        -- simpl app. rewrite attemptsOf_emit, attemptsOf_call.
           destruct (string_dec (id y) k); lia.
        -- intros Hne. simpl app. rewrite attemptsOf_emit, attemptsOf_call.
           destruct (string_dec (id y) k); [congruence | reflexivity].
    + pose proof (processOne_unsupported _ env Hh y y t w Hlt' Hty Hy)
        as (Hr & Hq & Hl & _).
      destruct (processOne env y t w) as [r1 w1]; simpl in Hr, Hq, Hl.
      subst r1.
      apply (Hstep _ w1 "Unsupported queue item type: UPDATE_REPORT"%string
               [Emit (ItemFailed (id y)
                        "Unsupported queue item type: UPDATE_REPORT")]);
        [exact Hq | exact Hl | |].
      * simpl app. rewrite attemptsOf_emit. lia.
      * intros _. reflexivity.
Qed.

Lemma attemptsOf_app (k : string) (l1 l2 : list Effect) :
  attemptsOf k (l1 ++ l2) = (attemptsOf k l1 + attemptsOf k l2)%nat.
Proof. unfold attemptsOf. rewrite callsOf_app. apply count_occ_app. Qed.

Lemma attemptsLeft_frame (K : string -> Prop) (k : string) (w w' : World) :
  touched K (fun _ => False) w w' -> ~ K k ->
  attemptsOf k (log w') = attemptsOf k (log w) /\
  attemptsLeft k (offlineQueue w') = attemptsLeft k (offlineQueue w).
Proof.
  intros Ht Hk. split.
  - apply (attemptsOf_quiet _ K). eapply touched_mono; [| |exact Ht].
    + auto.
    + contradiction.
  - destruct Ht as (_ & _ & Hs & _). unfold attemptsLeft.
    now rewrite (storeEvolves_frame _ _ _ _ k Hs Hk).
Qed.

(** One cycle on a store that answers. *)
Lemma cycle_potential (k : string) (w : World) :
  healthy env -> NoDup (keys (offlineQueue w)) ->
  NoDup (keys (offlineQueue (snd (processQueue env w)))) /\
  (attemptsOf k (log w) <= attemptsOf k (log (snd (processQueue env w))))%nat /\
  (attemptsOf k (log (snd (processQueue env w)))
   + attemptsLeft k (offlineQueue (snd (processQueue env w)))
   <= attemptsOf k (log w) + attemptsLeft k (offlineQueue w))%nat.
Proof.
  intros Hh Hnd.
  destruct (isProcessing w || negb (onLine w)) eqn:Hguard.
  - rewrite (processQueue_refused w Hguard). simpl. repeat split; [assumption|lia|lia].
  - destruct (processQueue_shape w Hguard) as (_ & _ & _ & Hs & new & Hl & _).
    split; [eapply storeEvolves_NoDup; eauto|].
    split.
    { rewrite Hl. change (new ++ Emit SyncStarted :: log w)
        with (new ++ [Emit SyncStarted] ++ log w).
      rewrite !attemptsOf_app. lia. }
    apply orb_false_iff in Hguard. destruct Hguard as [Hp Ho].
    apply negb_false_iff in Ho.
    rewrite (processQueue_healthy _ env Hh w Hp Ho). cbv zeta.
    set (w1 := setTick (S (tick w))
                 (record (Emit SyncStarted) (setProcessing true w))).
    destruct (sortBy (@timestampOf _) (offlineQueue w)) as [|y items] eqn:Hitems.
    + cbn [snd log offlineQueue setProcessing setTick record].
      change (log w1) with (Emit SyncStarted :: log w).
      change (offlineQueue w1) with (offlineQueue w).
      rewrite attemptsOf_emit. lia.
    + set (l := y :: items) in *.
      assert (Hndl : NoDup (keys l))
        by (rewrite <- Hitems; now apply NoDup_keys_sortBy).
      assert (Hsnap : forall y', In y' l ->
                storeGet (id y') (offlineQueue w1) = Some y').
      { intros y' Hy'. apply storeGet_In; [assumption|].
        rewrite <- Hitems in Hy'. now apply sortBy_In in Hy'. }
      pose proof (processItems_potential k l (mkTally 0 0 []) w1 Hh Hndl Hsnap)
        as Hpot.
      change (log w1) with (Emit SyncStarted :: log w) in Hpot.
      rewrite attemptsOf_emit in Hpot.
      change (offlineQueue w1) with (offlineQueue w) in Hpot.
      destruct (processItems env l (mkTally 0 0 []) w1) as [[t|e] w2];
        cbn [snd] in Hpot |- *.
      * pose proof (respects_finishCycle _ env (fun _ => False)
                      (fun _ => False) t w2) as Hf.
        destruct (attemptsLeft_frame _ k _ _ Hf (fun H => H)) as [Ha Hb].
        cbn [log offlineQueue setProcessing]. rewrite Ha, Hb. exact Hpot.
      * pose proof (respects_cycleFailed _ (fun _ => False)
                      (fun _ => False) e w2) as Hf.
        destruct (attemptsLeft_frame _ k _ _ Hf (fun H => H)) as [Ha Hb].
        cbn [log offlineQueue setProcessing]. rewrite Ha, Hb. exact Hpot.
Qed.

(** X5. On a store that answers, every submission of a report uses up one
    of the attempts that [MAX_RETRIES] leaves to its record: over any number
    of cycles, and whatever the API answers, a report enqueued with
    [retryCount >= 0] is sent at most three times more, and an id that is
    not in the queue is never sent. *)
Theorem attempts_are_bounded (w : World) (n : nat) (k : string) :
  healthy env -> NoDup (keys (offlineQueue w)) ->
  let attempts j := attemptsOf k (log (repeatCycles env j w)) in
  (attempts n + attemptsLeft k (offlineQueue (repeatCycles env n w))
   <= attempts O + attemptsLeft k (offlineQueue w))%nat /\
  (forall x, storeGet k (offlineQueue w) = Some x -> 0 <= retryCount x ->
     (attempts n <= attempts O + 3)%nat) /\
  (storeGet k (offlineQueue w) = None -> attempts n = attempts O).
Proof.
  intros Hh Hnd attempts. subst attempts. cbv beta.
  assert (Hmain :
    (attemptsOf k (log w) <= attemptsOf k (log (repeatCycles env n w)))%nat /\
    (attemptsOf k (log (repeatCycles env n w))
     + attemptsLeft k (offlineQueue (repeatCycles env n w))
     <= attemptsOf k (log w) + attemptsLeft k (offlineQueue w))%nat).
  { clear -Hh Hnd. revert w Hnd. induction n as [|n IH]; intros w Hnd; simpl.
    - lia.
    - destruct (cycle_potential k w Hh Hnd) as (Hnd1 & Hmono & Hpot).
      destruct (IH _ Hnd1) as [IHmono IHpot]. lia. }
  destruct Hmain as [Hmono Hpot]. simpl repeatCycles.
  split; [exact Hpot|]. split.
  - intros x Hx Hrc. unfold attemptsLeft in Hpot at 2. rewrite Hx in Hpot.
    unfold MAX_RETRIES in Hpot. lia.
  - intros Hx. unfold attemptsLeft in Hpot at 2. rewrite Hx in Hpot. lia.
Qed.

(** *** Reading the queue *)

(** [getQueueStatus] writes nothing. *)
Lemma getQueueStatus_frame (w : World) :
  offlineQueue (snd (getQueueStatus env w)) = offlineQueue w /\
  syncStatus (snd (getQueueStatus env w)) = syncStatus w /\
  isProcessing (snd (getQueueStatus env w)) = isProcessing w /\
  onLine (snd (getQueueStatus env w)) = onLine w /\
  log (snd (getQueueStatus env w)) = log w.
Proof.
  unfold getQueueStatus, db_getQueueItems, db_getSyncStatus, withDB.
  unfold tryCatch, bind, gets, ret, throw, ask.
  cbn [fst snd tick setTick].
  destruct (dbFault env (tick w)); cbn; [repeat split|].
  destruct (dbFault env (S (tick w))); cbn; repeat split.
Qed.

(** X6. [getQueueStatus] never rejects and writes nothing. When both of its
    storage requests succeed the status counts the stored items, reports the
    guard flag and the time of the last sync status record, and lists the
    errors; when one of them fails the status is the fallback: nothing
    pending, not processing, and the single error "Failed to get queue
    status", whatever the queue holds and even while a cycle is running. *)
Theorem getQueueStatus_never_rejects (w : World) :
  fst (getQueueStatus env w)
  = Ok (match dbFault env (tick w), dbFault env (S (tick w)) with
        | None, None =>
            mkQueueStatus (List.length (offlineQueue w)) (isProcessing w)
              (option_map ss_timestamp (syncStatus w))
              (statusErrors (sortBy (@timestampOf _) (offlineQueue w)))
        | _, _ => mkQueueStatus 0 false None ["Failed to get queue status"]
        end) /\
  offlineQueue (snd (getQueueStatus env w)) = offlineQueue w /\
  syncStatus (snd (getQueueStatus env w)) = syncStatus w /\
  isProcessing (snd (getQueueStatus env w)) = isProcessing w /\
  log (snd (getQueueStatus env w)) = log w.
Proof.
  split.
  - unfold getQueueStatus, db_getQueueItems, db_getSyncStatus, withDB.
    unfold tryCatch, bind, gets, ret, throw, ask.
    cbn [fst snd tick setTick].
    destruct (dbFault env (tick w)); cbn; [reflexivity|].
    destruct (dbFault env (S (tick w))); cbn; [reflexivity|].
    now rewrite sortBy_length.
  - destruct (getQueueStatus_frame w) as (Hq & Hs & Hp & _ & Hl). auto.
Qed.

(** X7. [getPendingItems] never rejects and writes nothing: it returns the
    stored items, oldest first, and the empty list when the store fails. *)
Theorem getPendingItems_never_rejects (w : World) :
  exists items,
    fst (getPendingItems env w) = Ok items /\
    offlineQueue (snd (getPendingItems env w)) = offlineQueue w /\
    log (snd (getPendingItems env w)) = log w /\
    match dbFault env (tick w) with
    | Some _ => items = []
    | None =>
        Permutation items (offlineQueue w) /\
        StronglySorted (fun a b => timestamp a <= timestamp b) items
    end.
Proof.
  unfold getPendingItems, db_getQueueItems, withDB.
  unfold tryCatch, bind, gets, ret, throw, ask. cbn [fst snd tick setTick].
  destruct (dbFault env (tick w)); cbn.
  - exists []. repeat split.
  - eexists. split; [reflexivity|]. repeat split.
    + apply sortBy_perm.
    + apply (sortBy_sorted _ (@timestampOf _)).
Qed.

(** X8. On a store that answers, the errors of [getQueueStatus] are the
    non-empty [lastError]s of at most five items, in queue order, and every
    failed item that is left out was enqueued no earlier than each of the
    listed ones: the list shows the oldest failures, not the latest. *)
Theorem status_lists_oldest_failures (w : World) :
  healthy env ->
  exists s listed,
    fst (getQueueStatus env w) = Ok s /\
    pending s = List.length (offlineQueue w) /\
    processing s = isProcessing w /\
    (List.length listed <= 5)%nat /\
    map (@lastError _) listed = map Some (errors s) /\
    StronglySorted (fun a b => timestamp a <= timestamp b) listed /\
    (forall x, In x listed ->
       In x (offlineQueue w) /\ truthy (lastError x) = true) /\
    (forall x y, In x listed -> In y (offlineQueue w) ->
       truthy (lastError y) = true -> ~ In y listed ->
       timestamp x <= timestamp y).
Proof.
  intros Hh. rewrite (getQueueStatus_healthy _ env w Hh).
  set (failed := filter (fun item : Item => truthy (lastError item))
                   (sortBy (@timestampOf _) (offlineQueue w))).
  assert (Hsorted : StronglySorted (fun a b : Item => timestamp a <= timestamp b)
                      failed).
  { unfold failed. rewrite <- sortBy_filter.
    apply (sortBy_sorted _ (@timestampOf _)). }
  eexists. exists (firstn 5 failed). split; [reflexivity|].
  cbn [pending processing errors].
  split; [reflexivity|]. split; [reflexivity|].
  split; [apply firstn_le_length|]. split; [|split; [|split]].
  - unfold statusErrors. fold failed. rewrite <- firstn_map, <- firstn_map.
    f_equal. rewrite map_map.
    assert (Hall : Forall (fun item : Item => truthy (lastError item) = true)
                     failed).
    { apply Forall_forall. intros x Hx. unfold failed in Hx.
      now apply filter_In in Hx. }
    clear -Hall. induction Hall as [|x l Hx _ IH]; [reflexivity|].
    simpl. rewrite IH. f_equal. destruct (lastError x); [reflexivity|discriminate].
  - now apply StronglySorted_firstn.
  - intros x Hx. apply In_firstn in Hx. unfold failed in Hx.
    apply filter_In in Hx. destruct Hx as [Hx Ht]. split; [|exact Ht].
    exact (proj1 (sortBy_In _ _ _ x) Hx).
  - intros x y Hx Hy Hty Hny.
    apply (sorted_firstn_le _ (@timestampOf _) failed 5 x y Hsorted Hx).
    assert (Hyf : In y failed).
    { unfold failed. apply filter_In. split; [|exact Hty].
      exact (proj2 (sortBy_In _ _ _ y) Hy). }
    rewrite <- (firstn_skipn 5 failed) in Hyf. apply in_app_or in Hyf.
    destruct Hyf; [contradiction | assumption].
Qed.

(** *** Changing the queue *)

Lemma updateSyncStatus_writes (w : World) :
  healthy env ->
  exists w',
    updateSyncStatus env w = (Ok tt, w') /\
    offlineQueue w' = offlineQueue w /\ log w' = log w /\
    isProcessing w' = isProcessing w /\ onLine w' = onLine w /\
    timerArmed w' = timerArmed w /\
    syncStatus w'
    = Some (mkSyncStatus (dateNow env (S (tick w)))
              (Nat.eqb (List.length (offlineQueue w)) 0)
              (List.length (offlineQueue w))).
Proof.
  intros Hh. unfold updateSyncStatus, db_getQueueItems, db_updateSyncStatus.
  run_with Hh. eexists. split; [reflexivity|]. cbn.
  rewrite sortBy_length. repeat split.
Qed.

Lemma storeGet_insert (x : Item) (q : list Item) :
  storeGet (id x) q = None ->
  storeGet (id x) (storeInsert x q) = Some x /\
  storeDelete (id x) (storeInsert x q) = q /\
  List.length (storeInsert x q) = S (List.length q).
Proof.
  intros Hnone. apply storeGet_None in Hnone.
  induction q as [|y q IH]; simpl.
  - unfold storeGet, storeDelete. simpl. rewrite String.eqb_refl. simpl. auto.
  - assert (Hyx : String.eqb (id y) (id x) = false).
    { apply String.eqb_neq. intros Heq. apply Hnone. now left. }
    assert (Hq : ~ In (id x) (keys q)) by (intros Hin; apply Hnone; now right).
    destruct (IH Hq) as (Hg & Hd & Hlen).
    destruct (String.ltb (id x) (id y)).
    + unfold storeGet, storeDelete. simpl.
      rewrite String.eqb_refl, Hyx. simpl. repeat split.
      f_equal. now apply storeDelete_absent.
    + unfold storeGet, storeDelete in *. simpl. rewrite Hyx. simpl.
      rewrite Hg, Hd, Hlen. auto.
Qed.

(** [addToQueue] on a store that answers. *)
Lemma addToQueue_run (d : ReportFormData) (w : World) :
  healthy env ->
  let n := List.length (offlineQueue w) in
  let newId := ("queue_" ++ decimal (dateNow env (S (tick w))) ++ "_"
                ++ randomSuffix env (S (S (tick w))))%string in
  let item :=
    mkItem newId CREATE_REPORT d (dateNow env (S (S (S (tick w))))) 0 None in
  if (MAX_QUEUE_SIZE <=? n)%nat
  then fst (addToQueue env d w)
       = Err (ErrorObj "Queue is full (max 100 items)")
  else match storeGet newId (offlineQueue w) with
       | Some _ =>
           (exists e, fst (addToQueue env d w) = Err e) /\
           offlineQueue (snd (addToQueue env d w)) = offlineQueue w /\
           log (snd (addToQueue env d w)) = log w
       | None =>
           fst (addToQueue env d w) = Ok newId /\
           offlineQueue (snd (addToQueue env d w))
           = storeInsert item (offlineQueue w) /\
           log (snd (addToQueue env d w))
           = Emit (QueueUpdatedAdded newId (n + 1)) :: log w /\
           statusFits (snd (addToQueue env d w)) /\
           timerArmed (snd (addToQueue env d w))
           = (timerArmed w || onLine w)%bool
       end.
Proof.
  intros Hh n newId item.
  unfold addToQueue, db_getQueueItems, db_addToQueue.
  run_with Hh. rewrite sortBy_length. fold n.
  destruct (MAX_QUEUE_SIZE <=? n)%nat; [reflexivity|]. run_with Hh.
  cbn [id Nat.add]. fold newId.
  destruct (storeGet newId (offlineQueue w)) eqn:Hfresh.
  - cbn. split; [eexists; reflexivity|]. auto.
  - cbn [fst snd tick offlineQueue setTick setQueue]. fold item.
    match goal with
    | |- context [updateSyncStatus env ?w1] =>
        destruct (updateSyncStatus_writes w1 Hh)
          as (w2 & Heq & Hq & Hl & Hp & Ho & Ht & Hs); rewrite Heq
    end.
    cbn [log offlineQueue timerArmed onLine setQueue setTick] in Hq, Hl, Hs, Ht, Ho.
    unfold scheduleProcessing, modify, ret, statusFits.
    destruct (onLine w2) eqn:Hon;
      cbn [fst snd log offlineQueue syncStatus timerArmed record setTimer];
      rewrite Hq, Hl, Hs, ?Ht, <- Ho;
      (split; [reflexivity|]; split; [reflexivity|]; split; [reflexivity|];
       split; [eexists; reflexivity|]).
    + now rewrite orb_true_r.
    + now rewrite orb_false_r.
Qed.

(** [removeFromQueue] on a store that answers. *)
Lemma removeFromQueue_run (k : string) (w : World) :
  healthy env ->
  fst (removeFromQueue env k w) = Ok tt /\
  offlineQueue (snd (removeFromQueue env k w))
  = storeDelete k (offlineQueue w) /\
  log (snd (removeFromQueue env k w))
  = Emit (QueueUpdatedRemoved k
            (List.length (storeDelete k (offlineQueue w)))) :: log w /\
  statusFits (snd (removeFromQueue env k w)).
Proof.
  intros Hh. unfold removeFromQueue. rewrite tryCatch_rethrow.
  unfold db_removeFromQueue. unfold bind at 1. run_with Hh.
  match goal with
  | |- context [updateSyncStatus env ?w1] =>
      destruct (updateSyncStatus_writes w1 Hh)
        as (w2 & Heq & Hq & Hl & _ & _ & _ & Hs); rewrite Heq
  end.
  cbn [log offlineQueue setQueue setTick] in Hq, Hl, Hs.
  pose proof (getQueueStatus_healthy _ env w2 Hh) as Hst.
  destruct (getQueueStatus_frame w2) as (Hq3 & Hs3 & _ & _ & Hl3).
  destruct (getQueueStatus env w2) as [r w3]. cbn [fst snd] in *. subst r.
  cbn [fst snd pending log offlineQueue syncStatus record]. unfold statusFits.
  cbn [fst snd pending log offlineQueue syncStatus record].
  rewrite Hq3, Hl3, Hs3, Hq, Hl, Hs.
  split; [reflexivity|]. split; [reflexivity|]. split; [reflexivity|].
  eexists. reflexivity.
Qed.

(** [clearQueue] on a store that answers. *)
Lemma clearQueue_run (w : World) :
  healthy env ->
  fst (clearQueue env w) = Ok tt /\
  offlineQueue (snd (clearQueue env w)) = [] /\
  log (snd (clearQueue env w)) = Emit QueueUpdatedCleared :: log w /\
  isProcessing (snd (clearQueue env w)) = isProcessing w /\
  statusFits (snd (clearQueue env w)).
Proof.
  intros Hh. unfold clearQueue. rewrite tryCatch_rethrow.
  unfold db_clearQueue. unfold bind at 1. run_with Hh.
  match goal with
  | |- context [updateSyncStatus env ?w1] =>
      destruct (updateSyncStatus_writes w1 Hh)
        as (w2 & Heq & Hq & Hl & Hp & _ & _ & Hs); rewrite Heq
  end.
  cbn [log offlineQueue isProcessing setQueue setTick] in Hq, Hl, Hs, Hp.
  unfold statusFits.
  cbn [fst snd log offlineQueue syncStatus isProcessing record].
  rewrite Hq, Hl, Hs, Hp. repeat split. eexists. reflexivity.
Qed.

(** X9. On a store that answers, [removeFromQueue] deletes the record
    stored under the id and no other, and emits [queue-updated] with the
    number of items left. An id that is not in the queue is no error: the
    call resolves, the queue is as it was, and the event is emitted all the
    same. *)
Theorem removeFromQueue_deletes_one (k : string) (w : World) :
  healthy env ->
  fst (removeFromQueue env k w) = Ok tt /\
  storeGet k (offlineQueue (snd (removeFromQueue env k w))) = None /\
  (forall k', k' <> k ->
     storeGet k' (offlineQueue (snd (removeFromQueue env k w)))
     = storeGet k' (offlineQueue w)) /\
  (~ In k (keys (offlineQueue w)) ->
     offlineQueue (snd (removeFromQueue env k w)) = offlineQueue w) /\
  log (snd (removeFromQueue env k w))
  = Emit (QueueUpdatedRemoved k
            (List.length (offlineQueue (snd (removeFromQueue env k w)))))
      :: log w.
Proof.
  intros Hh. destruct (removeFromQueue_run k w Hh) as (Hr & Hq & Hl & _).
  rewrite Hq. split; [exact Hr|]. split; [apply storeGet_delete_same|].
  split; [intros k' Hk'; now apply storeGet_delete_other|].
  split; [apply storeDelete_absent | exact Hl].
Qed.

(** X10. On a store that answers, a report that [addToQueue] accepted is
    stored under the returned id with [retryCount = 0] and no [lastError],
    the queue is one item longer, and [removeFromQueue] of that id gives
    back the queue as it was before. *)
Theorem enqueue_then_remove (d : ReportFormData) (w : World)
  (queueId : string) :
  healthy env ->
  fst (addToQueue env d w) = Ok queueId ->
  (exists enqueued,
     storeGet queueId (offlineQueue (snd (addToQueue env d w)))
     = Some (mkItem queueId CREATE_REPORT d enqueued 0 None)) /\
  List.length (offlineQueue (snd (addToQueue env d w)))
  = S (List.length (offlineQueue w)) /\
  offlineQueue (snd (removeFromQueue env queueId (snd (addToQueue env d w))))
  = offlineQueue w.
Proof.
  intros Hh Hok. pose proof (addToQueue_run d w Hh) as Hrun. cbv zeta in Hrun.
  destruct (MAX_QUEUE_SIZE <=? List.length (offlineQueue w))%nat;
    [rewrite Hrun in Hok; discriminate|].
  match type of Hrun with
  | match storeGet ?k _ with _ => _ end => set (newId := k) in *
  end.
  destruct (storeGet newId (offlineQueue w)) eqn:Hfresh.
  - destruct Hrun as [[e He] _]. rewrite He in Hok. discriminate.
  - destruct Hrun as (Hr & Hq & _). rewrite Hr in Hok.
    injection Hok as <-.
    destruct (removeFromQueue_run newId (snd (addToQueue env d w)) Hh)
      as (_ & Hq' & _).
    rewrite Hq', Hq.
    match goal with
    | |- context [storeInsert ?x _] =>
        destruct (storeGet_insert x (offlineQueue w) Hfresh) as (Hg & Hd & Hlen)
    end.
    split; [eexists; exact Hg|]. split; [exact Hlen | exact Hd].
Qed.

(** X11. On a store that answers, [addToQueue] (when it accepts the report),
    [removeFromQueue] and [clearQueue] each leave a sync status record that
    describes the queue as it now is: [pending_count] is the number of
    stored items and [success] says whether that number is zero. *)
Theorem sync_status_follows_the_queue (d : ReportFormData) (k : string)
  (w : World) :
  healthy env ->
  (forall queueId, fst (addToQueue env d w) = Ok queueId ->
     statusFits (snd (addToQueue env d w))) /\
  statusFits (snd (removeFromQueue env k w)) /\
  statusFits (snd (clearQueue env w)).
Proof.
  intros Hh. split; [|split].
  - intros queueId Hok. pose proof (addToQueue_run d w Hh) as Hrun.
    cbv zeta in Hrun.
    destruct (MAX_QUEUE_SIZE <=? List.length (offlineQueue w))%nat;
      [rewrite Hrun in Hok; discriminate|].
    match type of Hrun with
    | match ?g with _ => _ end => destruct g
    end.
    + destruct Hrun as [[e He] _]. rewrite He in Hok. discriminate.
    + apply Hrun.
  - apply (removeFromQueue_run k w Hh).
  - apply (clearQueue_run w Hh).
Qed.

Lemma filter_none {A} (p : A -> bool) (l : list A) :
  (forall x, In x l -> p x = false) -> filter p l = [].
Proof.
  induction l as [|x l IH]; [reflexivity|]. intros Hall. simpl.
  rewrite (Hall x (or_introl eq_refl)). apply IH. intros y Hy. apply Hall.
  now right.
Qed.

(** X12. On a store that answers, [retryFailedItems] on a queue in which no
    item has both a [lastError] and a retry count below the limit reads the
    queue and returns: no cycle is started and nothing is emitted, even when
    the queue holds reports that were never sent. *)
Theorem retryFailedItems_nothing_to_retry (w : World) :
  healthy env ->
  (forall y, In y (offlineQueue w) -> isFailedItem y = false) ->
  fst (retryFailedItems env w) = Ok tt /\
  offlineQueue (snd (retryFailedItems env w)) = offlineQueue w /\
  log (snd (retryFailedItems env w)) = log w /\
  isProcessing (snd (retryFailedItems env w)) = isProcessing w.
Proof.
  intros Hh Hnone.
  assert (Heq : retryFailedItems env w = (Ok tt, setTick (S (tick w)) w)).
  { unfold retryFailedItems. rewrite tryCatch_rethrow.
    unfold bind at 1. rewrite (db_getQueueItems_healthy _ env Hh w). cbv zeta.
    rewrite filter_none; [reflexivity|].
    intros y Hy. apply Hnone. exact (proj1 (sortBy_In _ _ _ y) Hy). }
  rewrite Heq. cbn. repeat split.
Qed.

(** *** A cycle in which every submission succeeds *)

Lemma processOne_synced_status (y : Item) (t : Tally) (w : World) (r : string) :
  healthy env ->
  retryCount y < MAX_RETRIES -> type y = CREATE_REPORT ->
  submitReport env (tick w) (data y) = Submitted r ->
  syncStatus (snd (processOne env y t w)) = syncStatus w.
Proof.
  intros Hh Hlt Hty Hsub. apply Z.leb_gt in Hlt.
  unfold processOne, processQueueItem, db_removeFromQueue.
  rewrite Hlt, Hty. run_with Hh. rewrite Hsub. run_with Hh. reflexivity.
Qed.

Lemma processItems_all_accepted (l : list Item) (t : Tally) (w : World) :
  healthy env ->
  (forall n d, exists r, submitReport env n d = Submitted r) ->
  (forall y, In y l -> retryCount y < MAX_RETRIES /\ type y = CREATE_REPORT) ->
  exists w' new,
    processItems env l t w
    = (Ok (mkTally (List.length l + successCount t) (failureCount t)
                   (cycleErrors t)), w') /\
    offlineQueue w' = deleteAll l (offlineQueue w) /\
    syncStatus w' = syncStatus w /\
    isProcessing w' = isProcessing w /\
    log w' = new ++ log w /\
    Forall (fun e => exists i, e = CallSubmit i \/ e = Emit (ItemSynced i)) new.
Proof.
  intros Hh Hacc. revert t w. induction l as [|y l IH]; intros t w Hall.
  - exists w, []. simpl. unfold ret. destruct t. repeat split. constructor.
  - destruct (Hall y (or_introl eq_refl)) as [Hlt Hty].
    destruct (Hacc (tick w) (data y)) as [r Hsub].
    pose proof (processOne_synced _ env Hh y t w r Hlt Hty Hsub)
      as (Hr & Hq & Hl & Hp & _).
    pose proof (processOne_synced_status y t w r Hh Hlt Hty Hsub) as Hs.
    simpl processItems. unfold bind.
    destruct (processOne env y t w) as [r1 w1]; simpl in Hr, Hq, Hl, Hs, Hp.
    subst r1.
    destruct (IH (mkTally (S (successCount t)) (failureCount t) (cycleErrors t))
                w1 (fun y' Hy' => Hall y' (or_intror Hy')))
      as (w' & new & Hrun & Hq' & Hs' & Hp' & Hl' & Hnew).
    exists w', (new ++ [Emit (ItemSynced (id y)); CallSubmit (id y)]).
    rewrite Hrun. cbn [successCount failureCount cycleErrors List.length].
    split; [do 2 f_equal; f_equal; lia|].
    split; [rewrite Hq', Hq; reflexivity|].
    split; [congruence|]. split; [congruence|]. split.
    + rewrite Hl', Hl. now rewrite <- app_assoc.
    + apply Forall_app. split; [exact Hnew|].
      repeat constructor; exists (id y); auto.
Qed.

Lemma deleteAll_all (l q : list Item) :
  (forall x, In x q -> In x l) -> deleteAll l q = [].
Proof.
  intros Hall. destruct (deleteAll l q) as [|x rest] eqn:Hd; [reflexivity|].
  assert (Hx : In x (deleteAll l q)) by (rewrite Hd; now left).
  apply deleteAll_In in Hx. destruct Hx as [Hx Hn].
  exfalso. apply Hn. apply in_map. now apply Hall.
Qed.

(** X13. On a store that answers, a cycle in which the API accepts every
    report of a non-empty queue ends with [sync-completed] carrying the
    number of reports sent; between [sync-started] and it the log holds only
    the calls to the API and their [item-synced] events. Afterwards the sync
    status record says success with nothing pending, and [getQueueStatus]
    reports nothing pending, no error, and the time of that record. *)
Theorem all_accepted_cycle (w : World) :
  healthy env -> isProcessing w = false -> onLine w = true ->
  (forall n d, exists r, submitReport env n d = Submitted r) ->
  (forall y, In y (offlineQueue w) ->
     retryCount y < MAX_RETRIES /\ type y = CREATE_REPORT) ->
  offlineQueue w <> [] ->
  exists new now,
    log (snd (processQueue env w))
    = Emit (SyncCompleted (List.length (offlineQueue w)))
        :: new ++ Emit SyncStarted :: log w /\
    Forall (fun e => exists i, e = CallSubmit i \/ e = Emit (ItemSynced i)) new /\
    syncStatus (snd (processQueue env w)) = Some (mkSyncStatus now true 0) /\
    fst (getQueueStatus env (snd (processQueue env w)))
    = Ok (mkQueueStatus 0 false (Some now) []).
Proof.
  intros Hh Hp Ho Hacc Hall Hne.
  set (items := sortBy (@timestampOf _) (offlineQueue w)).
  assert (Hitems : items <> []).
  { intros Heq. apply Hne. apply length_zero_iff_nil.
    rewrite <- (sortBy_length _ (@timestampOf _)). fold items. now rewrite Heq. }
  rewrite (processQueue_items _ env w items Hh Hp Ho eq_refl Hitems).
  set (w1 := setTick (S (tick w))
               (record (Emit SyncStarted) (setProcessing true w))).
  destruct (processItems_all_accepted items (mkTally 0 0 []) w1 Hh Hacc)
    as (w2 & new & Hrun & Hq & Hs & Hp2 & Hl & Hnew).
  { intros y Hy. apply Hall. exact (proj1 (sortBy_In _ _ _ y) Hy). }
  rewrite Hrun. cbn [successCount failureCount cycleErrors] in *.
  assert (Hempty : offlineQueue w2 = []).
  { rewrite Hq. apply deleteAll_all. intros x Hx.
    exact (proj2 (sortBy_In _ _ _ x) Hx). }
  unfold finishCycle. cbn [cycleErrors successCount]. unfold bind.
  destruct (updateSyncStatus_writes w2 Hh)
    as (w3 & Heq & Hq3 & Hl3 & Hp3 & _ & _ & Hs3).
  rewrite Heq. unfold emit, modify. cbn [fst snd].
  rewrite Hempty in Hs3, Hq3. cbn [List.length Nat.eqb] in Hs3.
  exists new, (dateNow env (S (tick w2))).
  cbn [log syncStatus record setProcessing].
  rewrite Hl3, Hl, Hs3, Nat.add_0_r. unfold items. rewrite sortBy_length.
  split; [reflexivity|]. split; [exact Hnew|]. split; [reflexivity|].
  rewrite (getQueueStatus_healthy _ env _ Hh).
  cbn [offlineQueue isProcessing syncStatus record setProcessing].
  rewrite Hq3, Hs3. reflexivity.
Qed.

(** X14. [clearQueue] does not stop a cycle that is under way: the cycle
    works on the items it read when it began. On a store that answers and an
    API that accepts, a cycle suspended with [items] still to process
    submits every one of them after the queue has been cleared. *)
Theorem clearQueue_does_not_stop_a_cycle (w : World) (items : list Item)
  (t : Tally) (fuel : nat) :
  healthy env ->
  (forall n d, exists r, submitReport env n d = Submitted r) ->
  (forall y, In y items -> retryCount y < MAX_RETRIES /\ type y = CREATE_REPORT) ->
  (2 * List.length items < fuel)%nat ->
  offlineQueue (world (machineStep env Clear (mkMachine w [InLoop items t])))
  = [] /\
  cycles (machineStep env Clear (mkMachine w [InLoop items t]))
  = [InLoop items t] /\
  submissions
    (log (drive env fuel (Some (InLoop items t))
            (world (machineStep env Clear (mkMachine w [InLoop items t])))))
  = submissions (log w) ++ keys items.
Proof.
  intros Hh Hacc Hall Hfuel. cbn [machineStep world cycles].
  destruct (clearQueue_run w Hh) as (_ & Hq & Hl & _).
  split; [exact Hq|]. split; [reflexivity|].
  rewrite (drive_loop _ env items t _ fuel Hfuel).
  destruct (processItems_all_synced _ env items t (snd (clearQueue env w))
              Hh Hacc Hall) as (t' & w' & Hrun & Hsub & _).
  rewrite Hrun.
  pose proof (respects_finishCycle _ env (fun _ => False) (fun _ => False) t' w')
    as Hf.
  pose proof (finishCycle_ok _ env t' w') as Hok.
  destruct (finishCycle env t' w') as [[[]|e] w'']; simpl in Hf, Hok;
    [|discriminate].
  cbn [log setProcessing].
  rewrite (submissions_quiet _ _ _ _ Hf), Hsub, Hl. reflexivity.
Qed.

End QueueBehaviour.

(** ** The retry delays, the listeners, the status text *)

(** X15. For a retry count that is not negative [getRetryDelay] is 1000,
    5000 or 15000 ms: it never decreases when the count grows and is 15000
    from the third attempt on. A negative count reads outside the table. *)
Theorem getRetryDelay_is_capped (rc : Z) :
  (rc < 0 -> getRetryDelay rc = None) /\
  (0 <= rc ->
   exists delay,
     getRetryDelay rc = Some delay /\ In delay RETRY_DELAYS /\
     (2 <= rc -> delay = 15000) /\
     forall rc' delay',
       rc <= rc' -> getRetryDelay rc' = Some delay' -> delay <= delay').
Proof.
  unfold getRetryDelay. cbv zeta.
  change (Z.of_nat (List.length RETRY_DELAYS) - 1) with 2.
  change RETRY_DELAYS with [1000; 5000; 15000].
  split.
  - intros Hneg. destruct (Z.ltb_spec (Z.min rc 2) 0); [reflexivity|lia].
  - intros Hpos.
    assert (Hcases : rc = 0 \/ rc = 1 \/ 2 <= rc) by lia.
    assert (Hval : forall r, 0 <= r ->
              (if Z.min r 2 <? 0 then None
               else nth_error [1000; 5000; 15000] (Z.to_nat (Z.min r 2)))
              = Some (if r =? 0 then 1000 else if r =? 1 then 5000 else 15000)).
    { intros r Hr. destruct (Z.ltb_spec (Z.min r 2) 0); [lia|].
      assert (Hc : r = 0 \/ r = 1 \/ 2 <= r) by lia.
      destruct Hc as [->|[->|Hc]]; [reflexivity | reflexivity|].
      replace (Z.min r 2) with 2 by lia.
      destruct (Z.eqb_spec r 0); [lia|]. destruct (Z.eqb_spec r 1); [lia|].
      reflexivity. }
    rewrite (Hval rc Hpos). eexists. split; [reflexivity|].
    split; [|split].
    + destruct (rc =? 0); [now left|]. destruct (rc =? 1); simpl; auto.
    + intros H2. destruct (Z.eqb_spec rc 0); [lia|].
      destruct (Z.eqb_spec rc 1); [lia | reflexivity].
    + intros rc' delay' Hle Hd. rewrite (Hval rc') in Hd by lia.
      injection Hd as <-.
      destruct (Z.eqb_spec rc 0), (Z.eqb_spec rc 1), (Z.eqb_spec rc' 0),
        (Z.eqb_spec rc' 1); lia.
Qed.





Lemma natText_not_A (n : nat) (tail : string) :
  (natText n ++ tail)%string <> "All reports synced".
Proof.
  unfold natText, NilZero.string_of_uint.
  destruct (Nat.to_uint n); simpl; discriminate.
Qed.

(** X17. [formatQueueStatus] says "All reports synced" exactly when the
    status has nothing pending, whatever its errors and its processing flag
    say. *)
Theorem formatQueueStatus_synced (s : QueueStatus) :
  formatQueueStatus s = "All reports synced" <-> pending s = 0%nat.
Proof.
  unfold formatQueueStatus. split.
  - destruct (Nat.eqb_spec (pending s) 0) as [H0|Hn]; [auto|].
    destruct (processing s); [discriminate|].
    destruct (0 <? List.length (errors s))%nat; intros Heq;
      now apply natText_not_A in Heq.
  - intros ->. reflexivity.
Qed.

(** ** The distances and the location checks of the server *)

Module GeoIdeal.
Import Reals Lra.
Import Server Ideal Geo IdealFacts.
Local Open Scope R_scope.

(** The haversine term lies between 0 and 1, whatever the coordinates. *)
Lemma haversineH_range (a b : @Location R) : 0 <= haversineH a b <= 1.
Proof.
  rewrite haversineH_ideal.
  set (A := latitude a * PI / 180). set (B := latitude b * PI / 180).
  set (x := (latitude b - latitude a) * PI / 180 / 2).
  set (S := (sin ((longitude b - longitude a) * PI / 180 / 2))²).
  set (s := (A + B) / 2).
  assert (HA : A = s - x) by (unfold s, x, A, B; lra).
  assert (HB : B = s + x) by (unfold s, x, A, B; lra).
  assert (Hprod : cos A * cos B = 1 - (sin x)² - (sin s)²).
  { rewrite HA, HB, cos_minus, cos_plus.
    pose proof (sin2_cos2 x) as Hx. pose proof (sin2_cos2 s) as Hs.
    unfold Rsqr in *.
    replace ((cos s * cos x + sin s * sin x) * (cos s * cos x - sin s * sin x))
      with ((cos s * cos s) * (cos x * cos x) - (sin s * sin s) * (sin x * sin x))
      by ring.
    replace (cos s * cos s) with (1 - sin s * sin s) by lra.
    replace (cos x * cos x) with (1 - sin x * sin x) by lra.
    ring. }
  rewrite Hprod.
  assert (HS : 0 <= S <= 1).
  { unfold S. split; [apply Rle_0_sqr|].
    pose proof (sin2_cos2 ((longitude b - longitude a) * PI / 180 / 2)) as Hc.
    pose proof (Rle_0_sqr (cos ((longitude b - longitude a) * PI / 180 / 2))).
    lra. }
  assert (Hp : 0 <= (sin x)² <= 1).
  { split; [apply Rle_0_sqr|]. pose proof (sin2_cos2 x).
    pose proof (Rle_0_sqr (cos x)). lra. }
  assert (Hq : 0 <= (sin s)² <= 1).
  { split; [apply Rle_0_sqr|]. pose proof (sin2_cos2 s).
    pose proof (Rle_0_sqr (cos s)). lra. }
  remember ((sin x)²) as p. remember ((sin s)²) as q.
  clear -HS Hp Hq. nra.
Qed.

Lemma haversineH_sym (a b : @Location R) : haversineH a b = haversineH b a.
Proof.
  rewrite !haversineH_ideal.
  replace ((latitude a - latitude b) * PI / 180 / 2)
    with (- ((latitude b - latitude a) * PI / 180 / 2)) by lra.
  replace ((longitude a - longitude b) * PI / 180 / 2)
    with (- ((longitude b - longitude a) * PI / 180 / 2)) by lra.
  rewrite !sin_neg, <- !Rsqr_neg. ring.
Qed.

Lemma textbook_of_H (a b : @Location R) :
  haversineTextbook a b = 2 * 6371000 * asin (sqrt (haversineH a b)).
Proof. unfold haversineTextbook. cbv zeta. now rewrite <- haversineH_ideal. Qed.

Lemma asin_nonneg (x : R) : 0 <= x <= 1 -> 0 <= asin x <= PI / 2.
Proof.
  intros [H0 H1]. pose proof (asin_bound x) as [Hlo Hhi]. split; [|exact Hhi].
  destruct (Rle_dec 0 (asin x)) as [|Hneg]; [assumption|]. exfalso.
  assert (Hs : sin (asin x) = x) by (apply sin_asin; lra).
  assert (Hpos : 0 < sin (- asin x)).
  { pose proof PI_RGT_0. apply sin_gt_0; lra. }
  rewrite sin_neg in Hpos. lra.
Qed.

(** X18. The three distance functions of the server agree:
    [LocationUtils.calculateDistance] is the duplicate detector's
    [haversine] operation for operation, and in exact arithmetic both are,
    for all coordinates, the textbook haversine distance
    2 R asin(sqrt(sin²(dphi/2) + cos phi1 cos phi2 sin²(dlambda/2))) with
    R = 6 371 000 m, of which the [calculateDistance] of the locations
    route is the value in kilometres. *)
Theorem haversine_is_textbook (a b : @Location R) :
  calculateDistance a b = haversine a b /\
  haversine a b = haversineTextbook a b /\
  calculateDistanceKm (latitude a) (longitude a) (latitude b) (longitude b)
  * 1000 = haversine a b.
Proof.
  split; [reflexivity|].
  split; [apply haversine_textbook, haversineH_range|].
  unfold calculateDistanceKm, haversine, haversineH, toRad.
  rewrite !lit_IZR. simpl. lra.
Qed.

Lemma haversine_range (a b : @Location R) :
  0 <= haversine a b <= PI * 6371000.
Proof.
  rewrite (haversine_textbook _ _ (haversineH_range _ _)), textbook_of_H.
  pose proof (haversineH_range a b) as [H0 H1].
  assert (Hs : 0 <= sqrt (haversineH a b) <= 1).
  { split; [apply sqrt_pos|]. rewrite <- sqrt_1. apply sqrt_le_1; lra. }
  pose proof (asin_nonneg _ Hs). lra.
Qed.

Lemma haversine_sym (a b : @Location R) : haversine a b = haversine b a.
Proof.
  rewrite !(haversine_textbook _ _ (haversineH_range _ _)), !textbook_of_H.
  now rewrite haversineH_sym.
Qed.

Lemma leR_true (a b : R) : leR a b = true <-> a <= b.
Proof. unfold leR. destruct (Rle_dec a b); split; auto; discriminate. Qed.

(** X19. In exact arithmetic the distance is symmetric, zero from a place
    to itself, never negative and at most half the circumference of the
    sphere, pi * 6 371 000 m, whatever the coordinates; so
    [areLocationsNearby] does not depend on the order of the two places,
    and a place is near itself for every distance that is not negative. *)
Theorem haversine_is_a_distance (a b : @Location R) (maxDistanceMeters : R) :
  haversine a b = haversine b a /\
  haversine a a = 0 /\
  0 <= haversine a b <= PI * 6371000 /\
  areLocationsNearby a b maxDistanceMeters
  = areLocationsNearby b a maxDistanceMeters /\
  (areLocationsNearby a a maxDistanceMeters = true <-> 0 <= maxDistanceMeters).
Proof.
  split; [apply haversine_sym|].
  split; [apply haversine_same_place|].
  split; [apply haversine_range|].
  unfold areLocationsNearby. cbv zeta.
  change (calculateDistance a b) with (haversine a b).
  change (calculateDistance b a) with (haversine b a).
  change (calculateDistance a a) with (haversine a a).
  split; [now rewrite haversine_sym|].
  rewrite haversine_same_place. apply leR_true.
Qed.

Lemma ltR_false (a b : R) : ltR a b = false <-> b <= a.
Proof.
  unfold ltR. destruct (Rlt_dec a b); split; auto; try discriminate; lra.
Qed.

Lemma roundR_bounds (x : R) : x - / 2 < IZR (roundR x) <= x + / 2.
Proof.
  unfold roundR. rewrite minus_IZR.
  pose proof (archimed (x + / 2)) as [Hgt Hle]. lra.
Qed.

(** X20. In exact arithmetic every duplicate that the detector returns
    carries a [distance_m] that is not negative and is at most the radius
    rounded: at most 120 with the default radius. *)
Theorem duplicates_are_within_the_radius (rows : list (@Row R))
  (location : @Location R) (radiusMeters : option R)
  (result : list PotentialDuplicate) :
  findPotentialDuplicates (Ok rows) location radiusMeters = Ok result ->
  forall d, In d result ->
    (0 <= distance_m d)%Z /\
    IZR (distance_m d)
    <= match radiusMeters with Some r => r | None => 120 end + / 2 /\
    (radiusMeters = None -> (distance_m d <= 120)%Z).
Proof.
  intros Hrun d Hd.
  assert (Hres : result
                 = firstn 5 (sortBy distance_m
                     (candidatesOf location
                        match radiusMeters with Some r => r | None => lit 120 end
                        rows)))
    by (unfold findPotentialDuplicates in Hrun; congruence).
  rewrite Hres in Hd. clear Hrun Hres. apply In_firstn in Hd.
  apply sortBy_In in Hd. rewrite candidatesOf_filter in Hd.
  apply in_map_iff in Hd. destruct Hd as (row & <- & Hrow).
  apply filter_In in Hrow. destruct Hrow as [_ Hin].
  unfold withinRadius in Hin. apply leR_true in Hin.
  cbn [asDuplicate distance_m].
  set (dist := haversine location (rowLocation row)) in *.
  pose proof (haversine_range location (rowLocation row)) as Hrange.
  fold dist in Hrange.
  pose proof (roundR_bounds dist) as [Hlo Hhi].
  change (nround dist) with (roundR dist).
  assert (Hradius : match radiusMeters with Some r => r | None => lit 120 end
                    = match radiusMeters with Some r => r | None => 120 end)
    by (destruct radiusMeters; [reflexivity | apply lit_IZR]).
  rewrite Hradius in Hin.
  split; [|split].
  - assert (Hz : IZR (-1) < IZR (roundR dist))
      by (change (IZR (-1)) with (-1); lra).
    apply lt_IZR in Hz. lia.
  - lra.
  - intros ->. assert (Hz : IZR (roundR dist) < IZR 121) by
      (change (IZR 121) with 121; lra).
    apply lt_IZR in Hz. lia.
Qed.

(** X21. In exact arithmetic the narrower checks imply the one that
    [POST /reports] applies: coordinates inside the service area of the
    locations route or its Surigao City box, or accepted by
    [validateSurigaoCityLocation], are valid coordinates, pass
    [validatePhilippinesLocation], and are accepted by
    [LocationValidator.validateLocation]. *)
Theorem narrower_checks_imply_the_validator (lat lng : R) :
  isWithinServiceArea lat lng = true \/
  isWithinsurigaoCity lat lng = true \/
  validateSurigaoCityLocation (mkLocation lat lng) = true ->
  isValidCoordinate lat lng = true /\
  validatePhilippinesLocation (mkLocation lat lng) = true /\
  Server.validateLocation (Some (Some lat, Some lng))
  = Ok (mkLocation lat lng).
Proof.
  intros Hin.
  assert (Hbox : 5 <= lat <= 21 /\ 117 <= lng <= 126 \/
                 validatePhilippinesLocation (mkLocation lat lng) = true
                 /\ 96 / 10 <= lat <= 99 / 10
                 /\ 1253 / 10 <= lng <= 1256 / 10).
  { destruct Hin as [Hin|[Hin|Hin]].
    - left. unfold isWithinServiceArea, nge, serviceSouth, serviceNorth,
        serviceWest, serviceEast in Hin. rewrite !lit_IZR in Hin.
      cbn [nle ideal] in Hin. rewrite !andb_true_iff, !leR_true in Hin. lra.
    - left. unfold isWithinsurigaoCity, nge, surigaoSouth, surigaoNorth,
        surigaoWest, surigaoEast in Hin. rewrite !lit_IZR in Hin.
      cbn [nle ndec ideal] in Hin. rewrite !andb_true_iff, !leR_true in Hin.
      unfold decR in Hin. simpl in Hin. lra.
    - right. unfold validateSurigaoCityLocation, nge in Hin.
      cbn [nle ndec ideal latitude longitude] in Hin.
      rewrite !andb_true_iff, !leR_true in Hin.
      destruct Hin as ((((Hp & H1) & H2) & H3) & H4).
      split; [exact Hp|]. unfold decR in *. simpl in *. lra. }
  assert (Hll : 5 <= lat <= 21 /\ 117 <= lng <= 126 \/
                4 <= lat <= 21 /\ 116 <= lng <= 127
                /\ 96 / 10 <= lat <= 99 / 10 /\ 1253 / 10 <= lng <= 1256 / 10).
  { destruct Hbox as [Hb|(Hp & Hb)]; [now left | right].
    unfold validatePhilippinesLocation, nge in Hp. rewrite !lit_IZR in Hp.
    cbn [nle ideal latitude longitude] in Hp.
    rewrite !andb_true_iff, !leR_true in Hp.
    destruct Hp as ((((_ & ?) & ?) & ?) & ?). repeat split; lra. }
  assert (Hlat : 45 / 10 <= lat <= 21) by (destruct Hll; lra).
  assert (Hlng : 117 <= lng <= 126) by (destruct Hll; lra).
  clear Hin Hbox Hll.
  split; [|split].
  - unfold isValidCoordinate, nge. rewrite !lit_IZR. cbn [nle nisNaN ideal negb].
    rewrite !andb_true_iff, !leR_true. lra.
  - unfold validatePhilippinesLocation, Geo.validateLocation, nge.
    rewrite !lit_IZR. cbn [nle ideal latitude longitude].
    rewrite !andb_true_iff, !leR_true. lra.
  - unfold Server.validateLocation, validateCoordinates, isWithinPhilippines,
      boundsSouth, boundsNorth, boundsWest, boundsEast.
    rewrite !lit_IZR. cbn [nle nlt nisNaN ndec ideal orb].
    assert (H1 : ltR lat (-90) = false) by (apply ltR_false; lra).
    assert (H2 : ltR 90 lat = false) by (apply ltR_false; lra).
    assert (H3 : ltR lng (-180) = false) by (apply ltR_false; lra).
    assert (H4 : ltR 180 lng = false) by (apply ltR_false; lra).
    rewrite H1, H2, H3, H4. cbn [orb].
    assert (H5 : leR (decR 45 (-1)) lat = true)
      by (apply leR_true; unfold decR; simpl; lra).
    assert (H6 : leR lat (decR 215 (-1)) = true)
      by (apply leR_true; unfold decR; simpl; lra).
    assert (H7 : leR (decR 1169 (-1)) lng = true)
      by (apply leR_true; unfold decR; simpl; lra).
    assert (H8 : leR lng (decR 1266 (-1)) = true)
      by (apply leR_true; unfold decR; simpl; lra).
    rewrite H5, H6, H7, H8. reflexivity.
Qed.

End GeoIdeal.

(** ** The duplicate detector in exact arithmetic *)



Module DetectorIdeal.
Import Reals Lra.
Import Server Ideal IdealFacts GeoIdeal.
Local Open Scope R_scope.

(** In exact arithmetic the code's distance is the textbook one. *)
Lemma haversine_exact (a b : @Location R) :
  haversine a b = haversineTextbook a b.
Proof. apply haversine_textbook, haversineH_range. Qed.


(** On one meridian the distance is the arc of the difference in
    latitude. *)
Lemma haversine_meridian (a b : @Location R) :
  longitude a = longitude b ->
  0 <= latitude b - latitude a <= 180 ->
  haversine a b = 6371000 * ((latitude b - latitude a) * PI / 180).
Proof.
  intros Hlon Hlat. pose proof PI_RGT_0 as Hpi.
  set (x := (latitude b - latitude a) * PI / 180 / 2).
  assert (Hx : 0 <= x <= PI / 2).
  { unfold x. split.
    - apply Rmult_le_pos; [|lra]. apply Rmult_le_pos; [|lra].
      apply Rmult_le_pos; lra.
    - assert ((latitude b - latitude a) * PI <= 180 * PI)
        by (apply Rmult_le_compat_r; lra).
      lra. }
  assert (Hh : haversineH a b = (sin x)²).
  { rewrite haversineH_ideal. fold x. rewrite Hlon.
    replace ((longitude b - longitude b) * PI / 180 / 2) with 0 by lra.
    rewrite sin_0. unfold Rsqr. lra. }
  rewrite haversine_exact. unfold haversineTextbook. cbv zeta.
  rewrite <- haversineH_ideal, Hh.
  rewrite sqrt_Rsqr by (apply sin_ge_0; lra).
  rewrite asin_sin by lra. unfold x. lra.
Qed.

Lemma spot_distance (k : string) :
  haversine newPlace (rowLocation (spot k)) = 6371 * PI / 180.
Proof.
  rewrite haversine_meridian.
  - unfold newPlace, spot, rowLocation, decR. simpl. lra.
  - reflexivity.
  - unfold newPlace, spot, rowLocation, decR. simpl. lra.
Qed.

Lemma nearer_distance :
  haversine newPlace (rowLocation nearer) = 6339145 / 1000 * PI / 180.
Proof.
  rewrite haversine_meridian.
  - unfold newPlace, nearer, rowLocation, decR. simpl. lra.
  - reflexivity.
  - unfold newPlace, nearer, rowLocation, decR. simpl. lra.
Qed.

(** Six reports that are all reported at 111 m. *)
Lemma six_reports_at_111 :
  findPotentialDuplicates (Ok (crowd ++ [nearer])) newPlace None
  = Ok (map (fun k => mkDuplicate k "Pothole on the corner" 111
                        "2025-09-23T08:00:00Z")
          ["r-1"; "r-2"; "r-3"; "r-4"; "r-5"]) /\
  haversine newPlace (rowLocation nearer) <= 120 /\
  roundR (haversine newPlace (rowLocation nearer)) = 111%Z /\
  (forall row, In row crowd ->
     haversine newPlace (rowLocation nearer)
     < haversine newPlace (rowLocation row)).
Proof.
  pose proof PI_bounds as [Hlo Hup].
  assert (Hspot : forall k,
            withinRadius newPlace (lit 120) (spot k) = true /\
            asDuplicate newPlace (spot k)
            = mkDuplicate k "Pothole on the corner" 111 "2025-09-23T08:00:00Z").
  { intros k. unfold withinRadius, asDuplicate.
    rewrite spot_distance, lit_IZR. cbn [nle nround ideal]. split.
    - apply leR_true. lra.
    - rewrite (roundR_between _ 111); [reflexivity | lra]. }
  assert (Hnear : withinRadius newPlace (lit 120) nearer = true /\
                  asDuplicate newPlace nearer
                  = mkDuplicate "r-6" "Pothole by the gate" 111
                                "2025-09-23T09:00:00Z").
  { unfold withinRadius, asDuplicate.
    rewrite nearer_distance, lit_IZR. cbn [nle nround ideal]. split.
    - apply leR_true. lra.
    - rewrite (roundR_between _ 111); [reflexivity | lra]. }
  split; [|split; [|split]].
  - unfold findPotentialDuplicates. rewrite candidatesOf_filter.
    unfold crowd. cbn [map app filter].
    rewrite !(proj1 (Hspot _)), (proj1 Hnear). cbn [map].
    rewrite !(proj2 (Hspot _)), (proj2 Hnear). reflexivity.
  - rewrite nearer_distance. lra.
  - rewrite nearer_distance. apply roundR_between. lra.
  - intros row Hrow. unfold crowd in Hrow. apply in_map_iff in Hrow.
    destruct Hrow as (k & <- & _). rewrite nearer_distance, spot_distance. lra.
Qed.

(** C4. [findPotentialDuplicates] sorts by the rounded [distance_m], not
    by the distance, so the five it returns need not be the five closest.
    Five reports 111.19 m from the new one come first in the query and a
    sixth at 110.64 m comes last: all six are within the default radius of
    120 m and are reported at 111 m, the sort leaves them in the order of
    the query, and the five returned do not include the sixth, which is
    strictly closer than each of them (in exact arithmetic, where the
    code's distance is the textbook haversine distance). *)
Theorem closer_report_left_out :
  findPotentialDuplicates (Ok (crowd ++ [nearer])) newPlace None
  = Ok (map (fun k => mkDuplicate k "Pothole on the corner" 111
                        "2025-09-23T08:00:00Z")
          ["r-1"; "r-2"; "r-3"; "r-4"; "r-5"]) /\
  In nearer (crowd ++ [nearer]) /\
  haversineTextbook newPlace (rowLocation nearer) <= 120 /\
  roundR (haversineTextbook newPlace (rowLocation nearer)) = 111%Z /\
  (forall row, In row crowd ->
     haversineTextbook newPlace (rowLocation nearer)
     < haversineTextbook newPlace (rowLocation row)) /\
  (forall row, In row (crowd ++ [nearer]) ->
     haversine newPlace (rowLocation row)
     = haversineTextbook newPlace (rowLocation row)).
Proof.
  destruct six_reports_at_111 as (Hrun & Hin & Hround & Hcloser).
  split; [exact Hrun|]. split; [apply in_or_app; right; now left|].
  rewrite <- !haversine_exact. split; [exact Hin|]. split; [exact Hround|].
  split.
  - intros row Hrow. rewrite <- haversine_exact. now apply Hcloser.
  - intros row _. apply haversine_exact.
Qed.

End DetectorIdeal.

(** ** Creating and listing reports *)

Section Submissions.
Context {num : Type} `{JsNumber num}.
Import Server.

(** The handler alone: a body that fails a validation is answered 400
    without consulting the detector or the database; a body that passes
    every validation is answered by the outcome of [ReportModel.create]. *)
Lemma postReportsHandler_statuses (Report : Type)
  (detect : Location -> Res (list PotentialDuplicate))
  (create : CreateReportInput -> Res Report) (ip : string)
  (body : ReportBody) :
  if validSubmission body
  then exists reportData,
         reporter_ip reportData = ip /\
         postReportsHandler detect create ip body
         = match create reportData with
           | Ok report =>
               let duplicates :=
                 match detect (in_location reportData) with
                 | Ok found => found
                 | Err _ => []
                 end in
               mkResponse 201
                 (Created report duplicates (createdMessage duplicates))
           | Err _ =>
               mkResponse 500
                 (Failure Report "Internal server error"
                    "Failed to create report")
           end
  else status (postReportsHandler detect create ip body) = 400%nat /\
       forall (detect' : Location -> Res (list PotentialDuplicate))
              (create' : CreateReportInput -> Res Report),
         postReportsHandler detect' create' ip body
         = postReportsHandler detect create ip body.
Proof.
  unfold validSubmission, postReportsHandler, nonEmpty.
  destruct (category body) as [cat|]; [|cbn; auto].
  destruct (String.eqb cat ""); [cbn; auto|].
  destruct (body_description body) as [desc|]; [|cbn; auto].
  destruct (String.eqb desc ""); [cbn; auto|].
  destruct (location body) as [raw|] eqn:Hraw.
  2:{ cbn. auto. }
  destruct (validateReportCategory cat); cbn [negb andb].
  2:{ destruct (validateLocation (Some raw)); cbn; auto. }
  destruct (validateDescription desc); cbn [negb andb].
  2:{ destruct (validateLocation (Some raw)); cbn; auto. }
  destruct (validateLocation (Some raw)) as [loc|e]; [|cbn; auto].
  exists (mkInput cat desc loc (address body) (photo_url body)
                  (photo_public_id body) ip).
  split; [reflexivity|]. cbn [in_location].
  destruct (create _); reflexivity.
Qed.

(** X22. The route [POST /reports], [reportRateLimit] followed by the
    handler, answers 429, 400, 201 or 500 and nothing else. It answers 429
    "Rate limit exceeded" exactly when the request is not privileged and
    the limiter has counted more than [HOURLY_LIMIT] = 5 requests of the
    client in the window, whatever the body: the handler does not run.
    Otherwise a body that fails a validation is answered 400 whatever the
    detector and the database would do, and a body that passes every
    validation is answered by the outcome of [ReportModel.create] alone:
    201 with the report and the duplicates found (none when the detector
    fails), or 500 "Failed to create report". *)
Theorem postReports_statuses (Report : Type)
  (detect : Location -> Res (list PotentialDuplicate))
  (create : CreateReportInput -> Res Report) (totalHits : nat)
  (req : Request) :
  if negb (isPrivileged req) && (5 <? totalHits)%nat
  then postReports detect create totalHits req
       = mkResponse 429
           (RateLimited Report "Rate limit exceeded"
              "Maximum 5 reports per hour allowed" "1 hour") /\
       forall (detect' : Location -> Res (list PotentialDuplicate))
              (create' : CreateReportInput -> Res Report) (req' : Request),
         isPrivileged req' = false ->
         postReports detect' create' totalHits req'
         = postReports detect create totalHits req
  else if validSubmission (req_body req)
  then exists reportData,
         reporter_ip reportData = req_ip req /\
         postReports detect create totalHits req
         = match create reportData with
           | Ok report =>
               let duplicates :=
                 match detect (in_location reportData) with
                 | Ok found => found
                 | Err _ => []
                 end in
               mkResponse 201
                 (Created report duplicates (createdMessage duplicates))
           | Err _ =>
               mkResponse 500
                 (Failure Report "Internal server error"
                    "Failed to create report")
           end
  else status (postReports detect create totalHits req) = 400%nat /\
       forall (detect' : Location -> Res (list PotentialDuplicate))
              (create' : CreateReportInput -> Res Report),
         postReports detect' create' totalHits req
         = postReports detect create totalHits req.
Proof.
  assert (Hroute : forall (detect0 : Location -> Res (list PotentialDuplicate))
                          (create0 : CreateReportInput -> Res Report)
                          (req0 : Request),
            postReports detect0 create0 totalHits req0
            = if negb (isPrivileged req0) && (5 <? totalHits)%nat
              then mkResponse 429
                     (RateLimited Report "Rate limit exceeded"
                        "Maximum 5 reports per hour allowed" "1 hour")
              else postReportsHandler detect0 create0 (req_ip req0)
                     (req_body req0)).
  { intros detect0 create0 req0.
    unfold postReports, reportRateLimit, baseReportLimiter, HOURLY_LIMIT.
    destruct (isPrivileged req0); cbn [negb andb]; [reflexivity|].
    destruct (5 <? totalHits)%nat; reflexivity. }
  destruct (negb (isPrivileged req) && (5 <? totalHits)%nat) eqn:Hlimited.
  - split; [now rewrite Hroute, Hlimited|].
    intros detect' create' req' Hplain. rewrite !Hroute, Hlimited, Hplain.
    apply andb_true_iff in Hlimited. destruct Hlimited as [_ ->].
    reflexivity.
  - pose proof (postReportsHandler_statuses Report detect create (req_ip req)
                  (req_body req)) as Hhandler.
    destruct (validSubmission (req_body req)).
    + destruct Hhandler as (reportData & Hip & Hrun).
      exists reportData. split; [exact Hip|]. now rewrite Hroute, Hlimited.
    + destruct Hhandler as [Hstatus Hsame].
      split; [now rewrite Hroute, Hlimited|].
      intros detect' create'. rewrite !Hroute, Hlimited. apply Hsame.
Qed.

End Submissions.

Section Listings.
Import Listing.
Variable Report : Type.
Variable parseInt : string -> option Z.

Lemma maxReportsLimit_positive (env : Environment) :
  1 <= maxReportsLimit parseInt env.
Proof.
  unfold maxReportsLimit. cbv zeta.
  assert (Hf : 1 <= match NODE_ENV env with
                    | Some mode => if String.eqb mode "development" then 5 else 100
                    | None => 100
                    end).
  { destruct (NODE_ENV env) as [mode|]; [destruct (String.eqb mode _)|]; lia. }
  destruct (match Server.nonEmpty (REPORTS_MAX_LIMIT env) with
            | Some text => parseInt text
            | None => None
            end) as [m|]; [|exact Hf].
  destruct (Z.eqb_spec m 0); cbn [negb andb]; [exact Hf|].
  destruct (Z.ltb_spec 0 m); [lia | exact Hf].
Qed.

(** X23. [GET /reports] never asks the database for more than
    [MAX_REPORTS_LIMIT] rows, and that maximum is at least 1 whatever the
    environment says. On a 200 the limit applied is between 1 and the
    maximum and is not above the limit requested, the offset is not
    negative, and [hasMore] says whether rows remain after the page. The
    answer depends on [ReportModel.findMany] only through filters with a
    known category and status, such a limit and such an offset; the other
    answers are 400 and 500. *)
Theorem getReports_pages (env : Environment)
  (findMany : ReportFilter -> Res (list Report * Z)) (query : ReportsQuery) :
  1 <= maxReportsLimit parseInt env /\
  match getReports parseInt env findMany query with
  | mkListResponse code
      (ListSuccess reports total limit offset hasMore maxLimit requested applied) =>
      code = 200%nat /\
      maxLimit = maxReportsLimit parseInt env /\
      1 <= applied <= maxLimit /\ applied <= requested /\ limit = applied /\
      0 <= offset /\ hasMore = (offset + applied <? total)
  | mkListResponse code (ListFailure _ _ _) => code = 400%nat \/ code = 500%nat
  end /\
  forall findMany' : ReportFilter -> Res (list Report * Z),
    (forall filter, pageFilter (maxReportsLimit parseInt env) filter ->
       findMany' filter = findMany filter) ->
    getReports parseInt env findMany' query
    = getReports parseInt env findMany query.
Proof.
  pose proof (maxReportsLimit_positive env) as Hmax.
  split; [exact Hmax|].
  unfold getReports. cbv zeta.
  set (MAX := maxReportsLimit parseInt env) in *.
  destruct (Server.nonEmpty (q_category query)) as [category|] eqn:Hc.
  - destruct (Server.validateReportCategory category) eqn:Hvc; cbn [negb];
      [|split; [now left | reflexivity]].
    destruct (Server.nonEmpty (q_status query)) as [status|] eqn:Hs.
    + destruct (validateReportStatus status) eqn:Hvs; cbn [negb];
        [|split; [now left | reflexivity]].
      destruct (parseInt match q_limit query with Some t => t | None => "20" end)
        as [limitNum|]; [|split; [now left | reflexivity]].
      destruct (Z.ltb_spec limitNum 1); [split; [now left | reflexivity]|].
      destruct (parseInt match q_offset query with Some t => t | None => "0" end)
        as [offsetNum|]; [|split; [now left | reflexivity]].
      destruct (Z.ltb_spec offsetNum 0); [split; [now left | reflexivity]|].
      split.
      * destruct (findMany _) as [[reports total]|e]; [|now right].
        repeat split; lia.
      * intros findMany' Hsame. rewrite Hsame; [reflexivity|].
        unfold pageFilter. cbn. repeat split.
        -- now intros c [= <-].
        -- now intros s [= <-].
        -- eexists. split; [reflexivity | lia].
        -- eexists. split; [reflexivity | lia].
    + destruct (parseInt match q_limit query with Some t => t | None => "20" end)
        as [limitNum|]; [|split; [now left | reflexivity]].
      destruct (Z.ltb_spec limitNum 1); [split; [now left | reflexivity]|].
      destruct (parseInt match q_offset query with Some t => t | None => "0" end)
        as [offsetNum|]; [|split; [now left | reflexivity]].
      destruct (Z.ltb_spec offsetNum 0); [split; [now left | reflexivity]|].
      split.
      * destruct (findMany _) as [[reports total]|e]; [|now right].
        repeat split; lia.
      * intros findMany' Hsame. rewrite Hsame; [reflexivity|].
        unfold pageFilter. cbn. repeat split.
        -- now intros c [= <-].
        -- discriminate.
        -- eexists. split; [reflexivity | lia].
        -- eexists. split; [reflexivity | lia].
  - destruct (Server.nonEmpty (q_status query)) as [status|] eqn:Hs.
    + destruct (validateReportStatus status) eqn:Hvs; cbn [negb];
        [|split; [now left | reflexivity]].
      destruct (parseInt match q_limit query with Some t => t | None => "20" end)
        as [limitNum|]; [|split; [now left | reflexivity]].
      destruct (Z.ltb_spec limitNum 1); [split; [now left | reflexivity]|].
      destruct (parseInt match q_offset query with Some t => t | None => "0" end)
        as [offsetNum|]; [|split; [now left | reflexivity]].
      destruct (Z.ltb_spec offsetNum 0); [split; [now left | reflexivity]|].
      split.
      * destruct (findMany _) as [[reports total]|e]; [|now right].
        repeat split; lia.
      * intros findMany' Hsame. rewrite Hsame; [reflexivity|].
        unfold pageFilter. cbn. repeat split.
        -- discriminate.
        -- now intros s [= <-].
        -- eexists. split; [reflexivity | lia].
        -- eexists. split; [reflexivity | lia].
    + destruct (parseInt match q_limit query with Some t => t | None => "20" end)
        as [limitNum|]; [|split; [now left | reflexivity]].
      destruct (Z.ltb_spec limitNum 1); [split; [now left | reflexivity]|].
      destruct (parseInt match q_offset query with Some t => t | None => "0" end)
        as [offsetNum|]; [|split; [now left | reflexivity]].
      destruct (Z.ltb_spec offsetNum 0); [split; [now left | reflexivity]|].
      split.
      * destruct (findMany _) as [[reports total]|e]; [|now right].
        repeat split; lia.
      * intros findMany' Hsame. rewrite Hsame; [reflexivity|].
        unfold pageFilter. cbn. repeat split.
        -- discriminate.
        -- discriminate.
        -- eexists. split; [reflexivity | lia].
        -- eexists. split; [reflexivity | lia].
Qed.

(** X24. The SQL text of [ReportModel.findMany] depends only on which of
    the two filters are given, never on their values: the values travel as
    parameters, in the order category, status, and are followed by the limit
    (20 when none or 0 is given) and the offset (0 when none is given). *)
Theorem findMany_sql_ignores_values :
  exists text : bool -> bool -> string * string,
  forall filter : ReportFilter,
    (sql_text (fst (findManyQueries filter)),
     sql_text (snd (findManyQueries filter)))
    = text (given (f_category filter)) (given (f_status filter)) /\
    sql_params (fst (findManyQueries filter)) = givenValues filter /\
    sql_params (snd (findManyQueries filter))
    = givenValues filter
      ++ [SqlNumber (orElse (f_limit filter) 20);
          SqlNumber (orElse (f_offset filter) 0)].
Proof.
  exists (fun c s : bool =>
            let filter := mkFilter (if c then Some "c" else None)
                                   (if s then Some "s" else None) None None in
            (sql_text (fst (findManyQueries filter)),
             sql_text (snd (findManyQueries filter)))).
  intros filter. unfold findManyQueries, whereOf, given, givenValues.
  cbn [f_category f_status f_limit f_offset].
  destruct (Server.nonEmpty (f_category filter)) as [category|];
    destruct (Server.nonEmpty (f_status filter)) as [status|];
    cbn; repeat split.
Qed.

End Listings.

(** ** The sync manager *)

Section SyncFacts.
Import Sync.
Variable ReportFormData : Type.
Variable env : Env ReportFormData.
Variable patience : nat -> nat.
Local Abbreviation World := (World ReportFormData).
Local Abbreviation Client := (Client ReportFormData).

(** [getQueueStatus] never rejects. *)
Lemma getQueueStatus_ok (w : World) :
  exists s, fst (getQueueStatus env w) = Ok s.
Proof.
  unfold getQueueStatus, tryCatch, ret.
  match goal with
  | |- context [match ?m w with _ => _ end] => destruct (m w) as [[s|e] w1]
  end; eexists; reflexivity.
Qed.

Lemma reportOutcome_run (started : Z) (s : QueueStatus) (c : Client) :
  exists c' outcome,
    reportOutcome env started s c = (Ok tt, c') /\
    running c' = running c /\
    manager c' = announce outcome (setLastSyncTime started (manager c)) /\
    match outcome with
    | OperationCompleted _ _ | OperationFailedItems _ _ _ => True
    | _ => False
    end.
Proof.
  unfold reportOutcome. unfold bind at 1. unfold onQueue at 1.
  destruct (getQueueStatus_ok (queue c)) as [s' Hs'].
  destruct (getQueueStatus env (queue c)) as [r' w5]. cbn [fst] in Hs'.
  subst r'.
  unfold bind, onQueue, onManager, DateNow, ask, modify, emit, onManager,
    modify.
  cbn [fst snd queue running manager].
  destruct (errors s') as [|e1 errs]; cbn [fst snd queue running manager];
    eexists; eexists; (split; [reflexivity|]); (split; [reflexivity|]);
    (split; [reflexivity|]); exact I.
Qed.

(** What one operation leaves behind, in each of its three courses:
    nothing pending, the queue cycle returned in time, the timer fired. *)
Lemma executeSyncOperation_courses (c : Client) :
  let started := dateNow env (tick (queue c)) in
  let m1 := setCurrentSyncPromise true (announce OperationStarted (manager c)) in
  let status := fst (getQueueStatus env (setTick (S (tick (queue c))) (queue c))) in
  exists c' report,
    executeSyncOperation env patience c = (report, c') /\
    ((exists s, status = Ok s /\ pending s = 0%nat) /\
     report = Ok tt /\
     log (queue c') = log (queue c) /\
     offlineQueue (queue c') = offlineQueue (queue c) /\
     running c' = running c /\
     manager c'
     = (let m2 := announce (OperationCompleted 0 0) (setLastSyncTime started m1) in
        let m3 := announce (StatusUpdated (getStatus m2)) m2 in
        announce (StatusUpdated (getStatus m3)) m3)
     \/
     (exists s, status = Ok s /\ pending s <> 0%nat) /\
     ((exists outcome,
         report = Ok tt /\
         manager c'
         = (let m2 := announce outcome (setLastSyncTime started m1) in
            announce (StatusUpdated (getStatus m2)) m2) /\
         match outcome with
         | OperationCompleted _ _ | OperationFailedItems _ _ _ => True
         | _ => False
         end)
      \/
      (exists duration,
         report = Err (ErrorObj "Sync timeout") /\
         running c' <> None /\
         manager c'
         = (let m2 := announce (OperationFailed "Sync timeout" duration) m1 in
            announce (StatusUpdated (getStatus m2)) m2)))).
Proof.
  intros started m1 status.
  unfold executeSyncOperation.
  unfold bind at 1. unfold onQueue at 1. unfold DateNow, ask.
  cbn [fst snd queue running manager].
  fold started.
  set (w1 := setTick (S (tick (queue c))) (queue c)) in *.
  unfold tryFinally, tryCatch.
  unfold bind at 1 2. unfold emit at 1, onManager at 1, modify at 1.
  unfold onManager at 1, modify at 1.
  cbn [fst snd queue running manager]. fold m1.
  unfold bind at 1. unfold onQueue at 1. cbn [queue running manager].
  destruct (getQueueStatus_ok w1) as [s Hs].
  pose proof (getQueueStatus_frame _ env w1) as (Hq & _ & _ & _ & Hl).
  subst status. rewrite Hs.
  destruct (getQueueStatus env w1) as [r w2] eqn:Hrun.
  cbn [fst snd] in Hs, Hq, Hl. subst r.
  destruct (Nat.eqb_spec (pending s) 0) as [Hz|Hnz].
  - (* nothing pending *)
    unfold bind, onManager, emit, emitStatusUpdate, onManager, modify.
    cbn [fst snd queue running manager].
    eexists. eexists. split; [reflexivity|]. left.
    cbn [queue running manager].
    split; [exists s; auto|].
    split; [reflexivity|]. split; [exact Hl|]. split; [exact Hq|].
    split; reflexivity.
  - (* a cycle is started *)
    unfold bind at 1. unfold raceWithTimeout. cbn [queue running manager].
    destruct (enterCycle w2) as [started' w3].
    assert (Hwon : forall w4 : World,
      exists c' report,
        (let (r, w') :=
           let (r, w') :=
             reportOutcome env started s (mkClient w4 (running c) m1) in
           match r with
           | Ok a => (Ok a, w')
           | Err e => operationFailed env started e w'
           end in
         (r, snd (emitStatusUpdate w'))) = (report, c') /\
        exists outcome,
          report = Ok tt /\
          manager c'
          = (let m2 := announce outcome (setLastSyncTime started m1) in
             announce (StatusUpdated (getStatus m2)) m2) /\
          match outcome with
          | OperationCompleted _ _ | OperationFailedItems _ _ _ => True
          | _ => False
          end).
    { intros w4.
      destruct (reportOutcome_run started s (mkClient w4 (running c) m1))
        as (c4 & outcome & Hrun4 & _ & Hm & Hkind).
      rewrite Hrun4. unfold emitStatusUpdate, onManager, modify.
      cbn [fst snd manager]. rewrite Hm. cbn [manager].
      eexists. eexists. split; [reflexivity|]. exists outcome.
      split; [reflexivity|]. split; [reflexivity | exact Hkind]. }
    destruct started' as [cycle|].
    + destruct (resumeFor env (patience (tick w3)) (Some cycle) w3)
        as [[left|] w4].
      * (* the timer fired *)
        unfold operationFailed.
        unfold bind, onQueue, onManager, DateNow, ask, modify, emit, throw,
          emitStatusUpdate, onManager, modify.
        cbn [fst snd queue running manager messageOr].
        eexists. eexists. split; [reflexivity|]. right.
        split; [exists s; auto|]. right. eexists.
        split; [reflexivity|]. cbn [running manager].
        split; [discriminate | reflexivity].
      * destruct (Hwon w4) as (c' & report & Hrun' & Hres).
        exists c', report. split; [exact Hrun'|]. right.
        split; [exists s; auto|]. left. exact Hres.
    + destruct (Hwon w3) as (c' & report & Hrun' & Hres).
      exists c', report. split; [exact Hrun'|]. right.
      split; [exists s; auto|]. left. exact Hres.
Qed.

(** [performSync] when no operation is under way and the network is not
    known to be down. *)
Lemma performSync_run (c : Client) :
  currentSyncPromise (manager c) = false ->
  networkStatus (manager c) <> offline ->
  performSync env patience c
  = (let (report, c1) := executeSyncOperation env patience c in
     (match report with Ok _ => Ok Ran | Err e => Err e end,
      mkClient (queue c1) (running c1)
               (setCurrentSyncPromise false (manager c1)))).
Proof.
  intros Hidle Hnet. unfold performSync.
  unfold bind at 1. unfold gets at 1. cbn [fst snd]. rewrite Hidle.
  unfold bind at 1. unfold gets at 1. cbn [fst snd].
  assert (Hrun : tryFinally (executeSyncOperation env patience ;;; ret Ran)
             (fun c0 => snd (onManager (setCurrentSyncPromise false) c0)) c
           = (let (report, c1) := executeSyncOperation env patience c in
              (match report with Ok _ => Ok Ran | Err e => Err e end,
               mkClient (queue c1) (running c1)
                 (setCurrentSyncPromise false (manager c1))))).
  { unfold tryFinally, bind, ret, onManager, modify.
    destruct (executeSyncOperation env patience c) as [[[]|e] c1];
      reflexivity. }
  destruct (networkStatus (manager c)); [exact Hrun | congruence | exact Hrun].
Qed.

(** X25. [SyncManager.forceSync] rejects in three ways only: with "Sync
    manager is not enabled" when the manager is stopped and with "Cannot
    sync while offline" when the network is known to be down, both before
    anything is touched, and with "Sync timeout" when the queue cycle
    outlives [SYNC_TIMEOUT], in which case the cycle stays suspended. No
    failure of the store or of the API rejects it. While an operation is
    under way it starts none and hands back that operation's promise;
    otherwise [currentSyncPromise] is cleared again when it settles. *)
Theorem manager_forceSync_outcomes (c : Client) :
  let (r, c') := Sync.forceSync env patience c in
  match r with
  | Ok Ran =>
      isEnabled (manager c) = true /\
      networkStatus (manager c) <> offline /\
      currentSyncPromise (manager c) = false /\
      currentSyncPromise (manager c') = false
  | Ok Joined => currentSyncPromise (manager c) = true /\ c' = c
  | Err e =>
      (e = ErrorObj "Sync manager is not enabled" /\
       isEnabled (manager c) = false /\ c' = c)
      \/ (e = ErrorObj "Cannot sync while offline" /\
          networkStatus (manager c) = offline /\ c' = c)
      \/ (e = ErrorObj "Sync timeout" /\
          running c' <> None /\
          currentSyncPromise (manager c') = false)
  end.
Proof.
  unfold Sync.forceSync. unfold bind at 1. unfold gets at 1. cbn [fst snd].
  destruct (isEnabled (manager c)) eqn:Hen; cbn [negb].
  2:{ unfold throw. left. auto. }
  unfold bind at 1. unfold gets at 1. cbn [fst snd].
  destruct (currentSyncPromise (manager c)) eqn:Hbusy.
  - assert (Hjoin : performSync env patience c = (Ok Joined, c)).
    { unfold performSync, bind, gets, ret. cbn [fst snd]. now rewrite Hbusy. }
    destruct (networkStatus (manager c)) eqn:Hnet.
    + rewrite Hjoin. auto.
    + unfold throw. right. left. auto.
    + rewrite Hjoin. auto.
  - assert (Hran : networkStatus (manager c) <> offline ->
                   let (r, c') := performSync env patience c in
                   match r with
                   | Ok Ran => currentSyncPromise (manager c') = false
                   | Ok Joined => False
                   | Err e => e = ErrorObj "Sync timeout" /\
                              running c' <> None /\
                              currentSyncPromise (manager c') = false
                   end).
    { intros Hnet. rewrite (performSync_run c Hbusy Hnet).
      destruct (executeSyncOperation_courses c)
        as (c1 & report & Hrun & Hcourse).
      rewrite Hrun.
      destruct Hcourse as [(_ & -> & _)|(_ & [(o & -> & _)|(d & -> & Hleft & _)])];
        cbn [running manager currentSyncPromise setCurrentSyncPromise]; auto. }
    destruct (networkStatus (manager c)) eqn:Hnet.
    + specialize (Hran ltac:(discriminate)).
      destruct (performSync env patience c) as [[[]|e] c'].
      * repeat split; auto; discriminate.
      * contradiction.
      * right. right. exact Hran.
    + unfold throw. right. left. auto.
    + specialize (Hran ltac:(discriminate)).
      destruct (performSync env patience c) as [[[]|e] c'].
      * repeat split; auto; discriminate.
      * contradiction.
      * right. right. exact Hran.
Qed.

(** The fallback of [getQueueStatus] when its first storage request
    fails. *)
Lemma getQueueStatus_fallback (w : World) (m : string) :
  dbFault env (tick w) = Some m ->
  fst (getQueueStatus env w)
  = Ok (mkQueueStatus 0 false None ["Failed to get queue status"%string]).
Proof.
  intros Hf.
  unfold getQueueStatus, db_getQueueItems, db_getSyncStatus, withDB.
  unfold tryCatch, bind, gets, ret, throw, ask.
  cbn [fst snd tick setTick]. now rewrite Hf.
Qed.

(** X26. When the store fails at the first request of [getQueueStatus], a
    sync operation ends as a success with nothing to do, whatever the queue
    holds: [performSync] resolves, no queue cycle is started, the queue is
    as it was, [lastSyncTime] is set to the start of the operation, and the
    events are [sync-started], [sync-completed] with 0 items and two
    [status-updated]. *)
Theorem failing_store_counts_as_synced (c : Client) (m : string) :
  currentSyncPromise (manager c) = false ->
  networkStatus (manager c) <> offline ->
  dbFault env (S (tick (queue c))) = Some m ->
  exists c',
    performSync env patience c = (Ok Ran, c') /\
    offlineQueue (queue c') = offlineQueue (queue c) /\
    log (queue c') = log (queue c) /\
    running c' = running c /\
    lastSyncTime (manager c') = Some (dateNow env (tick (queue c))) /\
    exists st1 st2,
      emitted (manager c')
      = StatusUpdated st2 :: StatusUpdated st1 :: OperationCompleted 0 0
        :: OperationStarted :: emitted (manager c).
Proof.
  intros Hidle Hnet Hf.
  rewrite (performSync_run c Hidle Hnet).
  destruct (executeSyncOperation_courses c) as (c1 & report & Hrun & Hcourse).
  rewrite Hrun.
  cbv zeta in Hcourse.
  rewrite (getQueueStatus_fallback (setTick (S (tick (queue c))) (queue c)) m Hf)
    in Hcourse.
  destruct Hcourse as [(_ & -> & Hl & Hq & Hr & Hm)|((s & [= <-] & Hs) & _)].
  2:{ now contradiction Hs. }
  eexists. split; [reflexivity|].
  cbn [queue running manager]. rewrite Hm.
  repeat (split; [assumption || reflexivity|]).
  eexists. eexists. reflexivity.
Qed.

(** X27. When [performSync] has run an operation, however it ended, the
    newest event is a [status-updated] whose status says [isPending = true]:
    [currentSyncPromise] is cleared only afterwards, and [performSync]
    publishes no further status. A call that finds an operation under way
    or the network down changes nothing. *)
Theorem last_status_update_says_pending (c : Client) :
  if currentSyncPromise (manager c)
  then performSync env patience c = (Ok Joined, c)
  else
    match networkStatus (manager c) with
    | offline =>
        performSync env patience c
        = (Err (ErrorObj "Cannot sync while offline"), c)
    | _ =>
        exists r c' st rest,
          performSync env patience c = (r, c') /\
          r <> Ok Joined /\
          emitted (manager c') = StatusUpdated st :: rest /\
          st_isPending st = true /\
          currentSyncPromise (manager c') = false
    end.
Proof.
  destruct (currentSyncPromise (manager c)) eqn:Hbusy.
  { unfold performSync, bind, gets, ret. cbn [fst snd]. now rewrite Hbusy. }
  assert (Hran : networkStatus (manager c) <> offline ->
    exists r c' st rest,
      performSync env patience c = (r, c') /\
      r <> Ok Joined /\
      emitted (manager c') = StatusUpdated st :: rest /\
      st_isPending st = true /\
      currentSyncPromise (manager c') = false).
  { intros Hnet. rewrite (performSync_run c Hbusy Hnet).
    destruct (executeSyncOperation_courses c) as (c1 & report & Hrun & Hcourse).
    rewrite Hrun.
    destruct Hcourse
      as [(_ & -> & _ & _ & _ & Hm)
         |(_ & [(o & -> & Hm & _)|(d & -> & _ & Hm)])];
      eexists; eexists; eexists; eexists;
      (split; [reflexivity|]); (split; [discriminate|]);
      cbn [queue running manager]; rewrite Hm;
      (split; [reflexivity|]); split; reflexivity. }
  destruct (networkStatus (manager c)) eqn:Hnet.
  - apply Hran. discriminate.
  - unfold performSync, bind, gets, throw. cbn [fst snd].
    now rewrite Hbusy, Hnet.
  - apply Hran. discriminate.
Qed.

End SyncFacts.

(** ** What the user is told when the store fails *)

Section StatusText.
Variable ReportFormData : Type.
Variable env : Env ReportFormData.

(** X28. When the store fails at the first request of [getQueueStatus], the
    status it resolves with reads "All reports synced" through
    [formatQueueStatus] and the sync manager's [isSyncNeeded] answers
    false, whatever the queue holds; the queue itself is not touched. *)
Theorem failing_store_reads_as_synced (w : World ReportFormData)
  (m : string) :
  dbFault env (tick w) = Some m ->
  (exists s,
     fst (getQueueStatus env w) = Ok s /\
     errors s = ["Failed to get queue status"%string] /\
     formatQueueStatus s = "All reports synced"%string) /\
  offlineQueue (snd (getQueueStatus env w)) = offlineQueue w /\
  forall c : Sync.Client ReportFormData,
    Sync.queue c = w -> fst (Sync.isSyncNeeded env c) = Ok false.
Proof.
  intros Hf.
  assert (Hs : getQueueStatus env w
               = (Ok (mkQueueStatus 0 false None
                        ["Failed to get queue status"%string]),
                  snd (getQueueStatus env w))).
  { unfold getQueueStatus, db_getQueueItems, db_getSyncStatus, withDB.
    unfold tryCatch, bind, gets, ret, throw, ask.
    cbn [fst snd tick setTick]. rewrite Hf. reflexivity. }
  split; [|split].
  - eexists. rewrite Hs. cbn [fst]. split; [reflexivity|].
    split; reflexivity.
  - apply (getQueueStatus_frame _ env w).
  - intros c <-. unfold Sync.isSyncNeeded, tryCatch, bind, Sync.onQueue, ret.
    rewrite Hs. reflexivity.
Qed.

End StatusText.

(** ** The properties on concrete queues *)

Module MoreRuns.
Import Scenario Cases.

(** X3 on the empty queue of an idle client. *)
Lemma empty_queue_cycle_run :
  log (snd (processQueue accepting (idle []))) = [Emit SyncStarted] /\
  syncStatus (snd (processQueue accepting (idle []))) = None.
Proof.
  destruct (empty_queue_cycle Payload accepting (idle [])
              Runs.accepting_healthy eq_refl eq_refl eq_refl)
    as (_ & Hl & Hs & _).
  split; assumption.
Defined.

(** X5 for [leak] over five cycles of an API that rejects every report. *)
Lemma attempts_are_bounded_run :
  (attemptsOf "queue_1_a" (log (repeatCycles rejecting 5 (idle [leak; pothole])))
   <= 0 + 3)%nat.
Proof.
  destruct (attempts_are_bounded Payload rejecting (idle [leak; pothole]) 5
              "queue_1_a" Runs.rejecting_healthy
              ltac:(simpl; Runs.distinct_keys))
    as (_ & H & _).
  apply (H leak); [reflexivity | simpl; lia].
Defined.

(** X8 on a queue of two failed items. *)
Lemma status_lists_oldest_failures_run :
  exists s (listed : list (OfflineQueueItem Payload)),
    fst (getQueueStatus rejecting (idle [exhausted; failedOnce])) = Ok s /\
    (List.length listed <= 5)%nat /\
    map (@lastError _) listed = map Some (errors s).
Proof.
  destruct (status_lists_oldest_failures Payload rejecting
              (idle [exhausted; failedOnce]) Runs.rejecting_healthy)
    as (s & listed & Hs & _ & _ & Hn & Hm & _).
  exists s, listed. auto.
Defined.

(** X9 for an id that is not queued and for one that is. *)
Lemma removeFromQueue_deletes_one_run :
  offlineQueue (snd (removeFromQueue accepting "queue_9" (idle [leak])))
  = [leak] /\
  storeGet "queue_1_a"
    (offlineQueue (snd (removeFromQueue accepting "queue_1_a" (idle [leak]))))
  = None.
Proof.
  split.
  - apply (removeFromQueue_deletes_one Payload accepting "queue_9" (idle [leak])
             Runs.accepting_healthy).
    simpl. intuition discriminate.
  - apply (removeFromQueue_deletes_one Payload accepting "queue_1_a"
             (idle [leak]) Runs.accepting_healthy).
Defined.

(** X10: a report enqueued behind [pothole] and removed again. *)
Lemma enqueue_then_remove_run :
  offlineQueue
    (snd (removeFromQueue accepting "queue_1001_k2"
            (snd (addToQueue accepting "Lamp" (idle [pothole])))))
  = [pothole].
Proof.
  apply (enqueue_then_remove Payload accepting "Lamp" (idle [pothole])
           "queue_1001_k2" Runs.accepting_healthy).
  reflexivity.
Defined.

(** X11 after [clearQueue] and after [removeFromQueue] on [leak; pothole]. *)
Lemma sync_status_follows_the_queue_run :
  statusFits (snd (clearQueue accepting (idle [leak; pothole]))) /\
  statusFits (snd (removeFromQueue accepting "queue_1_a" (idle [leak; pothole]))).
Proof.
  destruct (sync_status_follows_the_queue Payload accepting "Lamp" "queue_1_a"
              (idle [leak; pothole]) Runs.accepting_healthy)
    as (_ & Hr & Hc).
  split; assumption.
Defined.

(** X12 on an exhausted item and a report that was never sent. *)
Lemma retryFailedItems_nothing_to_retry_run :
  log (snd (retryFailedItems accepting (idle [exhausted; pothole]))) = [] /\
  offlineQueue (snd (retryFailedItems accepting (idle [exhausted; pothole])))
  = [exhausted; pothole].
Proof.
  destruct (retryFailedItems_nothing_to_retry Payload accepting
              (idle [exhausted; pothole]) Runs.accepting_healthy)
    as (_ & Hq & Hl & _).
  - simpl. intros y [<-|[<-|[]]]; reflexivity.
  - split; assumption.
Defined.

(** X13 on the queue [leak; pothole]. *)
Lemma all_accepted_cycle_run :
  exists new now,
    log (snd (processQueue accepting (idle [leak; pothole])))
    = Emit (SyncCompleted 2) :: new ++ [Emit SyncStarted] /\
    fst (getQueueStatus accepting
           (snd (processQueue accepting (idle [leak; pothole]))))
    = Ok (mkQueueStatus 0 false (Some now) []).
Proof.
  destruct (all_accepted_cycle Payload accepting (idle [leak; pothole])
              Runs.accepting_healthy eq_refl eq_refl)
    as (new & now & Hl & _ & _ & Hs).
  - intros n d. eexists. reflexivity.
  - simpl. intros y [<-|[<-|[]]]; split; reflexivity.
  - discriminate.
  - exists new, now. split; assumption.
Defined.

(** X14: the queue is cleared while a cycle over [leak; pothole] is
    suspended at the top of its loop. *)
Lemma clearQueue_does_not_stop_a_cycle_run :
  submissions
    (log (drive accepting 5 (Some (InLoop [leak; pothole] (mkTally 0 0 [])))
            (world (machineStep accepting Clear
                      (mkMachine (idle [leak; pothole])
                                 [InLoop [leak; pothole] (mkTally 0 0 [])])))))
  = [] ++ ["queue_1_a"; "queue_2_b"].
Proof.
  apply (clearQueue_does_not_stop_a_cycle Payload accepting
           (idle [leak; pothole]) [leak; pothole] (mkTally 0 0 []) 5
           Runs.accepting_healthy).
  - intros n d. eexists. reflexivity.
  - simpl. intros y [<-|[<-|[]]]; split; reflexivity.
  - simpl. lia.
Defined.

(** X28 with the store down and two reports queued. *)
Lemma failing_store_reads_as_synced_run :
  (exists s,
     fst (getQueueStatus storeDown (idle [leak; pothole])) = Ok s /\
     formatQueueStatus s = "All reports synced"%string) /\
  fst (Sync.isSyncNeeded storeDown
         (Sync.mkClient (idle [leak; pothole]) None started)) = Ok false.
Proof.
  destruct (failing_store_reads_as_synced Payload storeDown
              (idle [leak; pothole]) "Failed to initialize IndexedDB" eq_refl)
    as ((s & Hs & _ & Ht) & _ & Hn).
  split; [exists s; split; assumption|].
  apply Hn. reflexivity.
Defined.

(** X29 for [leak], the older of two reports that are always rejected. *)
Lemma oldest_item_retried_then_dropped_run :
  storeGet "queue_1_a"
    (offlineQueue (repeatCycles rejecting 4 (idle [leak; pothole]))) = None /\
  attemptsOf "queue_1_a" (log (repeatCycles rejecting 4 (idle [leak; pothole])))
  = (0 + 3)%nat.
Proof.
  destruct (oldest_item_retried_then_dropped Payload rejecting
              (idle [leak; pothole]) leak [pothole] Runs.rejecting_healthy
              eq_refl eq_refl ltac:(simpl; Runs.distinct_keys) eq_refl eq_refl
              eq_refl (fun t => ex_intro _ _ eq_refl))
    as (_ & Hgone & Hatt & _).
  split; assumption.
Defined.

(** X26 with the store down and [leak] queued. *)
Lemma failing_store_counts_as_synced_run :
  exists c',
    Sync.performSync storeDown tenSteps waiting = (Ok Sync.Ran, c') /\
    offlineQueue (Sync.queue c') = [leak] /\
    Sync.lastSyncTime (Sync.manager c') = Some 1000.
Proof.
  destruct (failing_store_counts_as_synced Payload storeDown tenSteps waiting
              "Failed to initialize IndexedDB" eq_refl
              ltac:(discriminate) eq_refl)
    as (c' & Hrun & Hq & _ & _ & Ht & _).
  exists c'. repeat split; assumption.
Defined.

End MoreRuns.

Module GeoRuns.
Import Reals Lra.
Import Server Ideal Geo IdealFacts GeoIdeal.
Local Open Scope R_scope.

(** X20 on the earlier report, 111 m from the new one. *)
Lemma duplicates_are_within_the_radius_run :
  (0 <= distance_m (mkDuplicate "r-1" "Pothole on the corner" 111
                      "2025-09-23T08:00:00Z"))%Z /\
  IZR (distance_m (mkDuplicate "r-1" "Pothole on the corner" 111
                     "2025-09-23T08:00:00Z")) <= 120 + / 2.
Proof.
  destruct (duplicates_are_within_the_radius [earlier] newPlace None _
              (proj1 detector_on_example)
              (mkDuplicate "r-1" "Pothole on the corner" 111
                 "2025-09-23T08:00:00Z")
              (or_introl eq_refl))
    as (H0 & H1 & _).
  split; assumption.
Defined.

(** X21 at 10 N, 125 E, inside the service area. *)
Lemma narrower_checks_imply_the_validator_run :
  isValidCoordinate 10 125 = true /\
  validatePhilippinesLocation (mkLocation 10 125) = true /\
  Server.validateLocation (Some (Some 10, Some 125)) = Ok (mkLocation 10 125).
Proof.
  apply (narrower_checks_imply_the_validator 10 125).
  left. unfold isWithinServiceArea, nge, serviceSouth, serviceNorth,
    serviceWest, serviceEast.
  rewrite !lit_IZR. cbn [nle ideal].
  rewrite !andb_true_iff, !leR_true. lra.
Defined.

End GeoRuns.
